(** * Triangle counting: host preprocessing (triangle_counter.js) and the
      counting kernel (compute.wgsl)

    A shallow embedding of [processGraph] and of the compute shader's
    [count_intersection] and [main], with the properties of the
    specification proved or refuted against them.

    Modelling conventions.
    - JavaScript Numbers that hold node identifiers and counters are
      non-negative integers, written in [N]; they are exact below 2^53.
    - Typed arrays ([BigUint64Array], [Uint32Array]) are lists whose writes
      reduce the stored value modulo 2^64 or 2^32 and whose out-of-range
      writes do nothing; WGSL [u32] arithmetic is written with its
      wrap-around.
    - A JavaScript exception ends the run: fallible steps return [result].
      The exceptions of the language are modelled ([BigInt] of a value
      that is not an integer, an [Array] longer than 2^32 - 1, a method
      call on [undefined]).  Memory is not: an allocation within the
      limits of the language is taken to succeed.
    - The input format is that of the specification: lines of ASCII text
      whose tokens are non-negative integers in decimal digits.  On such
      tokens below 2^53 [to_number] is [Number]; above, [Number] rounds,
      and on other numeric literals (signs, fractions, exponents, radix
      prefixes, [Infinity]) it gives a number where [to_number] gives
      [NaN].  A theorem that depends on how a token is read states the
      format among its hypotheses ([well_formed], a bound on the
      identifiers, [ascii_line]), and so does a theorem about a run that
      completes, by the hypothesis that [processGraph] returns
      ([completed_run_format]).
    - The host's [main] is modelled from the dispatch on: [dispatch] is
      the value that a dispatch accepted by the device leaves in the
      counter.  The set-up of the device can fail (no adapter, line 34;
      buffers or a dispatch beyond the limits of the device):
      [within_default_limits] states the limits of a default device. *)

From Stdlib Require Import String Ascii.
From Stdlib Require Import Arith NArith List Bool Lia Permutation Sorted.
Import ListNotations.
Local Open Scope N_scope.

(* ================================================================== *)
(** * Part I: definitions                                              *)
(* ================================================================== *)

(** ** Exceptions *)

Inductive js_error : Type := RangeError | TypeError.

Inductive result (A : Type) : Type :=
| Ok (a : A)
| Throw (e : js_error).
Arguments Ok {A} a.
Arguments Throw {A} e.

Definition bind {A B : Type} (r : result A) (k : A -> result B) : result B :=
  match r with
  | Ok a => k a
  | Throw e => Throw e
  end.

Notation "x <- r ;; k" := (bind r (fun x => k))
  (at level 61, r at next level, right associativity).

Definition obind {A B : Type} (o : option A) (k : A -> option B) : option B :=
  match o with
  | Some a => k a
  | None => None
  end.

(** ** JavaScript values held by [node1] and [node2] *)

Inductive jsval : Type :=
| JNum (n : N)
| JNaN
| JUndefined.

(** [a === b] *)
Definition strict_eq (a b : jsval) : bool :=
  match a, b with
  | JNum x, JNum y => x =? y
  | JUndefined, JUndefined => true
  | _, _ => false
  end.

(** SameValueZero, the equality of [Set.prototype.add] *)
Definition same_value_zero (a b : jsval) : bool :=
  match a, b with
  | JNum x, JNum y => x =? y
  | JNaN, JNaN => true
  | JUndefined, JUndefined => true
  | _, _ => false
  end.

(** [Math.max(a, b)] and [Math.min(a, b)]: [undefined] converts to [NaN],
    and [NaN] is contagious. *)
Definition math_max (a b : jsval) : jsval :=
  match a, b with
  | JNum x, JNum y => JNum (N.max x y)
  | _, _ => JNaN
  end.

Definition math_min (a b : jsval) : jsval :=
  match a, b with
  | JNum x, JNum y => JNum (N.min x y)
  | _, _ => JNaN
  end.

(** [BigInt(x)] *)
Definition to_bigint (a : jsval) : result N :=
  match a with
  | JNum n => Ok n
  | JNaN => Throw RangeError
  | JUndefined => Throw TypeError
  end.

(** ** Typed arrays *)

Fixpoint list_set {A : Type} (i : nat) (x : A) (l : list A) : list A :=
  match l, i with
  | [], _ => []
  | _ :: t, O => x :: t
  | h :: t, S j => h :: list_set j x t
  end.

(** [arr[i] = x] on an array of [bits]-wide unsigned elements. *)
Definition ta_write (bits : N) (i : N) (x : N) (arr : list N) : list N :=
  list_set (N.to_nat i) (x mod 2 ^ bits) arr.

(** [arr[i]]; [None] is [undefined]. *)
Definition ta_read (arr : list N) (i : N) : option N :=
  nth_error arr (N.to_nat i).

(** [arr[i]++] on a [Uint32Array]: out of range the read is [undefined] and
    the write is dropped. *)
Definition ta_incr (i : N) (arr : list N) : list N :=
  match ta_read arr i with
  | Some d => ta_write 32 i (d + 1) arr
  | None => arr
  end.

(** [new Uint32Array(len)] and [new BigUint64Array(len)], when the buffer
    can be allocated.  Where it cannot, the constructor throws a
    RangeError; for a length above 2^32 - 1, where an engine may refuse
    the length itself, [processGraph] ends with the same RangeError at
    [array_from]. *)
Definition new_typed_array (len : N) : list N := repeat 0 (N.to_nat len).

(** ** Lines and their tokens *)

(** The white space of [trim] and of [\s] among the ASCII characters:
    the space and the characters 9 to 13. *)
Definition is_ws (c : ascii) : bool :=
  let n := N_of_ascii c in (n =? 32) || ((9 <=? n) && (n <=? 13)).

Fixpoint drop_ws (s : list ascii) : list ascii :=
  match s with
  | c :: r => if is_ws c then drop_ws r else s
  | [] => []
  end.

(** [s.trim()] *)
Definition trim (s : list ascii) : list ascii :=
  rev (drop_ws (rev (drop_ws s))).

(** [s.split(/\s+/)]: the pieces between maximal runs of white space. *)
Fixpoint split_go (s tok : list ascii) (in_ws : bool) : list (list ascii) :=
  match s with
  | [] => [tok]
  | c :: r =>
      if is_ws c
      then (if in_ws then split_go r tok true else tok :: split_go r [] true)
      else split_go r (tok ++ [c]) false
  end.

Definition split_ws (s : list ascii) : list (list ascii) := split_go s [] false.

Definition is_digit (c : ascii) : bool :=
  let n := N_of_ascii c in (48 <=? n) && (n <=? 57).

(** [Number(tok)] on a token without white space, for the tokens of the
    input format: a string of decimal digits is read as its value, which
    [Number] does exactly below 2^53, and the empty token as 0. *)
Definition to_number (tok : list ascii) : jsval :=
  if forallb is_digit tok
  then JNum (fold_left (fun acc c => 10 * acc + (N_of_ascii c - 48)) tok 0)
  else JNaN.

(** [const [node1, node2] = line.trim().split(/\s+/).map(Number)] *)
Definition parse_line (line : string) : jsval * jsval :=
  let nums := map to_number (split_ws (trim (list_ascii_of_string line))) in
  (nth 0 nums JUndefined, nth 1 nums JUndefined).
Arguments parse_line : simpl never.

(** [lineBytes.length === 0] *)
Definition is_empty_line (line : string) : bool :=
  match line with
  | EmptyString => true
  | String _ _ => false
  end.

(** [line.startsWith("#")] *)
Definition starts_with_hash (line : string) : bool :=
  match line with
  | String c _ => Ascii.eqb c "#"%char
  | EmptyString => false
  end.

(** The two [continue] guards that open both reading loops. *)
Definition skipped (line : string) : bool :=
  is_empty_line line || starts_with_hash line.

(** ** Pass 1: tallies and bounds *)

Record pass1_state : Type := mkPass1 {
  officialEdgeCount : N;
  uniqueNodeIds : list jsval;
  maxNodeId : N;
  validEdgeCount : N
}.

Definition pass1_init : pass1_state :=
  {| officialEdgeCount := 0; uniqueNodeIds := []; maxNodeId := 0;
     validEdgeCount := 0 |}.

(** [set.add(x)] on a [Set] kept in insertion order. *)
Definition set_add (x : jsval) (s : list jsval) : list jsval :=
  if existsb (same_value_zero x) s then s else s ++ [x].

Definition pass1_step (st : pass1_state) (line : string) : pass1_state :=
  if is_empty_line line then st
  else if starts_with_hash line then st
  else
    let (node1, node2) := parse_line line in
    {| officialEdgeCount := officialEdgeCount st + 1;
       uniqueNodeIds := set_add node2 (set_add node1 (uniqueNodeIds st));
       maxNodeId :=
         match math_max node1 node2 with
         | JNum maxInPair =>
             if maxNodeId st <? maxInPair then maxInPair else maxNodeId st
         | _ => maxNodeId st
         end;
       validEdgeCount :=
         if strict_eq node1 node2 then validEdgeCount st
         else validEdgeCount st + 1 |}.

Definition pass1 (lines : list string) : pass1_state :=
  fold_left pass1_step lines pass1_init.

(** ** Pass 2: packed edges *)

(** [(u << 32n) | v], as stored in a [BigUint64Array] slot by [ta_write]. *)
Definition pack (u v : N) : N := N.lor (N.shiftl u 32) v.

Fixpoint pass2_loop (lines : list string) (allPackedEdges : list N)
    (edgeIndex : N) : result (list N) :=
  match lines with
  | [] => Ok allPackedEdges
  | line :: rest =>
      if is_empty_line line then pass2_loop rest allPackedEdges edgeIndex
      else if starts_with_hash line then pass2_loop rest allPackedEdges edgeIndex
      else
        let (node1, node2) := parse_line line in
        if strict_eq node1 node2 then pass2_loop rest allPackedEdges edgeIndex
        else
          u <- to_bigint (math_min node1 node2) ;;
          v <- to_bigint (math_max node1 node2) ;;
          pass2_loop rest (ta_write 64 edgeIndex (pack u v) allPackedEdges)
            (edgeIndex + 1)
  end.

Definition pass2 (lines : list string) : result (list N) :=
  pass2_loop lines (new_typed_array (validEdgeCount (pass1 lines))) 0.

(** ** Stage 3: sort and drop adjacent duplicates *)

Fixpoint insert_sorted (x : N) (l : list N) : list N :=
  match l with
  | [] => [x]
  | y :: r => if x <=? y then x :: l else y :: insert_sorted x r
  end.

(** Numeric ascending sort: [allPackedEdges.sort()] on a typed array and
    [row.sort((a, b) => a - b)] on a row.  The ascending arrangement of a
    list of numbers is unique, so the sorting method does not matter. *)
Definition sort_asc (l : list N) : list N := fold_right insert_sorted [] l.

(** The counting loop: [i] runs from 1 and compares slot [i] with slot
    [i-1], here [x] with [prev]. *)
Fixpoint count_changes (prev : N) (l : list N) : N :=
  match l with
  | [] => 0
  | x :: r => (if x =? prev then 0 else 1) + count_changes x r
  end.

Definition uniqueEdgeCount (allPackedEdges : list N) : N :=
  match allPackedEdges with
  | [] => 0
  | x :: r => 1 + count_changes x r
  end.

(** The filling loop, writing slot [count] of the preallocated array. *)
Fixpoint fill_unique (prev : N) (l : list N) (uniq : list N) (count : N)
    : list N :=
  match l with
  | [] => uniq
  | x :: r =>
      if x =? prev then fill_unique x r uniq count
      else fill_unique x r (ta_write 64 count x uniq) (count + 1)
  end.

Definition uniquePackedEdges (allPackedEdges : list N) : list N :=
  let uniq := new_typed_array (uniqueEdgeCount allPackedEdges) in
  match allPackedEdges with
  | [] => uniq
  | x :: r => fill_unique x r (ta_write 64 0 x uniq) 1
  end.

(** ** Degrees *)

(** [Number(packed >> 32n)] and [Number(packed & 0xFFFFFFFFn)] *)
Definition hi32 (packed : N) : N := N.shiftr packed 32.
Definition lo32 (packed : N) : N := N.land packed 4294967295.

Definition degrees_of (nodeCountForAllocation : N) (uniq : list N) : list N :=
  fold_left (fun degrees packed => ta_incr (lo32 packed) (ta_incr (hi32 packed) degrees))
    uniq (new_typed_array nodeCountForAllocation).

(** ** Orientation *)

(** [a < b] and [a === b] on array reads that may be [undefined]. *)
Definition js_lt (a b : option N) : bool :=
  match a, b with
  | Some x, Some y => x <? y
  | _, _ => false
  end.

Definition js_eq (a b : option N) : bool :=
  match a, b with
  | Some x, Some y => x =? y
  | None, None => true
  | _, _ => false
  end.

Definition max_array_length : N := 4294967295.

(** [Array.from({ length: n }, () => [])]: [new Array(n)] throws a
    RangeError above 2^32 - 1. *)
Definition array_from (n : N) : result (list (list N)) :=
  if max_array_length <? n then Throw RangeError
  else Ok (repeat [] (N.to_nat n)).

(** [arr.push(x)]: an Array cannot grow beyond 2^32 - 1 elements. *)
Definition js_push (arr : list N) (x : N) : result (list N) :=
  if N.of_nat (length arr) =? max_array_length then Throw RangeError
  else Ok (arr ++ [x]).

(** [orientedAdj[i].push(x)]: pushing on a missing row is a TypeError. *)
Definition push_at (orientedAdj : list (list N)) (i x : N)
    : result (list (list N)) :=
  match nth_error orientedAdj (N.to_nat i) with
  | None => Throw TypeError
  | Some row =>
      row' <- js_push row x ;;
      Ok (list_set (N.to_nat i) row' orientedAdj)
  end.

(** The test of the orientation loop on the degree array. *)
Definition oriented_forward (degrees : list N) (u v : N) : bool :=
  js_lt (ta_read degrees u) (ta_read degrees v)
  || (js_eq (ta_read degrees u) (ta_read degrees v) && (u <? v)).

Fixpoint orient_loop (degrees : list N) (uniq : list N)
    (orientedAdj : list (list N)) : result (list (list N)) :=
  match uniq with
  | [] => Ok orientedAdj
  | packed :: rest =>
      let u := hi32 packed in
      let v := lo32 packed in
      orientedAdj' <-
        (if oriented_forward degrees u v then push_at orientedAdj u v
         else push_at orientedAdj v u) ;;
      orient_loop degrees rest orientedAdj'
  end.

(** ** CSR construction *)

Fixpoint push_all (flat : list N) (row : list N) : result (list N) :=
  match row with
  | [] => Ok flat
  | neighbor :: r => flat' <- js_push flat neighbor ;; push_all flat' r
  end.

(** The loop over [i] in [0, nodeCountForAllocation); [rows] holds
    [orientedAdj[i]], [orientedAdj[i+1]], ... *)
Fixpoint csr_loop (rows : list (list N)) (i : N) (adj_offsets flat : list N)
    (currentOffset : N) : result (list N * list N * N) :=
  match rows with
  | [] => Ok (adj_offsets, flat, currentOffset)
  | row :: rest =>
      let sorted := sort_asc row in
      let adj_offsets' := ta_write 32 i currentOffset adj_offsets in
      flat' <- push_all flat sorted ;;
      csr_loop rest (i + 1) adj_offsets' flat'
        (currentOffset + N.of_nat (length sorted))
  end.

Record graph : Type := mkGraph {
  adj_offsets : list N;
  adj_data : list N;
  nodeCountForAllocation : N;
  officialNodeCount : N;
  g_officialEdgeCount : N
}.

(** The canonical edge set, as the sorted array of distinct packed edges. *)
Definition canonical_packed (lines : list string) : result (list N) :=
  allPackedEdges <- pass2 lines ;;
  Ok (uniquePackedEdges (sort_asc allPackedEdges)).

(** The degree array and the oriented adjacency lists, as they stand when
    the orientation loop ends. *)
Definition degrees_stage (lines : list string) : result (list N) :=
  uniq <- canonical_packed lines ;;
  Ok (degrees_of (maxNodeId (pass1 lines) + 1) uniq).

Definition orientedAdj_stage (lines : list string) : result (list (list N)) :=
  uniq <- canonical_packed lines ;;
  let n := maxNodeId (pass1 lines) + 1 in
  let degrees := degrees_of n uniq in
  orientedAdj0 <- array_from n ;;
  orient_loop degrees uniq orientedAdj0.

Definition processGraph (lines : list string) : result graph :=
  let st := pass1 lines in
  let n := maxNodeId st + 1 in
  orientedAdj <- orientedAdj_stage lines ;;
  csr <- csr_loop orientedAdj 0 (new_typed_array (n + 1)) [] 0 ;;
  let '(offsets, flat, currentOffset) := csr in
  Ok {| adj_offsets := ta_write 32 n currentOffset offsets;
        adj_data := map (fun x => x mod 2 ^ 32) flat;
        nodeCountForAllocation := n;
        officialNodeCount := N.of_nat (length (uniqueNodeIds st));
        g_officialEdgeCount := officialEdgeCount st |}.

(** ** The kernel (compute.wgsl) *)

Definition u32 (x : N) : N := x mod 2 ^ 32.

(** A read of a storage array; WGSL leaves a read past the end to the
    implementation, the model returns 0 there. *)
Definition load (buf : list N) (i : N) : N := nth (N.to_nat i) buf 0.

Definition arrayLength (buf : list N) : N := u32 (N.of_nat (length buf)).

(** The [while] loop of [count_intersection]; [None] when the fuel ends
    before the loop condition fails. *)
Fixpoint ci_loop (fuel : nat) (adj : list N) (u_end v_end i j count : N)
    : option N :=
  if (i <? u_end) && (j <? v_end) then
    match fuel with
    | O => None
    | S fuel' =>
        let neighbor_u := load adj i in
        let neighbor_v := load adj j in
        if neighbor_u =? neighbor_v then
          ci_loop fuel' adj u_end v_end (u32 (i + 1)) (u32 (j + 1)) (u32 (count + 1))
        else if neighbor_u <? neighbor_v then
          ci_loop fuel' adj u_end v_end (u32 (i + 1)) j count
        else
          ci_loop fuel' adj u_end v_end i (u32 (j + 1)) count
    end
  else Some count.

Definition count_intersection (adj : list N) (u_start u_end v_start v_end : N)
    : option N :=
  ci_loop (N.to_nat ((u_end - u_start) + (v_end - v_start))) adj
    u_end v_end u_start v_start 0.

(** [atomicAdd(&triangle_count, x)] *)
Definition atomicAdd (triangle_count x : N) : N := u32 (triangle_count + x).

(** The [for] loop of [main] over [i] in [u_adj_start, u_adj_end). *)
Fixpoint main_loop (fuel : nat) (offsets adj : list N)
    (u_adj_start u_adj_end i triangle_count : N) : option N :=
  if i <? u_adj_end then
    match fuel with
    | O => None
    | S fuel' =>
        let v := load adj i in
        let v_adj_start := load offsets v in
        let v_adj_end := load offsets (u32 (v + 1)) in
        obind (count_intersection adj u_adj_start u_adj_end v_adj_start v_adj_end)
          (fun common_neighbors =>
             main_loop fuel' offsets adj u_adj_start u_adj_end (u32 (i + 1))
               (if 0 <? common_neighbors
                then atomicAdd triangle_count common_neighbors
                else triangle_count))
    end
  else Some triangle_count.

(** [arrayLength(&adj_offsets) - 1u] *)
Definition node_count (offsets : list N) : N :=
  u32 (arrayLength offsets + (2 ^ 32 - 1)).

(** One invocation, as a transformer of the shared counter. *)
Definition main (offsets adj : list N) (u : N) (triangle_count : N) : option N :=
  if node_count offsets <=? u then Some triangle_count
  else
    let u_adj_start := load offsets u in
    let u_adj_end := load offsets (u32 (u + 1)) in
    main_loop (N.to_nat (u_adj_end - u_adj_start)) offsets adj
      u_adj_start u_adj_end u_adj_start triangle_count.

(** [Math.ceil(nodeCountForAllocation / 256)] workgroups of 256
    invocations: the identifiers of a dispatch that the device accepts. *)
Definition workgroupCount (n : N) : N := (n + 255) / 256.

Definition invocations (n : N) : list N :=
  map N.of_nat (seq 0 (N.to_nat (256 * workgroupCount n))).

(** The invocations run one after the other on a zero-initialised counter;
    atomic additions commute, so every schedule gives this value. *)
Definition run_invocations (offsets adj : list N) (ids : list N)
    (triangle_count : N) : option N :=
  fold_left (fun acc u => obind acc (main offsets adj u)) ids (Some triangle_count).

Definition dispatch (g : graph) : option N :=
  run_invocations (adj_offsets g) (adj_data g)
    (invocations (nodeCountForAllocation g)) 0.

(** The value read back from the result buffer (line 94), for a device
    that was set up and accepts the buffers and the dispatch. *)
Definition triangleCount (lines : list string) : result (option N) :=
  g <- processGraph lines ;;
  Ok (dispatch g).

(** ** Reference notions of the specification *)

(** The raw edge records of the input: the pairs of identifiers on the
    lines that are not skipped. *)
Definition edge_records (lines : list string) : list (N * N) :=
  flat_map (fun line =>
    if skipped line then []
    else match parse_line line with
         | (JNum a, JNum b) => [(a, b)]
         | _ => []
         end) lines.

(** [a] and [b] are joined in the simple undirected graph of the records. *)
Definition adjacent (es : list (N * N)) (a b : N) : bool :=
  negb (a =? b)
  && existsb (fun e => ((fst e =? a) && (snd e =? b))
                       || ((fst e =? b) && (snd e =? a))) es.

Definition b2n (b : bool) : N := if b then 1 else 0.

Definition sumN {A : Type} (f : A -> N) (l : list A) : N :=
  fold_right (fun x acc => f x + acc) 0 l.

Definition node_ids (n : N) : list N := map N.of_nat (seq 0 (N.to_nat n)).

Definition max_id (es : list (N * N)) : N :=
  fold_left (fun m e => N.max m (N.max (fst e) (snd e))) es 0.

(** Brute-force enumeration of the 3-cliques [a < b < c]. *)
Definition is_triangle (es : list (N * N)) (a b c : N) : bool :=
  adjacent es a b && adjacent es b c && adjacent es a c.

Definition triangles (es : list (N * N)) : N :=
  let ns := node_ids (max_id es + 1) in
  sumN (fun a => sumN (fun b => sumN (fun c =>
    b2n ((a <? b) && (b <? c) && is_triangle es a b c)) ns) ns) ns.

(** A packed edge read back as the orientation loop reads it. *)
Definition unpack (packed : N) : N * N := (hi32 packed, lo32 packed).

Definition canonical_edges (lines : list string) : result (list (N * N)) :=
  uniq <- canonical_packed lines ;;
  Ok (map unpack uniq).

(** Degree of a node in a canonical edge set, and the rank order of the
    specification. *)
Definition degree (ce : list (N * N)) (x : N) : N :=
  N.of_nat (length (filter (fun e => (fst e =? x) || (snd e =? x)) ce)).

Definition rank_lt (deg : N -> N) (u v : N) : bool :=
  (deg u <? deg v) || ((deg u =? deg v) && (u <? v)).

(** Rows and slices of the compact representation. *)
Definition slice (l : list N) (s e : N) : list N :=
  firstn (N.to_nat (e - s)) (skipn (N.to_nat s) l).

Definition row (g : graph) (i : N) : list N :=
  slice (adj_data g) (load (adj_offsets g) i) (load (adj_offsets g) (i + 1)).

Definition mem (x : N) (l : list N) : bool := existsb (N.eqb x) l.

(** Size of the intersection of the element sets of two sequences. *)
Definition set_inter_size (l1 l2 : list N) : N :=
  N.of_nat (length (nodup N.eq_dec (filter (fun x => mem x l2) l1))).

(** A line of white space only. *)
Definition is_blank (line : string) : bool :=
  forallb is_ws (list_ascii_of_string line).

(** The lines that reach the parser. *)
Definition kept_lines (lines : list string) : list string :=
  filter (fun line => negb (skipped line)) lines.

(** Every record line holds two numbers. *)
Definition well_formed (lines : list string) : Prop :=
  Forall (fun line => skipped line = true
                      \/ exists a b, parse_line line = (JNum a, JNum b)) lines.

(** The packed edges of a list of records, in input order. *)
Definition packed_records (es : list (N * N)) : list N :=
  flat_map (fun e =>
    if fst e =? snd e then []
    else [pack (N.min (fst e) (snd e)) (N.max (fst e) (snd e)) mod 2 ^ 64]) es.

(** The array that the two deduplication loops leave: every element that
    differs from its predecessor. *)
Fixpoint dedup_from (prev : N) (l : list N) : list N :=
  match l with
  | [] => []
  | x :: r => if x =? prev then dedup_from x r else x :: dedup_from x r
  end.

Definition dedup_adjacent (l : list N) : list N :=
  match l with
  | [] => []
  | x :: r => x :: dedup_from x r
  end.

(** Every identifier of the records is below [bound]. *)
Definition ids_below (bound : N) (es : list (N * N)) : Prop :=
  Forall (fun e => fst e < bound /\ snd e < bound) es.

(** The neighbours that the orientation loop pushes on row [x]: for each
    packed edge, the higher-ranked endpoint under the lower-ranked one. *)
Definition targets (degrees : list N) (x : N) (uniq : list N) : list N :=
  flat_map (fun packed =>
    let u := hi32 packed in
    let v := lo32 packed in
    if oriented_forward degrees u v
    then (if u =? x then [v] else [])
    else (if v =? x then [u] else [])) uniq.

(** The offsets that the CSR loop writes: the running sums of the row
    lengths, the total included. *)
Fixpoint prefix_sums (start : N) (rows : list (list N)) : list N :=
  match rows with
  | [] => [start]
  | r :: rest => start :: prefix_sums (start + N.of_nat (length r)) rest
  end.

(** Number of elements of [l1] that occur in [l2]. *)
Definition inter_size (l1 l2 : list N) : N :=
  N.of_nat (length (filter (fun x => mem x l2) l1)).

(** Row [i] of a compact representation given by its two arrays. *)
Definition row_of (offsets adj : list N) (i : N) : list N :=
  slice adj (load offsets i) (load offsets (i + 1)).

(** What the invocation for node [u] adds to the counter, before any
    wrap-around: the sizes of the intersections of [u]'s row with the rows
    of [u]'s neighbours. *)
Definition contribution (offsets adj : list N) (u : N) : N :=
  sumN (fun v => inter_size (row_of offsets adj u) (row_of offsets adj v))
       (row_of offsets adj u).

(** The invariants of the compact representation that the kernel relies
    on, for [n] nodes. *)
Record csr_ok (offsets adj : list N) (n : N) : Prop := mkCsrOk {
  csr_length : N.of_nat (length offsets) = n + 1;
  csr_small : n < 2 ^ 32;
  csr_first : load offsets 0 = 0;
  csr_mono : forall i, i < n -> load offsets i <= load offsets (i + 1);
  csr_last : load offsets n = N.of_nat (length adj);
  csr_fits : N.of_nat (length adj) < 2 ^ 32;
  csr_sorted : forall i, i < n -> StronglySorted N.lt (row_of offsets adj i);
  csr_ids : Forall (fun v => v < n) adj
}.

(** Triple sums over a list of nodes, and the two indicators compared in
    the counting argument. *)
Definition sum3 (ns : list N) (G : N -> N -> N -> N) : N :=
  sumN (fun a => sumN (fun b => sumN (fun c => G a b c) ns) ns) ns.

Definition ordered_triple (R : N -> N -> bool) (T : N -> N -> N -> bool)
    (a b c : N) : N :=
  b2n (R a b && R b c && T a b c).

Definition distinct_triple (T : N -> N -> N -> bool) (a b c : N) : N :=
  b2n (negb (a =? b) && negb (b =? c) && negb (a =? c) && T a b c).

(** The two-pointer merge of the specification, on two sequences: the
    pointer at the smaller value advances; on equal values the count grows
    by one and both advance; the merge ends when either sequence is
    exhausted. *)
Fixpoint merge_count (l1 : list N) : list N -> N :=
  fix merge_right (l2 : list N) : N :=
    match l1, l2 with
    | x :: r1, y :: r2 =>
        if x =? y then 1 + merge_count r1 r2
        else if x <? y then merge_count r1 l2
        else merge_right r2
    | _, _ => 0
    end.

(** ** Inputs used in examples *)

(** Scenario 1 of the specification: one triangle. *)
Definition scenario1 : list string :=
  ["1 2"; "2 3"; "1 3"]%string.

Definition scenario1_graph : graph :=
  {| adj_offsets := [0; 0; 2; 3; 3];
     adj_data := [2; 3; 3];
     nodeCountForAllocation := 4;
     officialNodeCount := 3;
     g_officialEdgeCount := 3 |}.

(** Scenario 3: comments, an empty line, a self-loop and repeated
    records around the same triangle. *)
Definition scenario3 : list string :=
  ["# triangle"; "1 2"; ""; "5 5"; "2 1"; "2 3"; "1 2"; "1 3"]%string.

(** ** A large input *)

(** The decimal text of a number and the line of a record. *)
Fixpoint decimal_digits (fuel : nat) (n : N) (acc : list ascii) : list ascii :=
  match fuel with
  | O => acc
  | S fuel' =>
      let acc' := ascii_of_N (48 + n mod 10) :: acc in
      if n <? 10 then acc' else decimal_digits fuel' (n / 10) acc'
  end.

Definition decimal (n : N) : list ascii :=
  decimal_digits (S (N.to_nat (N.log2 n))) n [].

Definition record_line (a b : N) : string :=
  string_of_list_ascii (decimal a ++ " "%char :: decimal b).

(** One line for every ordered pair of the nodes below [n]: the complete
    graph, with its self-loops and both orientations of every edge in the
    text. *)
Definition clique_lines (n : N) : list string :=
  flat_map (fun a => map (record_line a) (node_ids n)) (node_ids n).

(** The records of [clique_lines n]. *)
Definition all_pairs (n : N) : list (N * N) :=
  flat_map (fun a => map (fun b => (a, b)) (node_ids n)) (node_ids n).

(** ** Further reference notions *)

(** The identifiers that the records mention, in reading order. *)
Definition record_ids (es : list (N * N)) : list N :=
  flat_map (fun e => [fst e; snd e]) es.

(** The value that [Number] reads in a string of decimal digits. *)
Definition digits_value (tok : list ascii) : N :=
  fold_left (fun acc c => 10 * acc + (N_of_ascii c - 48)) tok 0.

(** Every byte of the line is an ASCII character: the decoded text is the
    bytes themselves, and [trim] and [split] meet no white space other
    than that of [is_ws]. *)
Definition ascii_line (line : string) : bool :=
  forallb (fun c => N_of_ascii c <? 128) (list_ascii_of_string line).

(** The limits of a device obtained by [adapter.requestDevice()] without a
    descriptor (line 35): the defaults of WebGPU. *)
Definition maxComputeWorkgroupsPerDimension : N := 65535.
Definition maxStorageBufferBindingSize : N := 134217728.

(** [data.byteLength] of a [Uint32Array] *)
Definition byteLength (data : list N) : N := 4 * N.of_nat (length data).

(** The two storage buffers can be bound (a binding is not empty and not
    larger than the limit) and the dispatch of line 82 is accepted. *)
Definition within_default_limits (g : graph) : bool :=
  (workgroupCount (nodeCountForAllocation g) <=? maxComputeWorkgroupsPerDimension)
  && (byteLength (adj_offsets g) <=? maxStorageBufferBindingSize)
  && (0 <? byteLength (adj_data g))
  && (byteLength (adj_data g) <=? maxStorageBufferBindingSize).

(* ================================================================== *)
(** * Part II: properties                                              *)
(* ================================================================== *)

(** ** Lists written by index *)

Lemma list_set_length {A : Type} (i : nat) (x : A) (l : list A) :
  length (list_set i x l) = length l.
Proof.
  revert i; induction l as [|h t IH]; intros [|i]; simpl; auto.
Qed.

Lemma list_set_app_here {A : Type} (done : list A) (x y : A) (rest : list A) :
  list_set (length done) x (done ++ y :: rest) = done ++ x :: rest.
Proof.
  induction done as [|d done IH]; simpl; [reflexivity | now rewrite IH].
Qed.

Lemma nth_error_list_set_eq {A : Type} (i : nat) (x : A) (l : list A) :
  (i < length l)%nat -> nth_error (list_set i x l) i = Some x.
Proof.
  revert i; induction l as [|h t IH]; intros [|i] Hi; simpl in *; try lia; auto.
  apply IH; lia.
Qed.

Lemma nth_error_list_set_ne {A : Type} (i j : nat) (x : A) (l : list A) :
  i <> j -> nth_error (list_set i x l) j = nth_error l j.
Proof.
  revert i j; induction l as [|h t IH]; intros [|i] [|j] Hij; simpl; auto;
    try congruence.
Qed.

Lemma list_set_out_of_range {A : Type} (i : nat) (x : A) (l : list A) :
  (length l <= i)%nat -> list_set i x l = l.
Proof.
  revert i; induction l as [|h t IH]; intros [|i] Hi; simpl in *; auto; try lia.
  f_equal; apply IH; lia.
Qed.

Lemma ta_write_length bits i x arr :
  length (ta_write bits i x arr) = length arr.
Proof. apply list_set_length. Qed.

Lemma ta_write_app_here bits done x y rest :
  ta_write bits (N.of_nat (length done)) x (done ++ y :: rest)
  = done ++ (x mod 2 ^ bits) :: rest.
Proof.
  unfold ta_write. rewrite Nat2N.id. apply list_set_app_here.
Qed.

(** ** The guards of the reading loops *)

Lemma pass1_step_skipped st line :
  skipped line = true -> pass1_step st line = st.
Proof.
  unfold skipped, pass1_step; intros H.
  destruct (is_empty_line line); [reflexivity|].
  simpl in H; now rewrite H.
Qed.

Lemma pass1_from_kept lines st :
  fold_left pass1_step (kept_lines lines) st = fold_left pass1_step lines st.
Proof.
  revert st; induction lines as [|line rest IH]; intros st; simpl; [reflexivity|].
  destruct (skipped line) eqn:Hs; simpl.
  - rewrite pass1_step_skipped by assumption. apply IH.
  - apply IH.
Qed.

Lemma pass2_loop_cons line rest arr k :
  pass2_loop (line :: rest) arr k =
  if is_empty_line line then pass2_loop rest arr k
  else if starts_with_hash line then pass2_loop rest arr k
  else
    let (node1, node2) := parse_line line in
    if strict_eq node1 node2 then pass2_loop rest arr k
    else
      u <- to_bigint (math_min node1 node2) ;;
      v <- to_bigint (math_max node1 node2) ;;
      pass2_loop rest (ta_write 64 k (pack u v) arr) (k + 1).
Proof. reflexivity. Qed.

Lemma pass2_loop_skipped line rest arr k :
  skipped line = true ->
  pass2_loop (line :: rest) arr k = pass2_loop rest arr k.
Proof.
  unfold skipped; intros H. rewrite pass2_loop_cons.
  destruct (is_empty_line line); [reflexivity|].
  simpl in H; now rewrite H.
Qed.

Lemma pass2_loop_record line rest arr k :
  skipped line = false ->
  pass2_loop (line :: rest) arr k =
  let (node1, node2) := parse_line line in
  if strict_eq node1 node2 then pass2_loop rest arr k
  else
    u <- to_bigint (math_min node1 node2) ;;
    v <- to_bigint (math_max node1 node2) ;;
    pass2_loop rest (ta_write 64 k (pack u v) arr) (k + 1).
Proof.
  unfold skipped; intros H. rewrite pass2_loop_cons.
  destruct (is_empty_line line); [discriminate|].
  simpl in H; now rewrite H.
Qed.

Lemma pass2_loop_from_kept lines arr k :
  pass2_loop (kept_lines lines) arr k = pass2_loop lines arr k.
Proof.
  revert arr k; induction lines as [|line rest IH]; intros arr k;
    [reflexivity|].
  unfold kept_lines; cbn [filter]; fold (kept_lines rest).
  destruct (skipped line) eqn:Hs; cbn [negb].
  - rewrite pass2_loop_skipped by assumption. apply IH.
  - rewrite !pass2_loop_record by assumption.
    destruct (parse_line line) as [node1 node2].
    destruct (strict_eq node1 node2); [apply IH|].
    destruct (to_bigint (math_min node1 node2)); [|reflexivity].
    destruct (to_bigint (math_max node1 node2)); [|reflexivity].
    apply IH.
Qed.

Lemma pass1_kept lines : pass1 (kept_lines lines) = pass1 lines.
Proof. apply pass1_from_kept. Qed.

Lemma pass2_kept lines : pass2 (kept_lines lines) = pass2 lines.
Proof.
  unfold pass2. rewrite pass1_kept. apply pass2_loop_from_kept.
Qed.

Lemma processGraph_kept lines :
  processGraph (kept_lines lines) = processGraph lines.
Proof.
  unfold processGraph, orientedAdj_stage, canonical_packed.
  now rewrite pass1_kept, pass2_kept.
Qed.

(** ** Records *)

Lemma split_go_nonempty s tok b : split_go s tok b <> [].
Proof.
  revert tok b; induction s as [|c r IH]; intros tok b; simpl; [discriminate|].
  destruct (is_ws c); [destruct b|]; try apply IH; discriminate.
Qed.

Lemma to_number_defined tok : to_number tok <> JUndefined.
Proof. unfold to_number; destruct (forallb is_digit tok); discriminate. Qed.

Lemma parse_line_node1_defined line : fst (parse_line line) <> JUndefined.
Proof.
  unfold parse_line, split_ws.
  destruct (split_go (trim (list_ascii_of_string line)) [] false) as [|t ts] eqn:E.
  - now apply split_go_nonempty in E.
  - simpl. apply to_number_defined.
Qed.

Lemma edge_records_cons line rest :
  edge_records (line :: rest) =
  (if skipped line then []
   else match parse_line line with
        | (JNum a, JNum b) => [(a, b)]
        | _ => []
        end) ++ edge_records rest.
Proof. reflexivity. Qed.

Lemma well_formed_kept lines : well_formed lines -> well_formed (kept_lines lines).
Proof.
  unfold well_formed, kept_lines; intros H.
  rewrite Forall_forall in *; intros l Hl.
  apply filter_In in Hl. now apply H.
Qed.

(** A run whose second pass completes has read nothing but pairs of
    numbers. *)
Lemma pass2_loop_ok_well_formed lines arr k r :
  pass2_loop lines arr k = Ok r -> well_formed lines.
Proof.
  revert arr k; induction lines as [|line rest IH]; intros arr k H;
    [constructor|].
  destruct (skipped line) eqn:Hs.
  - rewrite pass2_loop_skipped in H by assumption.
    constructor; [now left | eapply IH; eauto].
  - rewrite pass2_loop_record in H by assumption.
    pose proof (parse_line_node1_defined line) as Hdef.
    destruct (parse_line line) as [node1 node2] eqn:Hp. simpl in Hdef.
    destruct node1 as [a| |]; destruct node2 as [b| |]; simpl in H;
      try discriminate; try congruence.
    constructor; [right; eauto|].
    destruct (a =? b); eapply IH; eauto.
Qed.

Lemma pass1_step_record st line a b :
  skipped line = false -> parse_line line = (JNum a, JNum b) ->
  pass1_step st line =
  {| officialEdgeCount := officialEdgeCount st + 1;
     uniqueNodeIds := set_add (JNum b) (set_add (JNum a) (uniqueNodeIds st));
     maxNodeId := N.max (maxNodeId st) (N.max a b);
     validEdgeCount := if a =? b then validEdgeCount st else validEdgeCount st + 1 |}.
Proof.
  unfold skipped, pass1_step; intros Hs Hp.
  destruct (is_empty_line line); [discriminate|]. simpl in Hs; rewrite Hs, Hp.
  simpl. f_equal.
  destruct (N.ltb_spec (maxNodeId st) (N.max a b)); lia.
Qed.

Lemma pass1_fold_well_formed lines st :
  well_formed lines ->
  maxNodeId (fold_left pass1_step lines st)
  = fold_left (fun m e => N.max m (N.max (fst e) (snd e)))
      (edge_records lines) (maxNodeId st)
  /\ validEdgeCount (fold_left pass1_step lines st)
     = validEdgeCount st + N.of_nat (length (packed_records (edge_records lines))).
Proof.
  intros H; revert st; induction H as [|line rest Hl _ IH]; intros st.
  - simpl; split; [reflexivity | lia].
  - cbn [fold_left]. rewrite edge_records_cons.
    destruct (skipped line) eqn:Hs.
    + rewrite pass1_step_skipped by assumption. apply IH.
    + destruct Hl as [Hl | (a & b & Hp)]; [congruence|].
      rewrite (pass1_step_record st line a b Hs Hp), Hp.
      destruct (IH {| officialEdgeCount := officialEdgeCount st + 1;
                      uniqueNodeIds := set_add (JNum b) (set_add (JNum a) (uniqueNodeIds st));
                      maxNodeId := N.max (maxNodeId st) (N.max a b);
                      validEdgeCount := if a =? b then validEdgeCount st
                                        else validEdgeCount st + 1 |}) as [IH1 IH2].
      split.
      * rewrite IH1. reflexivity.
      * rewrite IH2. cbn [maxNodeId validEdgeCount app].
        unfold packed_records at 2. cbn [flat_map fst snd].
        fold (packed_records (edge_records rest)).
        destruct (a =? b); cbn [app length]; lia.
Qed.

Lemma pass1_maxNodeId lines :
  well_formed lines -> maxNodeId (pass1 lines) = max_id (edge_records lines).
Proof. intros H. apply (pass1_fold_well_formed lines pass1_init H). Qed.

Lemma pass1_validEdgeCount lines :
  well_formed lines ->
  validEdgeCount (pass1 lines)
  = N.of_nat (length (packed_records (edge_records lines))).
Proof. intros H. apply (pass1_fold_well_formed lines pass1_init H). Qed.

(** Pass 2 fills the preallocated array from the left with the packed
    records. *)
Lemma pass2_loop_fills lines done zs :
  well_formed lines ->
  length zs = length (packed_records (edge_records lines)) ->
  pass2_loop lines (done ++ zs) (N.of_nat (length done))
  = Ok (done ++ packed_records (edge_records lines)).
Proof.
  intros H; revert done zs; induction H as [|line rest Hl _ IH]; intros done zs Hlen.
  - simpl in *. destruct zs; [reflexivity | discriminate].
  - rewrite edge_records_cons in *.
    destruct (skipped line) eqn:Hs.
    + rewrite pass2_loop_skipped by assumption. now apply IH.
    + destruct Hl as [Hl | (a & b & Hp)]; [congruence|].
      rewrite pass2_loop_record by assumption. rewrite Hp in *.
      unfold packed_records in *. cbn [flat_map app fst snd strict_eq] in *.
      fold (packed_records (edge_records rest)) in *.
      destruct (a =? b); cbn [app] in *; [now apply IH|].
      cbn [math_min math_max to_bigint bind].
      destruct zs as [|z zs]; [discriminate|].
      rewrite ta_write_app_here.
      replace (done ++ pack (N.min a b) (N.max a b) mod 2 ^ 64 :: zs)
        with ((done ++ [pack (N.min a b) (N.max a b) mod 2 ^ 64]) ++ zs)
        by (now rewrite <- app_assoc).
      replace (N.of_nat (length done) + 1)
        with (N.of_nat (length (done ++ [pack (N.min a b) (N.max a b) mod 2 ^ 64])))
        by (rewrite length_app; simpl; lia).
      rewrite IH by (simpl in Hlen; lia).
      now rewrite <- app_assoc.
Qed.

Lemma pass2_well_formed lines :
  well_formed lines -> pass2 lines = Ok (packed_records (edge_records lines)).
Proof.
  intros H. unfold pass2, new_typed_array.
  rewrite (pass1_validEdgeCount lines H), Nat2N.id.
  apply (pass2_loop_fills lines [] _ H). apply repeat_length.
Qed.

Lemma pass2_ok_well_formed lines r : pass2 lines = Ok r -> well_formed lines.
Proof. unfold pass2. apply pass2_loop_ok_well_formed. Qed.

(** ** Sorting *)

Lemma insert_sorted_perm x l : Permutation (insert_sorted x l) (x :: l).
Proof.
  induction l as [|y r IH]; simpl; [reflexivity|].
  destruct (x <=? y); [reflexivity|].
  rewrite IH. apply perm_swap.
Qed.

Lemma sort_asc_perm l : Permutation (sort_asc l) l.
Proof.
  induction l as [|x r IH]; simpl; [reflexivity|].
  rewrite insert_sorted_perm. now constructor.
Qed.

Lemma insert_sorted_sorted x l :
  StronglySorted N.le l -> StronglySorted N.le (insert_sorted x l).
Proof.
  induction 1 as [|y r Hs IH Hall]; simpl.
  - repeat constructor.
  - destruct (N.leb_spec x y).
    + constructor; [now constructor|].
      constructor; [assumption|].
      eapply Forall_impl; [|exact Hall]. intros; simpl in *; lia.
    + constructor; [assumption|].
      eapply Permutation_Forall; [symmetry; apply insert_sorted_perm|].
      constructor; [lia | assumption].
Qed.

Lemma sort_asc_sorted l : StronglySorted N.le (sort_asc l).
Proof.
  induction l as [|x r IH]; simpl; [constructor|].
  now apply insert_sorted_sorted.
Qed.

Lemma sort_asc_In x l : In x (sort_asc l) <-> In x l.
Proof.
  split; apply Permutation_in; [|symmetry]; apply sort_asc_perm.
Qed.

Lemma sort_asc_length l : length (sort_asc l) = length l.
Proof. apply Permutation_length, sort_asc_perm. Qed.

Lemma sort_asc_Forall (P : N -> Prop) l : Forall P l -> Forall P (sort_asc l).
Proof. apply Permutation_Forall. symmetry. apply sort_asc_perm. Qed.

Lemma sorted_le_nodup_lt l :
  StronglySorted N.le l -> NoDup l -> StronglySorted N.lt l.
Proof.
  induction 1 as [|x r Hs IH Hall]; intros Hnd; [constructor|].
  inversion Hnd as [|? ? Hnin Hnd']; subst.
  constructor; [auto|].
  rewrite Forall_forall in *. intros y Hy.
  specialize (Hall y Hy). simpl in Hall.
  assert (x <> y) by (intros ->; contradiction). lia.
Qed.

Lemma sorted_lt_NoDup l : StronglySorted N.lt l -> NoDup l.
Proof.
  induction 1 as [|x r Hs IH Hall]; constructor; [|assumption].
  intros Hin. rewrite Forall_forall in Hall. specialize (Hall x Hin). lia.
Qed.

(** ** Deduplication *)

Lemma count_changes_length prev l :
  count_changes prev l = N.of_nat (length (dedup_from prev l)).
Proof.
  revert prev; induction l as [|x r IH]; intros prev; [reflexivity|].
  cbn [count_changes dedup_from].
  rewrite IH. destruct (x =? prev); cbn [length]; lia.
Qed.

Lemma uniqueEdgeCount_length l :
  uniqueEdgeCount l = N.of_nat (length (dedup_adjacent l)).
Proof.
  destruct l as [|x r]; [reflexivity|].
  cbn [uniqueEdgeCount dedup_adjacent length].
  rewrite count_changes_length. lia.
Qed.

Lemma fill_unique_fills l : forall prev done zs,
  Forall (fun x => x < 2 ^ 64) l ->
  length zs = length (dedup_from prev l) ->
  fill_unique prev l (done ++ zs) (N.of_nat (length done))
  = done ++ dedup_from prev l.
Proof.
  induction l as [|x r IH]; intros prev done zs Hall Hlen; simpl in *.
  - destruct zs; [reflexivity | discriminate].
  - inversion Hall as [|? ? Hx Hall']; subst.
    destruct (x =? prev); [now apply IH|].
    destruct zs as [|z zs]; [discriminate|].
    rewrite ta_write_app_here, N.mod_small by assumption.
    replace (done ++ x :: zs) with ((done ++ [x]) ++ zs)
      by (now rewrite <- app_assoc).
    replace (N.of_nat (length done) + 1) with (N.of_nat (length (done ++ [x])))
      by (rewrite length_app; simpl; lia).
    rewrite IH by (auto; simpl in Hlen; lia).
    now rewrite <- app_assoc.
Qed.

Lemma uniquePackedEdges_dedup l :
  Forall (fun x => x < 2 ^ 64) l ->
  uniquePackedEdges l = dedup_adjacent l.
Proof.
  intros Hall. unfold uniquePackedEdges, new_typed_array.
  rewrite uniqueEdgeCount_length, Nat2N.id.
  destruct l as [|x r]; [reflexivity|].
  inversion Hall as [|? ? Hx Hall']; subst.
  cbn [dedup_adjacent length repeat].
  change (repeat 0 (length (dedup_from x r)))
    with ([] ++ repeat 0 (length (dedup_from x r))).
  change (ta_write 64 0 x (0 :: [] ++ repeat 0 (length (dedup_from x r))))
    with (ta_write 64 (N.of_nat (length (@nil N))) x
            ([] ++ 0 :: repeat 0 (length (dedup_from x r)))).
  rewrite ta_write_app_here, N.mod_small by assumption.
  apply (fill_unique_fills r x [x] _ Hall'). apply repeat_length.
Qed.

Lemma dedup_from_sorted l : forall prev,
  StronglySorted N.le (prev :: l) ->
  StronglySorted N.lt (prev :: dedup_from prev l)
  /\ (forall x, In x (prev :: dedup_from prev l) <-> In x (prev :: l)).
Proof.
  induction l as [|y r IH]; intros prev Hs.
  - simpl. split; [repeat constructor | tauto].
  - inversion Hs as [|? ? Hs' Hall]; subst.
    inversion Hall as [|? ? Hpy Hall']; subst.
    cbn [dedup_from]. destruct (N.eqb_spec y prev) as [->|Hne].
    + destruct (IH prev) as [IH1 IH2]; [now constructor; [inversion Hs'|]|].
      split; [assumption|].
      intros x. rewrite IH2. simpl. tauto.
    + destruct (IH y Hs') as [IH1 IH2].
      split.
      * constructor; [assumption|].
        rewrite Forall_forall. intros x Hx. apply IH2 in Hx.
        inversion Hs' as [|? ? _ Hally]; subst. rewrite Forall_forall in Hally.
        destruct Hx as [<- | Hx]; [lia|]. specialize (Hally x Hx). simpl in Hally. lia.
      * intros x. change (In x (prev :: y :: dedup_from y r))
          with (prev = x \/ In x (y :: dedup_from y r)).
        rewrite IH2. simpl. tauto.
Qed.

Lemma dedup_adjacent_sorted l :
  StronglySorted N.le l ->
  StronglySorted N.lt (dedup_adjacent l)
  /\ (forall x, In x (dedup_adjacent l) <-> In x l).
Proof.
  destruct l as [|x r]; intros Hs.
  - simpl. split; [constructor | tauto].
  - now apply dedup_from_sorted.
Qed.

(** ** Packing *)

Lemma lo32_mod p : lo32 p = p mod 2 ^ 32.
Proof. unfold lo32. change 4294967295 with (N.ones 32). apply N.land_ones. Qed.

Lemma hi32_div p : hi32 p = p / 2 ^ 32.
Proof. unfold hi32. apply N.shiftr_div_pow2. Qed.

Lemma unpack_decompose p : p = 2 ^ 32 * hi32 p + lo32 p.
Proof. rewrite lo32_mod, hi32_div. apply N.div_mod. lia. Qed.

Lemma unpack_inj p q : unpack p = unpack q -> p = q.
Proof.
  unfold unpack; intros H. injection H as Hh Hl.
  rewrite (unpack_decompose p), (unpack_decompose q). congruence.
Qed.

Lemma lo32_bound p : lo32 p < 2 ^ 32.
Proof. rewrite lo32_mod. apply N.mod_lt. lia. Qed.

Lemma hi32_bound p : p < 2 ^ 64 -> hi32 p < 2 ^ 32.
Proof.
  intros H. rewrite hi32_div. apply N.Div0.div_lt_upper_bound.
  change (2 ^ 32 * 2 ^ 32) with (2 ^ 64). assumption.
Qed.

Lemma hi32_pack u v : v < 2 ^ 32 -> hi32 (pack u v) = u.
Proof.
  intros Hv. unfold hi32, pack.
  rewrite N.shiftr_lor, N.shiftr_shiftl_l by lia.
  rewrite N.sub_diag, N.shiftl_0_r, (N.shiftr_div_pow2 v), N.div_small by assumption.
  apply N.lor_0_r.
Qed.

Lemma lo32_pack u v : v < 2 ^ 32 -> lo32 (pack u v) = v.
Proof.
  intros Hv. rewrite lo32_mod. unfold pack.
  rewrite <- !N.land_ones, N.land_lor_distr_l, !N.land_ones.
  rewrite N.shiftl_mul_pow2, N.Div0.mod_mul, N.mod_small by assumption.
  apply N.lor_0_l.
Qed.

Lemma pack_value u v : v < 2 ^ 32 -> pack u v = 2 ^ 32 * u + v.
Proof.
  intros Hv. rewrite (unpack_decompose (pack u v)).
  now rewrite hi32_pack, lo32_pack.
Qed.

Lemma pack_fits u v : u < 2 ^ 32 -> v < 2 ^ 32 -> pack u v mod 2 ^ 64 = pack u v.
Proof.
  intros Hu Hv. apply N.mod_small. rewrite pack_value by assumption.
  change (2 ^ 64) with (2 ^ 32 * 2 ^ 32). nia.
Qed.

Lemma unpack_pack u v :
  u < 2 ^ 32 -> v < 2 ^ 32 -> unpack (pack u v mod 2 ^ 64) = (u, v).
Proof.
  intros Hu Hv. rewrite pack_fits by assumption. unfold unpack.
  now rewrite hi32_pack, lo32_pack.
Qed.

Lemma packed_records_fit es : Forall (fun x => x < 2 ^ 64) (packed_records es).
Proof.
  unfold packed_records. rewrite Forall_forall. intros x Hx.
  apply in_flat_map in Hx. destruct Hx as (e & _ & Hx).
  destruct (fst e =? snd e); [contradiction|].
  destruct Hx as [<- | []]. apply N.mod_lt. lia.
Qed.

(** ** The canonical edge set *)

Lemma canonical_packed_well_formed lines :
  well_formed lines ->
  canonical_packed lines
  = Ok (dedup_adjacent (sort_asc (packed_records (edge_records lines)))).
Proof.
  intros H. unfold canonical_packed. rewrite pass2_well_formed by assumption.
  cbn [bind]. f_equal. apply uniquePackedEdges_dedup.
  apply sort_asc_Forall, packed_records_fit.
Qed.

Lemma canonical_packed_ok_well_formed lines uniq :
  canonical_packed lines = Ok uniq -> well_formed lines.
Proof.
  unfold canonical_packed. destruct (pass2 lines) eqn:E; [|discriminate].
  intros _. eapply pass2_ok_well_formed; eauto.
Qed.

Lemma canonical_packed_spec lines uniq :
  canonical_packed lines = Ok uniq ->
  StronglySorted N.lt uniq
  /\ (forall p, In p uniq <-> In p (packed_records (edge_records lines))).
Proof.
  intros H. pose proof (canonical_packed_ok_well_formed _ _ H) as Hwf.
  rewrite canonical_packed_well_formed in H by assumption.
  injection H as <-.
  destruct (dedup_adjacent_sorted _ (sort_asc_sorted (packed_records (edge_records lines))))
    as [Hs Hin].
  split; [assumption|]. intros p. rewrite Hin. apply sort_asc_In.
Qed.

Lemma in_packed_records es p :
  In p (packed_records es) <->
  exists a b, In (a, b) es /\ a <> b
              /\ p = pack (N.min a b) (N.max a b) mod 2 ^ 64.
Proof.
  unfold packed_records. rewrite in_flat_map. split.
  - intros ([a b] & Hin & Hp). cbn [fst snd] in Hp.
    destruct (N.eqb_spec a b); [contradiction|].
    destruct Hp as [<- | []]. now exists a, b.
  - intros (a & b & Hin & Hne & ->). exists (a, b). split; [assumption|].
    cbn [fst snd]. destruct (N.eqb_spec a b); [contradiction | now left].
Qed.

(** With identifiers below 2^32 a pair is in the canonical edge set exactly
    when it is ascending and one of its two orientations was read. *)
Lemma in_canonical_edges lines uniq a b :
  canonical_packed lines = Ok uniq ->
  ids_below (2 ^ 32) (edge_records lines) ->
  In (a, b) (map unpack uniq) <->
  a < b /\ (In (a, b) (edge_records lines) \/ In (b, a) (edge_records lines)).
Proof.
  intros H Hb. destruct (canonical_packed_spec _ _ H) as [_ Hin].
  unfold ids_below in Hb. rewrite Forall_forall in Hb.
  rewrite in_map_iff. split.
  - intros (p & Hp & Hpin). apply Hin, in_packed_records in Hpin.
    destruct Hpin as (x & y & Hxy & Hne & ->).
    destruct (Hb _ Hxy) as [Hx Hy]. cbn [fst snd] in *.
    rewrite unpack_pack in Hp by lia. injection Hp as <- <-.
    split; [lia|].
    destruct (N.le_ge_cases x y) as [Hle|Hle].
    + rewrite N.min_l, N.max_r by assumption. now left.
    + rewrite N.min_r, N.max_l by assumption. now right.
  - intros [Hlt [Hab|Hba]].
    + exists (pack a b mod 2 ^ 64). destruct (Hb _ Hab) as [Ha Hb']. cbn [fst snd] in *.
      split; [now apply unpack_pack|].
      apply Hin, in_packed_records. exists a, b.
      rewrite N.min_l, N.max_r by lia. repeat split; [assumption | lia].
    + exists (pack a b mod 2 ^ 64). destruct (Hb _ Hba) as [Hb' Ha]. cbn [fst snd] in *.
      split; [now apply unpack_pack|].
      apply Hin, in_packed_records. exists b, a.
      rewrite N.min_r, N.max_l by lia. repeat split; [assumption | lia].
Qed.

Lemma canonical_edges_NoDup lines uniq :
  canonical_packed lines = Ok uniq -> NoDup (map unpack uniq).
Proof.
  intros H. destruct (canonical_packed_spec _ _ H) as [Hs _].
  apply NoDup_map_NoDup_ForallPairs; [|now apply sorted_lt_NoDup].
  intros p q _ _. apply unpack_inj.
Qed.

(** ** Stages of a run that completes *)

Lemma processGraph_stages lines g :
  processGraph lines = Ok g ->
  exists uniq rows offs flat cur,
    let n := maxNodeId (pass1 lines) + 1 in
    canonical_packed lines = Ok uniq
    /\ n <= max_array_length
    /\ orientedAdj_stage lines = Ok rows
    /\ orient_loop (degrees_of n uniq) uniq (repeat [] (N.to_nat n)) = Ok rows
    /\ csr_loop rows 0 (new_typed_array (n + 1)) [] 0 = Ok (offs, flat, cur)
    /\ g = {| adj_offsets := ta_write 32 n cur offs;
              adj_data := map (fun x => x mod 2 ^ 32) flat;
              nodeCountForAllocation := n;
              officialNodeCount := N.of_nat (length (uniqueNodeIds (pass1 lines)));
              g_officialEdgeCount := officialEdgeCount (pass1 lines) |}.
Proof.
  unfold processGraph. intros H.
  destruct (orientedAdj_stage lines) as [rows|] eqn:Hrows; [|discriminate].
  cbn [bind] in H.
  destruct (csr_loop rows 0 _ [] 0) as [[[offs flat] cur]|] eqn:Hcsr; [|discriminate].
  cbn [bind] in H. injection H as <-.
  pose proof Hrows as Hrows'. unfold orientedAdj_stage in Hrows'.
  destruct (canonical_packed lines) as [uniq|] eqn:Huniq; [|discriminate].
  cbn [bind] in Hrows'. unfold array_from in Hrows'.
  destruct (N.ltb_spec max_array_length (maxNodeId (pass1 lines) + 1));
    [discriminate|].
  cbn [bind] in Hrows'.
  exists uniq, rows, offs, flat, cur. cbn zeta. auto 10.
Qed.

Lemma max_id_fold_le es m :
  m <= fold_left (fun m e => N.max m (N.max (fst e) (snd e))) es m.
Proof.
  revert m; induction es as [|e es IH]; intros m; simpl; [lia|].
  etransitivity; [|apply IH]. lia.
Qed.

Lemma max_id_fold_bound es m e :
  In e es ->
  fst e <= fold_left (fun m e => N.max m (N.max (fst e) (snd e))) es m
  /\ snd e <= fold_left (fun m e => N.max m (N.max (fst e) (snd e))) es m.
Proof.
  revert m; induction es as [|e' es IH]; intros m Hin; [contradiction|].
  destruct Hin as [-> | Hin]; simpl.
  - pose proof (max_id_fold_le es (N.max m (N.max (fst e) (snd e)))). lia.
  - now apply IH.
Qed.

Lemma max_id_bound es e :
  In e es -> fst e <= max_id es /\ snd e <= max_id es.
Proof. apply max_id_fold_bound. Qed.

Lemma ids_below_max_id es : ids_below (max_id es + 1) es.
Proof.
  unfold ids_below. rewrite Forall_forall. intros e He.
  pose proof (max_id_bound es e He). lia.
Qed.

Lemma ids_below_weaken b b' es : b <= b' -> ids_below b es -> ids_below b' es.
Proof.
  unfold ids_below. intros Hle H. eapply Forall_impl; [|exact H].
  simpl; intros; lia.
Qed.

(** ** Orientation *)

Lemma nth_list_set {A : Type} (i j : nat) (x d : A) (l : list A) :
  (i < length l)%nat ->
  nth j (list_set i x l) d = if Nat.eqb i j then x else nth j l d.
Proof.
  revert i j; induction l as [|h t IH]; intros [|i] [|j] Hi; simpl in *;
    try lia; auto.
  apply IH; lia.
Qed.

Lemma push_at_spec rows i y rows' :
  push_at rows i y = Ok rows' ->
  length rows' = length rows
  /\ (N.to_nat i < length rows)%nat
  /\ forall x, nth (N.to_nat x) rows' []
               = nth (N.to_nat x) rows [] ++ (if i =? x then [y] else []).
Proof.
  unfold push_at, js_push. intros H.
  destruct (nth_error rows (N.to_nat i)) as [r|] eqn:Hr; [|discriminate].
  destruct (N.of_nat (length r) =? max_array_length); [discriminate|].
  cbn [bind] in H. injection H as <-.
  assert (Hi : (N.to_nat i < length rows)%nat)
    by (apply nth_error_Some; congruence).
  split; [apply list_set_length|]. split; [assumption|].
  intros x. rewrite nth_list_set by assumption.
  destruct (N.eqb_spec i x) as [->|Hne].
  - rewrite Nat.eqb_refl. now rewrite (nth_error_nth _ _ _ Hr).
  - destruct (Nat.eqb_spec (N.to_nat i) (N.to_nat x)) as [E|_]; [lia|].
    now rewrite app_nil_r.
Qed.

Lemma targets_cons degrees x packed rest :
  targets degrees x (packed :: rest) =
  (if oriented_forward degrees (hi32 packed) (lo32 packed)
   then (if hi32 packed =? x then [lo32 packed] else [])
   else (if lo32 packed =? x then [hi32 packed] else []))
  ++ targets degrees x rest.
Proof. reflexivity. Qed.

Lemma orient_loop_spec degrees uniq : forall rows0 rows,
  orient_loop degrees uniq rows0 = Ok rows ->
  length rows = length rows0
  /\ forall x, nth (N.to_nat x) rows []
               = nth (N.to_nat x) rows0 [] ++ targets degrees x uniq.
Proof.
  induction uniq as [|p rest IH]; intros rows0 rows H.
  - injection H as <-. split; [reflexivity|].
    intros x. now rewrite app_nil_r.
  - cbn [orient_loop] in H.
    destruct (if oriented_forward degrees (hi32 p) (lo32 p)
              then push_at rows0 (hi32 p) (lo32 p)
              else push_at rows0 (lo32 p) (hi32 p)) as [rows1|] eqn:Hpush;
      [|discriminate].
    cbn [bind] in H. destruct (IH _ _ H) as (Hlen & Hnth).
    assert (Hstep : length rows1 = length rows0
              /\ forall x, nth (N.to_nat x) rows1 []
                 = nth (N.to_nat x) rows0 [] ++ targets degrees x [p]).
    { unfold targets; cbn [flat_map]. 
      destruct (oriented_forward degrees (hi32 p) (lo32 p));
        apply push_at_spec in Hpush; destruct Hpush as (L & _ & Hx);
        split; auto; intros x; rewrite Hx, app_nil_r; reflexivity. }
    destruct Hstep as [Hlen1 Hnth1].
    split; [congruence|].
    intros x. rewrite Hnth, Hnth1, targets_cons, <- app_assoc.
    unfold targets at 1; cbn [flat_map]. now rewrite app_nil_r.
Qed.

(** ** CSR construction *)

Lemma js_push_spec arr x arr' :
  js_push arr x = Ok arr' ->
  arr' = arr ++ [x] /\ N.of_nat (length arr) <> max_array_length.
Proof.
  unfold js_push. destruct (N.eqb_spec (N.of_nat (length arr)) max_array_length);
    [discriminate|].
  intros H; injection H as <-. auto.
Qed.

Lemma push_all_spec row : forall flat flat',
  push_all flat row = Ok flat' ->
  N.of_nat (length flat) <= max_array_length ->
  flat' = flat ++ row /\ N.of_nat (length flat') <= max_array_length.
Proof.
  induction row as [|x r IH]; intros flat flat' H Hlen.
  - injection H as <-. now rewrite app_nil_r.
  - cbn [push_all] in H.
    destruct (js_push flat x) as [flat1|] eqn:Hp; [|discriminate].
    cbn [bind] in H. apply js_push_spec in Hp. destruct Hp as [-> Hne].
    apply IH in H.
    + destruct H as [-> Hb]. split; [now rewrite <- app_assoc | assumption].
    + rewrite length_app. simpl. lia.
Qed.

Lemma prefix_sums_length start rows :
  length (prefix_sums start rows) = S (length rows).
Proof.
  revert start; induction rows as [|r rest IH]; intros start; simpl; auto.
Qed.

Lemma prefix_sums_sorted_rows start rows :
  prefix_sums start (map sort_asc rows) = prefix_sums start rows.
Proof.
  revert start; induction rows as [|r rest IH]; intros start; simpl; [reflexivity|].
  now rewrite sort_asc_length, IH.
Qed.

Lemma prefix_sums_last start rows :
  nth (length rows) (prefix_sums start rows) 0
  = start + N.of_nat (length (concat rows)).
Proof.
  revert start; induction rows as [|r rest IH]; intros start; simpl; [lia|].
  rewrite IH, length_app. lia.
Qed.

Lemma prefix_sums_step start rows k :
  (k < length rows)%nat ->
  nth (S k) (prefix_sums start rows) 0
  = nth k (prefix_sums start rows) 0 + N.of_nat (length (nth k rows [])).
Proof.
  revert start k; induction rows as [|r rest IH]; intros start k Hk;
    simpl in Hk; [lia|].
  destruct k as [|k].
  - simpl. destruct rest; reflexivity.
  - change (nth (S (S k)) (prefix_sums start (r :: rest)) 0)
      with (nth (S k) (prefix_sums (start + N.of_nat (length r)) rest) 0).
    rewrite IH by lia. reflexivity.
Qed.

Lemma prefix_sums_bounds start rows k :
  (k <= length rows)%nat ->
  start <= nth k (prefix_sums start rows) 0
  /\ nth k (prefix_sums start rows) 0 <= start + N.of_nat (length (concat rows)).
Proof.
  revert start k; induction rows as [|r rest IH]; intros start k Hk;
    simpl in Hk.
  - destruct k; [simpl; lia | lia].
  - destruct k as [|k]; cbn [prefix_sums nth concat]; rewrite length_app.
    + lia.
    + destruct (IH (start + N.of_nat (length r)) k) as [H1 H2]; lia.
Qed.

(** The slice of the flat array between two consecutive offsets is the
    row. *)
Lemma slice_prefix_sums rows : forall pre k,
  (k < length rows)%nat ->
  slice (pre ++ concat rows)
        (nth k (prefix_sums (N.of_nat (length pre)) rows) 0)
        (nth (S k) (prefix_sums (N.of_nat (length pre)) rows) 0)
  = nth k rows [].
Proof.
  induction rows as [|r rest IH]; intros pre k Hk; simpl in Hk; [lia|].
  destruct k as [|k].
  - cbn [prefix_sums nth]. unfold slice.
    replace (nth 0 (prefix_sums (N.of_nat (length pre) + N.of_nat (length r)) rest) 0)
      with (N.of_nat (length pre) + N.of_nat (length r))
      by (destruct rest; reflexivity).
    replace (N.to_nat (N.of_nat (length pre) + N.of_nat (length r)
                       - N.of_nat (length pre))) with (length r) by lia.
    rewrite Nat2N.id, skipn_app, skipn_all, Nat.sub_diag. cbn [skipn app concat].
    rewrite firstn_app, firstn_all, Nat.sub_diag. cbn [firstn]. apply app_nil_r.
  - change (nth (S k) (prefix_sums (N.of_nat (length pre)) (r :: rest)) 0)
      with (nth k (prefix_sums (N.of_nat (length pre) + N.of_nat (length r)) rest) 0).
    change (nth (S (S k)) (prefix_sums (N.of_nat (length pre)) (r :: rest)) 0)
      with (nth (S k) (prefix_sums (N.of_nat (length pre) + N.of_nat (length r)) rest) 0).
    cbn [concat nth]. rewrite app_assoc.
    replace (N.of_nat (length pre) + N.of_nat (length r))
      with (N.of_nat (length (pre ++ r))) by (rewrite length_app; lia).
    apply IH. lia.
Qed.

Lemma nth_ta_write bits i x arr j :
  (N.to_nat i < length arr)%nat ->
  nth j (ta_write bits i x arr) 0
  = if Nat.eqb (N.to_nat i) j then x mod 2 ^ bits else nth j arr 0.
Proof. intros H. unfold ta_write. now apply nth_list_set. Qed.

Lemma csr_loop_spec rows : forall i offs flat cur offs' flat' cur',
  csr_loop rows i offs flat cur = Ok (offs', flat', cur') ->
  N.of_nat (length flat) <= max_array_length ->
  (N.to_nat i + length rows <= length offs)%nat ->
  flat' = flat ++ concat (map sort_asc rows)
  /\ N.of_nat (length flat') <= max_array_length
  /\ cur' = cur + N.of_nat (length (concat rows))
  /\ length offs' = length offs
  /\ (forall j, (j < N.to_nat i \/ N.to_nat i + length rows <= j)%nat ->
                nth j offs' 0 = nth j offs 0)
  /\ (forall k, (k < length rows)%nat ->
                nth (N.to_nat i + k) offs' 0
                = nth k (prefix_sums cur rows) 0 mod 2 ^ 32).
Proof.
  induction rows as [|r rest IH]; intros i offs flat cur offs' flat' cur' H Hflat Hlen.
  - injection H as <- <- <-. cbn [map concat length].
    rewrite app_nil_r. repeat split; auto; try lia.
  - cbn [csr_loop] in H.
    destruct (push_all flat (sort_asc r)) as [flat1|] eqn:Hp; [|discriminate].
    cbn [bind] in H. apply push_all_spec in Hp; [|assumption].
    destruct Hp as [-> Hflat1]. cbn [length] in Hlen.
    apply IH in H; [|assumption | rewrite ta_write_length; lia].
    destruct H as (-> & Hb & -> & Hl & Hout & Hin).
    rewrite ta_write_length in Hl.
    split; [cbn [map concat]; now rewrite <- app_assoc|].
    split; [assumption|].
    split; [cbn [concat]; rewrite length_app, sort_asc_length; lia|].
    split; [assumption|].
    split.
    + intros j Hj. cbn [length] in Hj. rewrite Hout by lia.
      rewrite nth_ta_write by lia.
      destruct (Nat.eqb_spec (N.to_nat i) j); [lia | reflexivity].
    + intros k Hk. destruct k as [|k].
      * rewrite Nat.add_0_r, Hout by lia.
        rewrite nth_ta_write by lia. rewrite Nat.eqb_refl. reflexivity.
      * cbn [length] in Hk.
        replace (N.to_nat i + S k)%nat with (N.to_nat (i + 1) + k)%nat by lia.
        rewrite Hin by lia. rewrite sort_asc_length. reflexivity.
Qed.

(** ** Shape of the compact representation *)

Lemma in_targets degrees x uniq y :
  In y (targets degrees x uniq) <->
  exists p, In p uniq
    /\ ((oriented_forward degrees (hi32 p) (lo32 p) = true
         /\ hi32 p = x /\ lo32 p = y)
        \/ (oriented_forward degrees (hi32 p) (lo32 p) = false
            /\ lo32 p = x /\ hi32 p = y)).
Proof.
  unfold targets. rewrite in_flat_map. split.
  - intros (p & Hp & Hy). exists p. split; [assumption|].
    destruct (oriented_forward degrees (hi32 p) (lo32 p)).
    + destruct (N.eqb_spec (hi32 p) x); [|contradiction].
      destruct Hy as [<-|[]]. auto.
    + destruct (N.eqb_spec (lo32 p) x); [|contradiction].
      destruct Hy as [<-|[]]. auto.
  - intros (p & Hp & [(Hf & <- & <-) | (Hf & <- & <-)]); exists p;
      (split; [assumption|]); rewrite Hf, N.eqb_refl; now left.
Qed.

Lemma canonical_packed_fit lines uniq :
  canonical_packed lines = Ok uniq -> Forall (fun p => p < 2 ^ 64) uniq.
Proof.
  intros H. destruct (canonical_packed_spec _ _ H) as [_ Hin].
  rewrite Forall_forall. intros p Hp. apply Hin in Hp.
  pose proof (packed_records_fit (edge_records lines)) as Hall.
  rewrite Forall_forall in Hall. auto.
Qed.

Lemma targets_fit degrees x uniq :
  Forall (fun p => p < 2 ^ 64) uniq ->
  Forall (fun y => y < 2 ^ 32) (targets degrees x uniq).
Proof.
  intros Hall. rewrite Forall_forall in *. intros y Hy.
  apply in_targets in Hy. destruct Hy as (p & Hp & [(_ & _ & <-) | (_ & _ & <-)]).
  - apply lo32_bound.
  - apply hi32_bound. auto.
Qed.

Lemma nth_repeat_nil {A : Type} (k n : nat) :
  nth k (repeat (@nil A) n) [] = [].
Proof.
  revert k; induction n as [|n IH]; intros [|k]; simpl; auto.
Qed.

Lemma map_id_on {A : Type} (f : A -> A) (l : list A) :
  Forall (fun x => f x = x) l -> map f l = l.
Proof. induction 1; simpl; congruence. Qed.

Lemma graph_shape lines g :
  processGraph lines = Ok g ->
  exists uniq rows,
    let n := maxNodeId (pass1 lines) + 1 in
    canonical_packed lines = Ok uniq
    /\ orientedAdj_stage lines = Ok rows
    /\ n <= max_array_length
    /\ length rows = N.to_nat n
    /\ (forall x, nth (N.to_nat x) rows [] = targets (degrees_of n uniq) x uniq)
    /\ nodeCountForAllocation g = n
    /\ adj_offsets g = prefix_sums 0 rows
    /\ adj_data g = concat (map sort_asc rows)
    /\ N.of_nat (length (adj_data g)) <= max_array_length.
Proof.
  intros H. apply processGraph_stages in H.
  destruct H as (uniq & rows & offs & flat & cur & Hu & Hn & Hstage & Hor & Hcsr & ->).
  exists uniq, rows. cbn zeta.
  set (n := maxNodeId (pass1 lines) + 1) in *.
  apply orient_loop_spec in Hor. destruct Hor as [Hlen Hrows].
  rewrite repeat_length in Hlen.
  assert (Hrows' : forall x, nth (N.to_nat x) rows []
                             = targets (degrees_of n uniq) x uniq).
  { intros x. rewrite Hrows. now rewrite nth_repeat_nil. }
  apply csr_loop_spec in Hcsr;
    [| simpl; unfold max_array_length; lia
     | unfold new_typed_array; rewrite repeat_length; lia].
  destruct Hcsr as (Hflat & Hb & Hcur & Hl & Hout & Hin).
  unfold new_typed_array in Hl, Hout, Hin. rewrite repeat_length in Hl.
  cbn [app] in Hflat. subst flat.
  assert (Hfit : Forall (fun y => y < 2 ^ 32) (concat (map sort_asc rows))).
  { rewrite Forall_forall. intros y Hy. apply in_concat in Hy.
    destruct Hy as (r & Hr & Hy). apply in_map_iff in Hr.
    destruct Hr as (r0 & <- & Hr0). apply (proj1 (sort_asc_In _ _)) in Hy.
    destruct (In_nth _ _ [] Hr0) as (k & Hk & Hnth).
    specialize (Hrows' (N.of_nat k)). rewrite Nat2N.id, Hnth in Hrows'.
    pose proof (targets_fit (degrees_of n uniq) (N.of_nat k) uniq
                  (canonical_packed_fit _ _ Hu)) as Hall.
    rewrite <- Hrows' in Hall. rewrite Forall_forall in Hall. auto. }
  assert (Hdata : map (fun x => x mod 2 ^ 32) (concat (map sort_asc rows))
                  = concat (map sort_asc rows)).
  { apply map_id_on. eapply Forall_impl; [|exact Hfit].
    intros y Hy. now apply N.mod_small. }
  cbn [adj_offsets adj_data nodeCountForAllocation]. rewrite Hdata.
  repeat (split; [assumption || reflexivity|]).
  split; [|split; [reflexivity | assumption]].
  (* the offsets *)
  assert (Htotal : forall k, (k <= length rows)%nat ->
                     nth k (prefix_sums 0 rows) 0 < 2 ^ 32).
  { intros k Hk. pose proof (prefix_sums_bounds 0 rows k Hk) as [_ Hle].
    assert (length (concat rows) = length (concat (map sort_asc rows))) as E.
    { clear. induction rows as [|r rs IH]; simpl; [reflexivity|].
      now rewrite !length_app, sort_asc_length, IH. }
    rewrite E in Hle. unfold max_array_length in Hb. lia. }
  apply (nth_ext _ _ 0 0).
  - rewrite ta_write_length, Hl, prefix_sums_length. lia.
  - rewrite ta_write_length, Hl. intros j Hj.
    rewrite nth_ta_write by lia.
    destruct (Nat.eqb_spec (N.to_nat n) j) as [<-|Hne].
    + rewrite Hcur, <- Hlen. rewrite N.add_0_l.
      pose proof (prefix_sums_last 0 rows) as E. rewrite N.add_0_l in E.
      rewrite <- E. apply N.mod_small, Htotal. lia.
    + specialize (Hin j). cbn [N.to_nat Nat.add] in Hin.
      rewrite Hin by lia. apply N.mod_small, Htotal. lia.
Qed.

(** ** Intersection of two ascending rows *)

Lemma mem_In x l : mem x l = true <-> In x l.
Proof.
  unfold mem. rewrite existsb_exists. split.
  - intros (y & Hy & E). apply N.eqb_eq in E. now subst.
  - intros H. exists x. split; [assumption | apply N.eqb_refl].
Qed.

Lemma mem_false x l : mem x l = false <-> ~ In x l.
Proof.
  rewrite <- mem_In. destruct (mem x l); split; congruence.
Qed.

Lemma inter_size_nil_l l2 : inter_size [] l2 = 0.
Proof. reflexivity. Qed.

Lemma inter_size_nil_r l1 : inter_size l1 [] = 0.
Proof.
  unfold inter_size. induction l1 as [|x r IH]; simpl; auto.
Qed.

Lemma inter_size_le l1 l2 : inter_size l1 l2 <= N.of_nat (length l1).
Proof.
  unfold inter_size. pose proof (filter_length_le (fun x => mem x l2) l1). lia.
Qed.

Lemma sorted_lt_head x l y :
  StronglySorted N.lt (x :: l) -> In y l -> x < y.
Proof.
  intros H Hy. inversion H as [|? ? _ Hall]; subst.
  rewrite Forall_forall in Hall. auto.
Qed.

Lemma sorted_lt_tail x l : StronglySorted N.lt (x :: l) -> StronglySorted N.lt l.
Proof. now inversion 1. Qed.

Lemma inter_size_eq x l1 l2 :
  StronglySorted N.lt (x :: l1) -> StronglySorted N.lt (x :: l2) ->
  inter_size (x :: l1) (x :: l2) = 1 + inter_size l1 l2.
Proof.
  intros H1 H2. unfold inter_size. cbn [filter mem existsb].
  rewrite N.eqb_refl. cbn [orb length].
  rewrite (filter_ext_in (fun z => (z =? x) || existsb (N.eqb z) l2)
             (fun z => mem z l2)).
  - lia.
  - intros z Hz. pose proof (sorted_lt_head _ _ _ H1 Hz).
    destruct (N.eqb_spec z x); [lia | reflexivity].
Qed.

Lemma inter_size_lt x y l1 l2 :
  x < y -> StronglySorted N.lt (y :: l2) ->
  inter_size (x :: l1) (y :: l2) = inter_size l1 (y :: l2).
Proof.
  intros Hxy H2. unfold inter_size. cbn [filter].
  replace (mem x (y :: l2)) with false; [reflexivity|].
  symmetry. apply mem_false. intros [E | Hin]; [lia|].
  pose proof (sorted_lt_head _ _ _ H2 Hin). lia.
Qed.

Lemma inter_size_gt x y l1 l2 :
  y < x -> StronglySorted N.lt (x :: l1) ->
  inter_size (x :: l1) (y :: l2) = inter_size (x :: l1) l2.
Proof.
  intros Hxy H1. unfold inter_size. f_equal. f_equal.
  apply filter_ext_in. intros z Hz.
  assert (x <= z).
  { destruct Hz as [<- | Hz]; [lia|].
    pose proof (sorted_lt_head _ _ _ H1 Hz). lia. }
  cbn [mem existsb]. destruct (N.eqb_spec z y); [lia | reflexivity].
Qed.

Lemma set_inter_size_NoDup l1 l2 :
  NoDup l1 -> set_inter_size l1 l2 = inter_size l1 l2.
Proof.
  intros H. unfold set_inter_size, inter_size.
  rewrite nodup_fixed_point; [reflexivity|].
  now apply NoDup_filter.
Qed.

(** ** Slices *)

Lemma slice_empty l s e : e <= s -> slice l s e = [].
Proof.
  intros H. unfold slice. replace (N.to_nat (e - s)) with O by lia. reflexivity.
Qed.

Lemma slice_cons l s e :
  s < e -> e <= N.of_nat (length l) ->
  slice l s e = load l s :: slice l (s + 1) e.
Proof.
  intros Hs He. unfold slice, load.
  replace (N.to_nat (e - s)) with (S (N.to_nat (e - (s + 1)))) by lia.
  replace (N.to_nat (s + 1)) with (S (N.to_nat s)) by lia.
  assert (Hlt : (N.to_nat s < length l)%nat) by lia.
  revert Hlt. generalize (N.to_nat s) as k. generalize (N.to_nat (e - (s + 1))) as m.
  clear. intros m k. revert l. induction k as [|k IH]; intros [|h t] Hlt;
    simpl in *; try lia; [reflexivity|].
  apply IH. lia.
Qed.

Lemma slice_length l s e :
  e <= N.of_nat (length l) -> N.of_nat (length (slice l s e)) = e - s.
Proof.
  intros He. unfold slice. rewrite length_firstn, length_skipn. lia.
Qed.

(** ** [count_intersection] *)

Lemma ci_loop_spec adj u_end v_end :
  u_end <= N.of_nat (length adj) -> v_end <= N.of_nat (length adj) ->
  u_end < 2 ^ 32 -> v_end < 2 ^ 32 ->
  forall fuel i j count,
    StronglySorted N.lt (slice adj i u_end) ->
    StronglySorted N.lt (slice adj j v_end) ->
    (N.to_nat ((u_end - i) + (v_end - j)) <= fuel)%nat ->
    count + (u_end - i) < 2 ^ 32 ->
    ci_loop fuel adj u_end v_end i j count
    = Some (count + inter_size (slice adj i u_end) (slice adj j v_end)).
Proof.
  intros Hue Hve Hu32 Hv32.
  induction fuel as [|fuel IH]; intros i j count Hsi Hsj Hfuel Hcount.
  - cbn [ci_loop].
    destruct (N.ltb_spec i u_end), (N.ltb_spec j v_end); cbn [andb]; try lia.
    rewrite (slice_empty adj i) by assumption. cbn. f_equal; lia.
  - cbn [ci_loop].
    destruct (N.ltb_spec i u_end) as [Hi|Hi]; cbn [andb].
    2:{ rewrite (slice_empty adj i) by assumption. cbn. f_equal; lia. }
    destruct (N.ltb_spec j v_end) as [Hj|Hj].
    2:{ rewrite (slice_empty adj j) by assumption. rewrite inter_size_nil_r.
        f_equal; lia. }
    rewrite (slice_cons adj i) in Hsi |- * by assumption.
    rewrite (slice_cons adj j) in Hsj |- * by assumption.
    unfold u32. rewrite ?(N.mod_small (i + 1)), ?(N.mod_small (j + 1)) by lia.
    destruct (N.eqb_spec (load adj i) (load adj j)) as [E|Hne].
    + rewrite (N.mod_small (count + 1)) by lia.
      rewrite IH; try (eapply sorted_lt_tail; eassumption); try lia.
      rewrite E in *. rewrite inter_size_eq by assumption. f_equal; lia.
    + destruct (N.ltb_spec (load adj i) (load adj j)) as [Hlt|Hge].
      * rewrite IH; try (eapply sorted_lt_tail; eassumption);
          try (rewrite (slice_cons adj j) by assumption; assumption); try lia.
        rewrite (slice_cons adj j) by assumption.
        now rewrite inter_size_lt.
      * rewrite IH; try (eapply sorted_lt_tail; eassumption);
          try (rewrite (slice_cons adj i) by assumption; assumption); try lia.
        rewrite (slice_cons adj i) by assumption.
        rewrite inter_size_gt; [reflexivity | lia | assumption].
Qed.

Lemma count_intersection_spec adj u_start u_end v_start v_end :
  u_end <= N.of_nat (length adj) -> v_end <= N.of_nat (length adj) ->
  u_end < 2 ^ 32 -> v_end < 2 ^ 32 ->
  StronglySorted N.lt (slice adj u_start u_end) ->
  StronglySorted N.lt (slice adj v_start v_end) ->
  count_intersection adj u_start u_end v_start v_end
  = Some (inter_size (slice adj u_start u_end) (slice adj v_start v_end)).
Proof.
  intros Hue Hve Hu Hv Hsu Hsv. unfold count_intersection.
  rewrite (ci_loop_spec adj u_end v_end Hue Hve Hu Hv); auto; lia.
Qed.

(** ** Sums *)

Lemma sumN_cons {A : Type} (f : A -> N) x l : sumN f (x :: l) = f x + sumN f l.
Proof. reflexivity. Qed.

Lemma sumN_app {A : Type} (f : A -> N) l1 l2 :
  sumN f (l1 ++ l2) = sumN f l1 + sumN f l2.
Proof.
  induction l1 as [|x l1 IH]; simpl; [reflexivity|]. rewrite IH. lia.
Qed.

Lemma sumN_ext {A : Type} (f g : A -> N) l :
  (forall x, In x l -> f x = g x) -> sumN f l = sumN g l.
Proof.
  induction l as [|x l IH]; intros H; simpl; [reflexivity|].
  rewrite H by now left. rewrite IH; [reflexivity|].
  intros y Hy. apply H. now right.
Qed.

Lemma sumN_zero {A : Type} (f : A -> N) l :
  (forall x, In x l -> f x = 0) -> sumN f l = 0.
Proof.
  induction l as [|x l IH]; intros H; simpl; [reflexivity|].
  rewrite H by now left. rewrite IH; [reflexivity|].
  intros y Hy. apply H. now right.
Qed.

Lemma sumN_add {A : Type} (f g : A -> N) l :
  sumN (fun x => f x + g x) l = sumN f l + sumN g l.
Proof.
  induction l as [|x l IH]; simpl; [reflexivity|]. rewrite IH. lia.
Qed.

Lemma sumN_exchange {A B : Type} (f : A -> B -> N) la lb :
  sumN (fun a => sumN (fun b => f a b) lb) la
  = sumN (fun b => sumN (fun a => f a b) la) lb.
Proof.
  induction la as [|a la IH]; simpl.
  - symmetry. now apply sumN_zero.
  - rewrite IH. now rewrite <- sumN_add.
Qed.

Lemma sumN_perm {A : Type} (f : A -> N) l l' :
  Permutation l l' -> sumN f l = sumN f l'.
Proof.
  induction 1; simpl; lia.
Qed.

(** ** One invocation *)

Section Kernel.

Variables (offsets adj : list N) (n : N).
Hypothesis Hok : csr_ok offsets adj n.

Lemma csr_node_count : node_count offsets = n.
Proof.
  destruct Hok as [Hlen Hsmall _ _ _ _ _ _].
  unfold node_count, arrayLength, u32. rewrite Hlen.
  rewrite N.Div0.add_mod_idemp_l.
  replace (n + 1 + (2 ^ 32 - 1)) with (n + 1 * 2 ^ 32) by lia.
  rewrite N.Div0.mod_add. apply N.mod_small. lia.
Qed.

Lemma csr_offset_le_last i :
  i <= n -> load offsets i <= N.of_nat (length adj).
Proof.
  destruct Hok as [_ _ _ Hmono Hlast _ _ _].
  intros Hi. rewrite <- Hlast.
  remember (N.to_nat (n - i)) as d eqn:Hd.
  revert i Hi Hd. induction d as [|d IH]; intros i Hi Hd.
  - replace i with n by lia. lia.
  - etransitivity; [apply Hmono; lia|]. apply IH; lia.
Qed.

Lemma csr_load_id i :
  i < N.of_nat (length adj) -> load adj i < n.
Proof.
  destruct Hok as [_ _ _ _ _ _ _ Hids].
  intros Hi. rewrite Forall_forall in Hids. apply Hids.
  unfold load. apply nth_In. lia.
Qed.

Lemma main_loop_spec u :
  u < n ->
  forall fuel i triangle_count,
    load offsets u <= i ->
    (N.to_nat (load offsets (u + 1) - i) <= fuel)%nat ->
    triangle_count < 2 ^ 32 ->
    main_loop fuel offsets adj (load offsets u) (load offsets (u + 1)) i
      triangle_count
    = Some (u32 (triangle_count
                 + sumN (fun v => inter_size (row_of offsets adj u)
                                             (row_of offsets adj v))
                        (slice adj i (load offsets (u + 1))))).
Proof.
  intros Hu.
  pose proof (csr_offset_le_last (u + 1) ltac:(lia)) as Hue.
  pose proof (csr_fits _ _ _ Hok) as Hfits.
  pose proof (csr_small _ _ _ Hok) as Hsmall.
  induction fuel as [|fuel IH]; intros i tc Hi Hfuel Htc; cbn [main_loop].
  - destruct (N.ltb_spec i (load offsets (u + 1))); [lia|].
    rewrite slice_empty by assumption. cbn [sumN fold_right].
    unfold u32. rewrite N.add_0_r, N.mod_small by assumption. reflexivity.
  - destruct (N.ltb_spec i (load offsets (u + 1))) as [Hlt|Hge].
    2:{ rewrite slice_empty by assumption. cbn [sumN fold_right].
        unfold u32. rewrite N.add_0_r, N.mod_small by assumption. reflexivity. }
    assert (Hv : load adj i < n) by (apply csr_load_id; lia).
    set (v := load adj i) in *.
    assert (E1 : u32 (v + 1) = v + 1) by (apply N.mod_small; lia).
    assert (E2 : u32 (i + 1) = i + 1) by (apply N.mod_small; lia).
    rewrite E1, E2.
    rewrite count_intersection_spec;
      [ | assumption | apply csr_offset_le_last; lia | lia
        | pose proof (csr_offset_le_last (v + 1) ltac:(lia)); lia
        | apply (csr_sorted _ _ _ Hok u Hu)
        | apply (csr_sorted _ _ _ Hok v Hv) ].
    cbn [obind]. fold (row_of offsets adj u). fold (row_of offsets adj v).
    set (c := inter_size (row_of offsets adj u) (row_of offsets adj v)).
    rewrite IH; [| lia | lia | ].
    + rewrite (slice_cons adj i) by lia. rewrite sumN_cons. fold v. fold c.
      f_equal. unfold atomicAdd, u32.
      destruct (N.ltb_spec 0 c).
      * rewrite N.Div0.add_mod_idemp_l. f_equal; lia.
      * replace c with 0 by lia. now rewrite N.add_0_l.
    + destruct (0 <? c); [unfold atomicAdd, u32; apply N.mod_lt; lia | assumption].
Qed.

Lemma main_spec u triangle_count :
  u < n -> triangle_count < 2 ^ 32 ->
  main offsets adj u triangle_count
  = Some (u32 (triangle_count + contribution offsets adj u)).
Proof.
  intros Hu Htc. unfold main. rewrite csr_node_count.
  destruct (N.leb_spec n u); [lia|].
  assert (E : u32 (u + 1) = u + 1).
  { apply N.mod_small. pose proof (csr_small _ _ _ Hok). lia. }
  rewrite E. rewrite main_loop_spec; auto; try lia.
Qed.

Lemma main_out_of_range u triangle_count :
  n <= u -> main offsets adj u triangle_count = Some triangle_count.
Proof.
  intros Hu. unfold main. rewrite csr_node_count.
  destruct (N.leb_spec n u); [reflexivity | lia].
Qed.

Lemma run_invocations_spec ids : forall triangle_count,
  triangle_count < 2 ^ 32 ->
  run_invocations offsets adj ids triangle_count
  = Some (u32 (triangle_count
               + sumN (fun u => if u <? n then contribution offsets adj u else 0)
                      ids)).
Proof.
  unfold run_invocations.
  induction ids as [|u ids IH]; intros tc Htc.
  - cbn. unfold u32. rewrite N.add_0_r, N.mod_small by assumption. reflexivity.
  - cbn [fold_left obind]. rewrite sumN_cons.
    destruct (N.ltb_spec u n) as [Hu|Hu].
    + rewrite main_spec by assumption. rewrite IH by (apply N.mod_lt; lia).
      f_equal. unfold u32. rewrite N.Div0.add_mod_idemp_l. f_equal; lia.
    + rewrite main_out_of_range by assumption. rewrite IH by assumption.
      reflexivity.
Qed.

End Kernel.

(** ** The rank order *)

Lemma rank_lt_irrefl deg u : rank_lt deg u u = false.
Proof.
  unfold rank_lt. rewrite !N.ltb_irrefl, andb_false_r. reflexivity.
Qed.

Lemma rank_lt_total deg u v : u <> v -> rank_lt deg u v = negb (rank_lt deg v u).
Proof.
  intros Hne. unfold rank_lt.
  destruct (N.ltb_spec (deg u) (deg v)), (N.ltb_spec (deg v) (deg u)),
    (N.eqb_spec (deg u) (deg v)), (N.eqb_spec (deg v) (deg u)),
    (N.ltb_spec u v), (N.ltb_spec v u); simpl; try reflexivity; lia.
Qed.

Lemma rank_lt_trans deg u v w :
  rank_lt deg u v = true -> rank_lt deg v w = true -> rank_lt deg u w = true.
Proof.
  unfold rank_lt.
  destruct (N.ltb_spec (deg u) (deg v)), (N.ltb_spec (deg v) (deg w)),
    (N.ltb_spec (deg u) (deg w)), (N.eqb_spec (deg u) (deg v)),
    (N.eqb_spec (deg v) (deg w)), (N.eqb_spec (deg u) (deg w)),
    (N.ltb_spec u v), (N.ltb_spec v w), (N.ltb_spec u w);
    simpl; intros; try reflexivity; try discriminate; lia.
Qed.

Lemma ta_incr_length i arr : length (ta_incr i arr) = length arr.
Proof.
  unfold ta_incr. destruct (ta_read arr i); [apply ta_write_length | reflexivity].
Qed.

Lemma degrees_of_length n uniq : length (degrees_of n uniq) = N.to_nat n.
Proof.
  unfold degrees_of, new_typed_array.
  rewrite <- (repeat_length 0 (N.to_nat n)) at 2.
  generalize (repeat 0 (N.to_nat n)) as arr.
  induction uniq as [|p r IH]; intros arr; cbn [fold_left]; [reflexivity|].
  rewrite IH. now rewrite !ta_incr_length.
Qed.

Lemma ta_read_load arr i :
  (N.to_nat i < length arr)%nat -> ta_read arr i = Some (load arr i).
Proof.
  intros H. unfold ta_read, load. now apply nth_error_nth'.
Qed.

(** Inside the degree array the test of the orientation loop is the rank
    comparison. *)
Lemma oriented_forward_rank degrees u v :
  (N.to_nat u < length degrees)%nat -> (N.to_nat v < length degrees)%nat ->
  oriented_forward degrees u v = rank_lt (load degrees) u v.
Proof.
  intros Hu Hv. unfold oriented_forward.
  now rewrite !ta_read_load by assumption.
Qed.

(** ** Rows in terms of the input graph *)

Lemma adjacent_spec es a b :
  adjacent es a b = true <-> a <> b /\ (In (a, b) es \/ In (b, a) es).
Proof.
  unfold adjacent. rewrite andb_true_iff, negb_true_iff, N.eqb_neq, existsb_exists.
  split; intros [Hne H]; (split; [assumption|]).
  - destruct H as ([x y] & Hin & H). cbn [fst snd] in H.
    apply orb_true_iff in H. rewrite !andb_true_iff, !N.eqb_eq in H.
    destruct H as [[-> ->] | [-> ->]]; auto.
  - destruct H as [H|H]; [exists (a, b) | exists (b, a)];
      (split; [assumption|]); cbn [fst snd]; rewrite !N.eqb_refl;
      [reflexivity | apply orb_true_r].
Qed.

Lemma adjacent_sym es a b : adjacent es a b = adjacent es b a.
Proof.
  apply eq_true_iff_eq. rewrite !adjacent_spec. intuition.
Qed.

Lemma adjacent_irrefl es a : adjacent es a a = false.
Proof. unfold adjacent. now rewrite N.eqb_refl. Qed.

Lemma adjacent_bound es a b :
  adjacent es a b = true -> a <= max_id es /\ b <= max_id es.
Proof.
  rewrite adjacent_spec. intros [_ [H|H]];
    apply max_id_bound in H; cbn [fst snd] in H; lia.
Qed.

Section Rows.

Variables (lines : list string) (uniq : list N) (degrees : list N).
Hypothesis Huniq : canonical_packed lines = Ok uniq.
Hypothesis Hsmall : max_id (edge_records lines) + 1 <= 2 ^ 32.
Hypothesis Hdeg : length degrees = N.to_nat (max_id (edge_records lines) + 1).

Lemma uniq_edges_small : ids_below (2 ^ 32) (edge_records lines).
Proof.
  eapply ids_below_weaken; [exact Hsmall | apply ids_below_max_id].
Qed.

Lemma uniq_edge p :
  In p uniq ->
  hi32 p < lo32 p /\ lo32 p <= max_id (edge_records lines)
  /\ adjacent (edge_records lines) (hi32 p) (lo32 p) = true.
Proof using Huniq Hsmall.
  intros Hp. clear Hdeg.
  assert (In (hi32 p, lo32 p) (map unpack uniq)) as H
    by (apply in_map_iff; exists p; auto).
  apply (in_canonical_edges _ _ _ _ Huniq uniq_edges_small) in H.
  destruct H as [Hlt Hin]. split; [assumption|].
  assert (Hadj : adjacent (edge_records lines) (hi32 p) (lo32 p) = true)
    by (apply adjacent_spec; split; [lia | assumption]).
  split; [|assumption]. exact (proj2 (adjacent_bound _ _ _ Hadj)).
Qed.

Lemma in_targets_graph x y :
  In y (targets degrees x uniq) <->
  adjacent (edge_records lines) x y = true
  /\ rank_lt (load degrees) x y = true.
Proof.
  rewrite in_targets. split.
  - intros (p & Hp & H). destruct (uniq_edge p Hp) as (Hlt & Hb & Hadj).
    rewrite oriented_forward_rank in H by lia.
    destruct H as [(Hf & <- & <-) | (Hf & <- & <-)]; [auto|].
    split; [now rewrite adjacent_sym|].
    rewrite rank_lt_total by lia. now rewrite Hf.
  - intros [Hadj Hr]. pose proof (adjacent_bound _ _ _ Hadj) as [Hx Hy].
    apply adjacent_spec in Hadj. destruct Hadj as [Hne Hin].
    destruct (N.lt_ge_cases x y) as [Hlt|Hge].
    + assert (In (x, y) (map unpack uniq)) as H
        by (apply (in_canonical_edges _ _ _ _ Huniq uniq_edges_small); auto).
      apply in_map_iff in H. destruct H as (p & Hp & Hpin).
      injection Hp as <- <-. exists p. split; [assumption|]. left.
      rewrite oriented_forward_rank by lia. auto.
    + assert (In (y, x) (map unpack uniq)) as H
        by (apply (in_canonical_edges _ _ _ _ Huniq uniq_edges_small);
            split; [lia | tauto]).
      apply in_map_iff in H. destruct H as (p & Hp & Hpin).
      injection Hp as <- <-. exists p. split; [assumption|]. right.
      rewrite oriented_forward_rank by lia.
      rewrite rank_lt_total, Hr by lia. auto.
Qed.

Lemma targets_NoDup x : NoDup (targets degrees x uniq).
Proof using Huniq Hsmall.
  destruct (canonical_packed_spec _ _ Huniq) as [Hs _].
  apply sorted_lt_NoDup in Hs.
  assert (Hedge : forall p, In p uniq -> hi32 p < lo32 p)
    by (intros p Hp; now destruct (uniq_edge p Hp)).
  clear Huniq Hsmall Hdeg. revert Hs Hedge.
  induction uniq as [|p r IH]; intros Hnd Hedge; [constructor|].
  inversion Hnd as [|? ? Hnin Hnd']; subst.
  rewrite targets_cons.
  assert (IHr : NoDup (targets degrees x r))
    by (apply IH; [assumption | intros q Hq; apply Hedge; now right]).
  assert (Hp : hi32 p < lo32 p) by (apply Hedge; now left).
  assert (Hfresh : forall y,
            (oriented_forward degrees (hi32 p) (lo32 p) = true
             /\ hi32 p = x /\ lo32 p = y)
            \/ (oriented_forward degrees (hi32 p) (lo32 p) = false
                /\ lo32 p = x /\ hi32 p = y) ->
            ~ In y (targets degrees x r)).
  { intros y Hy Hin. apply in_targets in Hin. destruct Hin as (q & Hq & Hq').
    assert (Hqe : hi32 q < lo32 q) by (apply Hedge; now right).
    assert (q <> p) by (intros ->; contradiction).
    assert (unpack q <> unpack p) as Hne
      by (intros E; apply unpack_inj in E; contradiction).
    unfold unpack in Hne.
    destruct Hy as [(_ & E1 & E2) | (_ & E1 & E2)],
             Hq' as [(_ & E3 & E4) | (_ & E3 & E4)];
      try (apply Hne; congruence); lia. }
  destruct (oriented_forward degrees (hi32 p) (lo32 p)) eqn:Hf.
  - destruct (N.eqb_spec (hi32 p) x); [|assumption].
    cbn [app]. constructor; [|assumption]. apply Hfresh. auto.
  - destruct (N.eqb_spec (lo32 p) x); [|assumption].
    cbn [app]. constructor; [|assumption]. apply Hfresh. auto.
Qed.

End Rows.

(** ** The compact representation of a run that completes *)

Lemma concat_sorted_length rows :
  length (concat (map sort_asc rows)) = length (concat rows).
Proof.
  induction rows as [|r rs IH]; simpl; [reflexivity|].
  now rewrite !length_app, sort_asc_length, IH.
Qed.

Lemma row_of_prefix_sums rows x :
  (N.to_nat x < length rows)%nat ->
  row_of (prefix_sums 0 rows) (concat (map sort_asc rows)) x
  = sort_asc (nth (N.to_nat x) rows []).
Proof.
  intros Hx. unfold row_of, load.
  replace (N.to_nat (x + 1)) with (S (N.to_nat x)) by lia.
  rewrite <- (prefix_sums_sorted_rows 0 rows).
  change (concat (map sort_asc rows)) with ([] ++ concat (map sort_asc rows)).
  change 0 with (N.of_nat (length (@nil N))) at 1 3.
  rewrite slice_prefix_sums by (now rewrite length_map).
  change (@nil N) with (sort_asc []) at 1. apply map_nth.
Qed.

Lemma run_facts lines g :
  processGraph lines = Ok g ->
  let es := edge_records lines in
  let n := max_id es + 1 in
  exists uniq degrees rows,
    canonical_packed lines = Ok uniq
    /\ degrees_stage lines = Ok degrees
    /\ orientedAdj_stage lines = Ok rows
    /\ length degrees = N.to_nat n
    /\ length rows = N.to_nat n
    /\ nodeCountForAllocation g = n
    /\ n < 2 ^ 32
    /\ adj_offsets g = prefix_sums 0 rows
    /\ adj_data g = concat (map sort_asc rows)
    /\ (forall x, nth (N.to_nat x) rows [] = targets degrees x uniq)
    /\ (forall x, x < n ->
          row_of (adj_offsets g) (adj_data g) x = sort_asc (targets degrees x uniq))
    /\ csr_ok (adj_offsets g) (adj_data g) n.
Proof.
  intros H es n. apply graph_shape in H.
  destruct H as (uniq & rows & Hu & Hstage & Hn & Hlen & Hrows & Hcount & Hoffs & Hdata & Hfit).
  pose proof (canonical_packed_ok_well_formed _ _ Hu) as Hwf.
  rewrite (pass1_maxNodeId lines Hwf) in *. fold es in Hn, Hlen, Hrows, Hcount. fold n in Hn, Hlen, Hrows, Hcount.
  set (degrees := degrees_of n uniq) in *.
  assert (Hdl : length degrees = N.to_nat n) by apply degrees_of_length.
  assert (Hn32 : n < 2 ^ 32) by (unfold max_array_length in Hn; lia).
  assert (Hsmall : max_id (edge_records lines) + 1 <= 2 ^ 32) by (fold es; fold n; lia).
  assert (Hrow : forall x, x < n ->
            row_of (adj_offsets g) (adj_data g) x = sort_asc (targets degrees x uniq)).
  { intros x Hx. rewrite Hoffs, Hdata, row_of_prefix_sums by lia. now rewrite Hrows. }
  exists uniq, degrees, rows.
  split; [assumption|].
  split; [unfold degrees_stage; rewrite Hu; cbn [bind];
          now rewrite (pass1_maxNodeId lines Hwf)|].
  do 9 (split; [assumption|]).
  constructor.
  - rewrite Hoffs, prefix_sums_length. lia.
  - assumption.
  - rewrite Hoffs. destruct rows; reflexivity.
  - intros i Hi. rewrite Hoffs. unfold load.
    replace (N.to_nat (i + 1)) with (S (N.to_nat i)) by lia.
    rewrite prefix_sums_step by lia. lia.
  - rewrite Hoffs, Hdata. unfold load. rewrite <- Hlen, prefix_sums_last.
    now rewrite concat_sorted_length.
  - unfold max_array_length in Hfit. lia.
  - intros i Hi. rewrite Hrow by assumption.
    apply sorted_le_nodup_lt; [apply sort_asc_sorted|].
    eapply Permutation_NoDup; [symmetry; apply sort_asc_perm|].
    exact (targets_NoDup lines uniq degrees Hu Hsmall i).
  - rewrite Hdata, Forall_forall. intros y Hy. apply in_concat in Hy.
    destruct Hy as (r & Hr & Hy). apply in_map_iff in Hr.
    destruct Hr as (r0 & <- & Hr0). apply (proj1 (sort_asc_In _ _)) in Hy.
    destruct (In_nth _ _ [] Hr0) as (k & Hk & Hnth).
    specialize (Hrows (N.of_nat k)). rewrite Nat2N.id, Hnth in Hrows.
    rewrite Hrows in Hy.
    apply (in_targets_graph lines uniq degrees Hu Hsmall Hdl) in Hy.
    destruct Hy as [Hadj _]. apply adjacent_bound in Hadj. fold es in Hadj. lia.
Qed.

(** A run that completes has read an input of the format: every record
    line held two numbers in decimal digits, all below 2^32. *)
Lemma completed_run_format lines g :
  processGraph lines = Ok g ->
  well_formed lines /\ ids_below (2 ^ 32) (edge_records lines).
Proof.
  intros Hrun. destruct (run_facts lines g Hrun)
    as (uniq & degrees & rows & Hu & _ & _ & _ & _ & _ & Hn & _).
  split; [apply (canonical_packed_ok_well_formed _ _ Hu)|].
  apply (ids_below_weaken (max_id (edge_records lines) + 1));
    [apply N.lt_le_incl; exact Hn | apply ids_below_max_id].
Qed.

(** ** Counting triples *)

Lemma sum3_ext ns G G' :
  (forall a b c, In a ns -> In b ns -> In c ns -> G a b c = G' a b c) ->
  sum3 ns G = sum3 ns G'.
Proof.
  intros H. unfold sum3.
  apply sumN_ext; intros a Ha. apply sumN_ext; intros b Hb.
  apply sumN_ext; intros c Hc. auto.
Qed.

Lemma sum3_add ns G G' :
  sum3 ns (fun a b c => G a b c + G' a b c) = sum3 ns G + sum3 ns G'.
Proof.
  unfold sum3. rewrite <- sumN_add. apply sumN_ext; intros a _.
  rewrite <- sumN_add. apply sumN_ext; intros b _. apply sumN_add.
Qed.

Lemma sum3_swap12 ns G : sum3 ns (fun a b c => G b a c) = sum3 ns G.
Proof. unfold sum3. apply sumN_exchange. Qed.

Lemma sum3_swap23 ns G : sum3 ns (fun a b c => G a c b) = sum3 ns G.
Proof.
  unfold sum3. apply sumN_ext; intros a _.
  apply (sumN_exchange (fun b c => G a c b)).
Qed.

Lemma sum3_rot ns G : sum3 ns (fun a b c => G b c a) = sum3 ns G.
Proof.
  rewrite (sum3_swap12 ns (fun a b c => G a c b)). apply sum3_swap23.
Qed.

Lemma sum3_rot' ns G : sum3 ns (fun a b c => G c a b) = sum3 ns G.
Proof.
  rewrite (sum3_swap23 ns (fun a b c => G b a c)). apply sum3_swap12.
Qed.

Lemma sum3_rev ns G : sum3 ns (fun a b c => G c b a) = sum3 ns G.
Proof.
  rewrite (sum3_swap12 ns (fun a b c => G c a b)). apply sum3_rot'.
Qed.

Section Orders.

Variable R : N -> N -> bool.
Variable T : N -> N -> N -> bool.
Hypothesis R_irrefl : forall a, R a a = false.
Hypothesis R_total : forall a b, a <> b -> R a b = negb (R b a).
Hypothesis R_trans : forall a b c, R a b = true -> R b c = true -> R a c = true.
Hypothesis T_swap12 : forall a b c, T a b c = T b a c.
Hypothesis T_swap23 : forall a b c, T a b c = T a c b.

(** Of the six arrangements of three distinct nodes exactly one ascends
    in the order. *)
Lemma six_arrangements a b c :
  distinct_triple T a b c
  = ordered_triple R T a b c + ordered_triple R T a c b
    + ordered_triple R T b a c + ordered_triple R T b c a
    + ordered_triple R T c a b + ordered_triple R T c b a.
Proof.
  unfold distinct_triple, ordered_triple.
  assert (E1 : T a c b = T a b c) by (symmetry; apply T_swap23).
  assert (E2 : T b a c = T a b c) by (symmetry; apply T_swap12).
  assert (E3 : T b c a = T a b c) by (now rewrite <- T_swap23).
  assert (E4 : T c a b = T a b c) by (now rewrite <- T_swap12).
  assert (E5 : T c b a = T a b c) by (now rewrite <- T_swap12).
  rewrite E1, E2, E3, E4, E5. clear E1 E2 E3 E4 E5.
  destruct (T a b c); [|now rewrite !andb_false_r].
  rewrite !andb_true_r.
  destruct (N.eqb_spec a b) as [->|Hab].
  { rewrite !R_irrefl. cbn [andb negb b2n N.add].
    destruct (N.eqb_spec b c) as [->|Hbc].
    - rewrite !R_irrefl. reflexivity.
    - rewrite (R_total c b) by congruence. destruct (R b c); reflexivity. }
  destruct (N.eqb_spec b c) as [->|Hbc].
  { rewrite !R_irrefl. rewrite (R_total c a) by congruence.
    destruct (R a c); reflexivity. }
  destruct (N.eqb_spec a c) as [->|Hac].
  { rewrite !R_irrefl. rewrite (R_total b c) by congruence.
    destruct (R c b); reflexivity. }
  rewrite (R_total b a), (R_total c b), (R_total c a) by congruence.
  pose proof (R_trans a b c) as Habc.
  pose proof (R_trans b c a) as Hbca.
  rewrite (R_total c a) in Hbca by congruence.
  pose proof (R_trans a c b) as Hacb.
  rewrite (R_total c b) in Hacb by congruence.
  pose proof (R_trans b a c) as Hbac.
  rewrite (R_total b a) in Hbac by congruence.
  pose proof (R_trans c a b) as Hcab.
  rewrite (R_total c a), (R_total c b) in Hcab by congruence.
  pose proof (R_trans c b a) as Hcba.
  rewrite (R_total c b), (R_total b a), (R_total c a) in Hcba by congruence.
  destruct (R a b), (R b c), (R a c); cbn in *;
    try reflexivity;
    try (specialize (Habc eq_refl eq_refl); discriminate);
    try (specialize (Hbca eq_refl eq_refl); discriminate);
    try (specialize (Hacb eq_refl eq_refl); discriminate);
    try (specialize (Hbac eq_refl eq_refl); discriminate);
    try (specialize (Hcab eq_refl eq_refl); discriminate);
    try (specialize (Hcba eq_refl eq_refl); discriminate).
Qed.

Lemma six_times_ordered ns :
  sum3 ns (distinct_triple T) = 6 * sum3 ns (ordered_triple R T).
Proof.
  rewrite (sum3_ext ns (distinct_triple T)
             (fun a b c =>
                ordered_triple R T a b c + ordered_triple R T a c b
                + ordered_triple R T b a c + ordered_triple R T b c a
                + ordered_triple R T c a b + ordered_triple R T c b a))
    by (intros; apply six_arrangements).
  rewrite !sum3_add.
  rewrite (sum3_swap23 ns (ordered_triple R T)).
  rewrite (sum3_swap12 ns (ordered_triple R T)).
  rewrite (sum3_rot ns (ordered_triple R T)).
  rewrite (sum3_rot' ns (ordered_triple R T)).
  rewrite (sum3_rev ns (ordered_triple R T)).
  change (sum3 ns (fun a b c => ordered_triple R T a b c))
    with (sum3 ns (ordered_triple R T)).
  lia.
Qed.

End Orders.

(** ** Sums over rows as sums over all nodes *)

Lemma node_ids_In n x : In x (node_ids n) <-> x < n.
Proof.
  unfold node_ids. rewrite in_map_iff. split.
  - intros (k & <- & Hk). apply in_seq in Hk. lia.
  - intros H. exists (N.to_nat x). split; [apply N2Nat.id|].
    apply in_seq. lia.
Qed.

Lemma node_ids_NoDup n : NoDup (node_ids n).
Proof.
  unfold node_ids. apply NoDup_map_NoDup_ForallPairs; [|apply seq_NoDup].
  intros a b _ _. apply Nat2N.inj.
Qed.

Lemma node_ids_split n m :
  n <= m ->
  node_ids m = node_ids n ++ map N.of_nat (seq (N.to_nat n) (N.to_nat (m - n))).
Proof.
  intros H. unfold node_ids. rewrite <- map_app. f_equal.
  replace (N.to_nat m) with (N.to_nat n + N.to_nat (m - n))%nat by lia.
  apply seq_app.
Qed.

Lemma sumN_mul_l {A : Type} (k : N) (f : A -> N) l :
  k * sumN f l = sumN (fun x => k * f x) l.
Proof.
  induction l as [|x l IH]; simpl; [lia|]. rewrite <- IH. lia.
Qed.

Lemma sumN_single (f : N -> N) a ns :
  NoDup ns -> In a ns -> sumN (fun x => b2n (x =? a) * f x) ns = f a.
Proof.
  induction 1 as [|y ns Hnin Hnd IH]; intros Hin; [contradiction|].
  rewrite sumN_cons. destruct Hin as [-> | Hin].
  - rewrite N.eqb_refl. rewrite sumN_zero; [cbn [b2n]; lia|].
    intros x Hx. destruct (N.eqb_spec x a); [subst; contradiction | reflexivity].
  - rewrite IH by assumption.
    destruct (N.eqb_spec y a); [subst; contradiction | cbn [b2n]; lia].
Qed.

(** A sum over a duplicate-free row is the sum over all nodes of the
    terms that the row selects. *)
Lemma sumN_indicator (f : N -> N) l ns :
  NoDup ns -> NoDup l -> incl l ns ->
  sumN f l = sumN (fun x => b2n (mem x l) * f x) ns.
Proof.
  intros Hns. induction 1 as [|a l Hnin Hnd IH]; intros Hincl.
  - symmetry. apply sumN_zero. reflexivity.
  - rewrite sumN_cons, IH by (intros x Hx; apply Hincl; now right).
    rewrite <- (sumN_single f a ns Hns) by (apply Hincl; now left).
    rewrite <- sumN_add. apply sumN_ext. intros x _.
    cbn [mem existsb]. fold (mem x l).
    destruct (N.eqb_spec x a) as [->|Hne]; cbn [orb b2n].
    + replace (mem a l) with false by (symmetry; now apply mem_false).
      cbn [b2n]. lia.
    + lia.
Qed.

Lemma inter_size_sum l1 l2 :
  inter_size l1 l2 = sumN (fun w => b2n (mem w l2)) l1.
Proof.
  unfold inter_size. induction l1 as [|x l1 IH]; [reflexivity|].
  cbn [filter]. rewrite sumN_cons, <- IH.
  destruct (mem x l2); cbn [length b2n]; lia.
Qed.

Lemma sumN_out_of_range (f : N -> N) n m :
  n <= m ->
  sumN (fun u => if u <? n then f u else 0) (node_ids m) = sumN f (node_ids n).
Proof.
  intros H. rewrite (node_ids_split n m H), sumN_app.
  rewrite (sumN_zero _ (map N.of_nat _)).
  - rewrite N.add_0_r. apply sumN_ext. intros u Hu. apply node_ids_In in Hu.
    destruct (N.ltb_spec u n); [reflexivity | lia].
  - intros u Hu. apply in_map_iff in Hu. destruct Hu as (k & <- & Hk).
    apply in_seq in Hk. destruct (N.ltb_spec (N.of_nat k) n); [lia | reflexivity].
Qed.

Lemma invocations_cover n : n <= 256 * workgroupCount n.
Proof.
  unfold workgroupCount.
  pose proof (N.div_mod (n + 255) 256 ltac:(lia)).
  pose proof (N.mod_lt (n + 255) 256 ltac:(lia)). lia.
Qed.

(** ** The reference count as a triple sum *)

Lemma is_triangle_swap12 es a b c : is_triangle es a b c = is_triangle es b a c.
Proof.
  unfold is_triangle. rewrite (adjacent_sym es a b).
  destruct (adjacent es b a), (adjacent es b c), (adjacent es a c); reflexivity.
Qed.

Lemma is_triangle_swap23 es a b c : is_triangle es a b c = is_triangle es a c b.
Proof.
  unfold is_triangle. rewrite (adjacent_sym es b c).
  destruct (adjacent es a b), (adjacent es c b), (adjacent es a c); reflexivity.
Qed.

Lemma ltb_total a b : a <> b -> (a <? b) = negb (b <? a).
Proof.
  intros H. destruct (N.ltb_spec a b), (N.ltb_spec b a); simpl; try reflexivity; lia.
Qed.

Lemma ltb_trans a b c : (a <? b) = true -> (b <? c) = true -> (a <? c) = true.
Proof. rewrite !N.ltb_lt. lia. Qed.

Lemma triangles_sum3 es :
  triangles es
  = sum3 (node_ids (max_id es + 1)) (ordered_triple N.ltb (is_triangle es)).
Proof. reflexivity. Qed.

(** Counting along any strict total order gives the reference count. *)
Lemma ordered_count_triangles es deg :
  sum3 (node_ids (max_id es + 1))
       (ordered_triple (rank_lt deg) (is_triangle es))
  = triangles es.
Proof.
  rewrite triangles_sum3.
  pose proof (six_times_ordered (rank_lt deg) (is_triangle es)
                (rank_lt_irrefl deg) (rank_lt_total deg) (rank_lt_trans deg)
                (is_triangle_swap12 es) (is_triangle_swap23 es)
                (node_ids (max_id es + 1))) as H1.
  pose proof (six_times_ordered N.ltb (is_triangle es)
                N.ltb_irrefl ltb_total ltb_trans
                (is_triangle_swap12 es) (is_triangle_swap23 es)
                (node_ids (max_id es + 1))) as H2.
  lia.
Qed.

(** ** The kernel's total *)

Lemma ordered_triple_rows es deg (Euv Euw Evw : bool) u v w :
  Euv = adjacent es u v -> Euw = adjacent es u w -> Evw = adjacent es v w ->
  b2n (Euv && rank_lt deg u v)
  * (b2n (Euw && rank_lt deg u w) * b2n (Evw && rank_lt deg v w))
  = ordered_triple (rank_lt deg) (is_triangle es) u v w.
Proof.
  intros -> -> ->. unfold ordered_triple, is_triangle.
  pose proof (rank_lt_trans deg u v w) as Ht.
  destruct (adjacent es u v), (adjacent es u w), (adjacent es v w),
    (rank_lt deg u v), (rank_lt deg v w), (rank_lt deg u w);
    cbn in *; try reflexivity; specialize (Ht eq_refl eq_refl); discriminate.
Qed.

Lemma kernel_sum_triangles lines g :
  processGraph lines = Ok g ->
  sumN (contribution (adj_offsets g) (adj_data g))
       (node_ids (max_id (edge_records lines) + 1))
  = triangles (edge_records lines).
Proof.
  intros Hrun. destruct (run_facts lines g Hrun)
    as (uniq & degrees & rows & Hu & _ & _ & Hdl & _ & _ & Hn & _ & _ & _ & Hrow & Hok).
  set (es := edge_records lines) in *. set (n := max_id es + 1) in *.
  set (offs := adj_offsets g) in *. set (adj := adj_data g) in *.
  assert (Hsmall : max_id (edge_records lines) + 1 <= 2 ^ 32)
    by (fold es; fold n; lia).
  assert (Hmem : forall x y, x < n ->
            mem y (row_of offs adj x)
            = adjacent es x y && rank_lt (load degrees) x y).
  { intros x y Hx. apply eq_true_iff_eq.
    rewrite mem_In, Hrow, sort_asc_In by assumption.
    rewrite (in_targets_graph lines uniq degrees Hu Hsmall Hdl).
    now rewrite andb_true_iff. }
  assert (Hnd : forall x, x < n -> NoDup (row_of offs adj x))
    by (intros x Hx; apply sorted_lt_NoDup, (csr_sorted _ _ _ Hok x Hx)).
  assert (Hincl : forall x, x < n -> incl (row_of offs adj x) (node_ids n)).
  { intros x Hx y Hy. apply mem_In in Hy. rewrite Hmem in Hy by assumption.
    apply andb_true_iff in Hy. destruct Hy as [Hadj _].
    apply adjacent_bound in Hadj. apply node_ids_In. unfold n. lia. }
  rewrite <- (ordered_count_triangles es (load degrees)). fold n. unfold sum3.
  apply sumN_ext. intros u Hu'. apply node_ids_In in Hu'.
  unfold contribution. fold offs adj.
  rewrite (sumN_indicator _ (row_of offs adj u) (node_ids n)
             (node_ids_NoDup n) (Hnd u Hu') (Hincl u Hu')).
  apply sumN_ext. intros v Hv. apply node_ids_In in Hv.
  rewrite inter_size_sum.
  rewrite (sumN_indicator _ (row_of offs adj u) (node_ids n)
             (node_ids_NoDup n) (Hnd u Hu') (Hincl u Hu')).
  rewrite sumN_mul_l. apply sumN_ext. intros w Hw.
  rewrite !Hmem by assumption.
  now apply ordered_triple_rows.
Qed.

Lemma dispatch_spec lines g :
  processGraph lines = Ok g ->
  dispatch g = Some (triangles (edge_records lines) mod 2 ^ 32).
Proof.
  intros Hrun. destruct (run_facts lines g Hrun)
    as (uniq & degrees & rows & _ & _ & _ & _ & _ & Hcount & _ & _ & _ & _ & _ & Hok).
  unfold dispatch, invocations. rewrite Hcount.
  rewrite (run_invocations_spec _ _ _ Hok) by lia.
  fold (node_ids (256 * workgroupCount (max_id (edge_records lines) + 1))).
  rewrite sumN_out_of_range by apply invocations_cover.
  rewrite (kernel_sum_triangles lines g Hrun). reflexivity.
Qed.

(** ** Degrees *)

Lemma load_ta_incr i arr x :
  (N.to_nat i < length arr)%nat ->
  load (ta_incr i arr) x
  = if i =? x then (load arr x + 1) mod 2 ^ 32 else load arr x.
Proof.
  intros Hi. unfold ta_incr. rewrite ta_read_load by assumption.
  unfold load at 1. rewrite nth_ta_write by assumption.
  destruct (N.eqb_spec i x) as [->|Hne].
  - now rewrite Nat.eqb_refl.
  - destruct (Nat.eqb_spec (N.to_nat i) (N.to_nat x)); [lia | reflexivity].
Qed.

Lemma degree_cons e ce x :
  degree (e :: ce) x
  = b2n ((fst e =? x) || (snd e =? x)) + degree ce x.
Proof.
  unfold degree. cbn [filter].
  destruct ((fst e =? x) || (snd e =? x)); cbn [length b2n]; lia.
Qed.

Lemma degrees_fold uniq : forall arr x,
  (forall p, In p uniq -> (N.to_nat (hi32 p) < length arr)%nat
                          /\ (N.to_nat (lo32 p) < length arr)%nat
                          /\ hi32 p <> lo32 p) ->
  load (fold_left (fun degrees packed =>
                     ta_incr (lo32 packed) (ta_incr (hi32 packed) degrees))
                  uniq arr) x mod 2 ^ 32
  = (load arr x + degree (map unpack uniq) x) mod 2 ^ 32.
Proof.
  induction uniq as [|p r IH]; intros arr x H.
  - cbn [fold_left map]. unfold degree. cbn. now rewrite N.add_0_r.
  - cbn [fold_left map]. destruct (H p (or_introl eq_refl)) as (Hh & Hl & Hne).
    rewrite IH.
    2:{ intros q Hq. rewrite !ta_incr_length. apply H. now right. }
    rewrite load_ta_incr by (now rewrite ta_incr_length).
    rewrite load_ta_incr by assumption.
    rewrite degree_cons.
    change (fst (unpack p)) with (hi32 p). change (snd (unpack p)) with (lo32 p).
    destruct (N.eqb_spec (lo32 p) x) as [El|Nl],
             (N.eqb_spec (hi32 p) x) as [Eh|Nh];
      cbn [orb b2n]; try congruence.
    + rewrite N.Div0.add_mod_idemp_l.
      apply (f_equal (fun z => z mod 2 ^ 32)); lia.
    + rewrite N.Div0.add_mod_idemp_l.
      apply (f_equal (fun z => z mod 2 ^ 32)); lia.
    + apply (f_equal (fun z => z mod 2 ^ 32)); lia.
Qed.

Lemma degree_bound ce n x :
  NoDup ce ->
  (forall a b, In (a, b) ce -> a < b /\ b < n) ->
  degree ce x <= n.
Proof.
  intros Hnd Hce. unfold degree.
  set (inc := filter (fun e => (fst e =? x) || (snd e =? x)) ce).
  set (other := fun e : N * N => if fst e =? x then snd e else fst e).
  assert (Hlen : (length (map other inc) <= length (node_ids n))%nat).
  { apply NoDup_incl_length.
    - apply NoDup_map_NoDup_ForallPairs; [|now apply NoDup_filter].
      intros [a b] [a' b'] H1 H2 E. unfold inc in H1, H2.
      apply filter_In in H1, H2. destruct H1 as [H1 H1'], H2 as [H2 H2'].
      apply Hce in H1, H2. unfold other in E. cbn [fst snd] in *.
      apply orb_true_iff in H1', H2'. rewrite !N.eqb_eq in H1', H2'.
      destruct (N.eqb_spec a x), (N.eqb_spec a' x); subst;
        f_equal; lia.
    - intros y Hy. apply in_map_iff in Hy. destruct Hy as ([a b] & <- & He).
      unfold inc in He. apply filter_In in He. destruct He as [He _].
      apply Hce in He. apply node_ids_In. unfold other. cbn [fst snd].
      destruct (a =? x); lia. }
  rewrite length_map in Hlen. unfold node_ids in Hlen.
  rewrite length_map, length_seq in Hlen. lia.
Qed.

(** ** The orientation stage on its own *)

Lemma orient_stage_facts lines rows :
  orientedAdj_stage lines = Ok rows ->
  let es := edge_records lines in
  let n := max_id es + 1 in
  exists uniq degrees,
    canonical_packed lines = Ok uniq
    /\ degrees_stage lines = Ok degrees
    /\ n < 2 ^ 32
    /\ length degrees = N.to_nat n
    /\ length rows = N.to_nat n
    /\ (forall x, nth (N.to_nat x) rows [] = targets degrees x uniq)
    /\ length (concat rows) = length uniq.
Proof.
  intros H es n. unfold orientedAdj_stage in H.
  destruct (canonical_packed lines) as [uniq|] eqn:Hu; [|discriminate].
  cbn [bind] in H. unfold array_from in H.
  pose proof (canonical_packed_ok_well_formed _ _ Hu) as Hwf.
  rewrite (pass1_maxNodeId lines Hwf) in H. fold es in H. fold n in H.
  destruct (N.ltb_spec max_array_length n) as [|Hn]; [discriminate|].
  cbn [bind] in H.
  exists uniq, (degrees_of n uniq).
  split; [reflexivity|].
  split; [unfold degrees_stage; rewrite Hu; cbn [bind];
          now rewrite (pass1_maxNodeId lines Hwf)|].
  split; [unfold max_array_length in Hn; lia|].
  split; [apply degrees_of_length|].
  assert (Hcount : forall uniq' rows0 rows',
            orient_loop (degrees_of n uniq) uniq' rows0 = Ok rows' ->
            length (concat rows') = (length (concat rows0) + length uniq')%nat).
  { clear. induction uniq' as [|p r IH]; intros rows0 rows' H.
    - injection H as <-. cbn [length]. lia.
    - cbn [orient_loop] in H.
      destruct (if oriented_forward (degrees_of n uniq) (hi32 p) (lo32 p)
                then push_at rows0 (hi32 p) (lo32 p)
                else push_at rows0 (lo32 p) (hi32 p)) as [rows1|] eqn:Hpush;
        [|discriminate].
      cbn [bind] in H. apply IH in H. rewrite H. cbn [length].
      assert (length (concat rows1) = S (length (concat rows0))) as ->; [|lia].
      assert (Hpa : forall i y, push_at rows0 i y = Ok rows1 ->
                length (concat rows1) = S (length (concat rows0))).
      { clear. intros i y. unfold push_at, js_push.
        destruct (nth_error rows0 (N.to_nat i)) as [r|] eqn:Hr; [|discriminate].
        destruct (N.of_nat (length r) =? max_array_length); [discriminate|].
        cbn [bind]. intros H. injection H as <-.
        revert Hr. generalize (N.to_nat i) as k. clear.
        induction rows0 as [|h t IH]; intros [|k] Hr; simpl in Hr; try discriminate.
        - injection Hr as ->. cbn [list_set concat].
          rewrite !length_app. cbn [length]. lia.
        - cbn [list_set concat]. rewrite !length_app. rewrite (IH k Hr). lia. }
      destruct (oriented_forward (degrees_of n uniq) (hi32 p) (lo32 p));
        eapply Hpa; eassumption. }
  pose proof (Hcount _ _ _ H) as Hc.
  apply orient_loop_spec in H. destruct H as [Hlen Hrows].
  rewrite repeat_length in Hlen.
  split; [assumption|].
  split.
  - intros x. rewrite Hrows. now rewrite nth_repeat_nil.
  - rewrite Hc. replace (length (concat (repeat [] (N.to_nat n)))) with O; [reflexivity|].
    clear. induction (N.to_nat n); simpl; auto.
Qed.

(* ================================================================== *)
(** * Part III: the claims of the specification                        *)
(* ================================================================== *)

(** ** Rows of a completed run *)

Lemma row_membership lines g degrees x y :
  processGraph lines = Ok g -> degrees_stage lines = Ok degrees ->
  x < nodeCountForAllocation g ->
  In y (row g x) <->
  adjacent (edge_records lines) x y = true
  /\ rank_lt (load degrees) x y = true.
Proof.
  intros Hrun Hdeg Hx. destruct (run_facts lines g Hrun)
    as (uniq & degrees' & rows & Hu & Hdeg' & _ & Hdl & _ & Hcount & Hn & _ & _ & _ & Hrow & _).
  rewrite Hdeg in Hdeg'. injection Hdeg' as <-. rewrite Hcount in Hx.
  change (row g x) with (row_of (adj_offsets g) (adj_data g) x).
  rewrite Hrow, sort_asc_In by assumption.
  apply (in_targets_graph lines uniq degrees Hu); [lia | assumption].
Qed.

(** C6. Every row of the compact adjacency representation, the slice of
    the flat adjacency array between two consecutive offsets, is strictly
    ascending, for every node of a run that completes. *)
Theorem rows_strictly_ascending lines g i :
  processGraph lines = Ok g ->
  i < nodeCountForAllocation g ->
  StronglySorted N.lt (row g i).
Proof.
  intros Hrun Hi. destruct (run_facts lines g Hrun)
    as (uniq & degrees & rows & _ & _ & _ & _ & _ & Hcount & _ & _ & _ & _ & _ & Hok).
  rewrite Hcount in Hi. exact (csr_sorted _ _ _ Hok i Hi).
Qed.

(** C7. An invocation whose identifier [u] is at least the node count
    (the length of the offsets array minus one) does no work: whatever the
    adjacency array holds, it returns with the result counter unchanged. *)
Theorem main_no_work offsets adj u triangle_count :
  node_count offsets <= u ->
  main offsets adj u triangle_count = Some triangle_count.
Proof.
  intros Hu. unfold main.
  destruct (N.leb_spec (node_count offsets) u); [reflexivity | lia].
Qed.

(** C10. The result counter is an unsigned 32-bit integer that the
    invocations increase by wrapping additions: the value read back after
    the dispatch is the number of triangles modulo 2^32, so a graph with
    2^32 triangles or more yields the residue and not the count. *)
Theorem result_modulo_2_32 lines g :
  processGraph lines = Ok g ->
  dispatch g = Some (triangles (edge_records lines) mod 2 ^ 32)
  /\ (2 ^ 32 <= triangles (edge_records lines) ->
      dispatch g <> Some (triangles (edge_records lines))).
Proof.
  intros Hrun. rewrite (dispatch_spec lines g Hrun). split; [reflexivity|].
  intros Hbig E. injection E as E.
  pose proof (N.mod_lt (triangles (edge_records lines)) (2 ^ 32) ltac:(lia)). lia.
Qed.

(** ** The degree array holds the degrees *)

Lemma Forall_list_set {A : Type} (P : A -> Prop) i x l :
  P x -> Forall P l -> Forall P (list_set i x l).
Proof.
  intros Hx H. revert i; induction H as [|h t Hh Ht IH]; intros [|i]; simpl;
    constructor; auto.
Qed.

Lemma ta_incr_small i arr :
  Forall (fun d => d < 2 ^ 32) arr -> Forall (fun d => d < 2 ^ 32) (ta_incr i arr).
Proof.
  intros H. unfold ta_incr. destruct (ta_read arr i); [|assumption].
  apply Forall_list_set; [apply N.mod_lt; lia | assumption].
Qed.

Lemma degrees_of_small n uniq : Forall (fun d => d < 2 ^ 32) (degrees_of n uniq).
Proof.
  unfold degrees_of, new_typed_array.
  assert (H : Forall (fun d => d < 2 ^ 32) (repeat 0 (N.to_nat n)))
    by (apply Forall_forall; intros d Hd; apply repeat_spec in Hd; subst; lia).
  revert H. generalize (repeat 0 (N.to_nat n)) as arr.
  induction uniq as [|p r IH]; intros arr H; cbn [fold_left]; [assumption|].
  apply IH. now apply ta_incr_small, ta_incr_small.
Qed.

Lemma load_small arr x :
  Forall (fun d => d < 2 ^ 32) arr -> load arr x < 2 ^ 32.
Proof.
  intros H. unfold load.
  destruct (Nat.lt_ge_cases (N.to_nat x) (length arr)) as [Hlt|Hge].
  - rewrite Forall_forall in H. apply H. now apply nth_In.
  - rewrite nth_overflow by assumption. lia.
Qed.

Lemma load_repeat_zero k x : load (repeat 0 k) x = 0.
Proof.
  unfold load. generalize (N.to_nat x) as j.
  induction k as [|k IH]; intros [|j]; simpl; auto.
Qed.

Lemma degrees_exact lines uniq x :
  canonical_packed lines = Ok uniq ->
  max_id (edge_records lines) + 1 < 2 ^ 32 ->
  load (degrees_of (max_id (edge_records lines) + 1) uniq) x
  = degree (map unpack uniq) x.
Proof.
  intros Hu Hn. set (n := max_id (edge_records lines) + 1) in *.
  assert (Hsmall : max_id (edge_records lines) + 1 <= 2 ^ 32) by (fold n; lia).
  assert (Hedges : forall a b, In (a, b) (map unpack uniq) -> a < b /\ b < n).
  { intros a b Hab. apply in_map_iff in Hab. destruct Hab as (p & Hp & Hin).
    injection Hp as <- <-.
    destruct (uniq_edge lines uniq Hu Hsmall p Hin) as (H1 & H2 & _).
    unfold n. lia. }
  pose proof (degree_bound (map unpack uniq) n x
                (canonical_edges_NoDup _ _ Hu) Hedges) as Hb.
  pose proof (degrees_fold uniq (repeat 0 (N.to_nat n)) x) as Hf.
  rewrite load_repeat_zero, N.add_0_l, repeat_length in Hf.
  fold (new_typed_array n) in Hf. fold (degrees_of n uniq) in Hf.
  rewrite (N.mod_small (degree _ _)) in Hf by lia.
  rewrite N.mod_small in Hf by apply load_small, degrees_of_small.
  apply Hf. intros p Hp.
  destruct (uniq_edge lines uniq Hu Hsmall p Hp) as (H1 & H2 & _).
  unfold n. lia.
Qed.

(** C4. Every canonical edge is recorded in exactly one oriented adjacency
    list: once under its lower-ranked endpoint, pointing to the
    higher-ranked one, and not under the other endpoint, where [u] ranks
    below [v] when its degree is smaller, or equal with [u < v]. *)
Theorem edge_recorded_once lines rows ce a b :
  orientedAdj_stage lines = Ok rows ->
  canonical_edges lines = Ok ce ->
  In (a, b) ce ->
  let lower := if rank_lt (degree ce) a b then a else b in
  let higher := if rank_lt (degree ce) a b then b else a in
  rank_lt (degree ce) lower higher = true
  /\ count_occ N.eq_dec (nth (N.to_nat lower) rows []) higher = 1%nat
  /\ ~ In lower (nth (N.to_nat higher) rows []).
Proof.
  intros Hrows Hce Hab.
  destruct (orient_stage_facts lines rows Hrows)
    as (uniq & degrees & Hu & Hdeg & Hn & Hdl & Hlen & Hnth & _).
  unfold canonical_edges in Hce. rewrite Hu in Hce. cbn [bind] in Hce.
  injection Hce as <-.
  unfold degrees_stage in Hdeg. rewrite Hu in Hdeg. cbn [bind] in Hdeg.
  pose proof (canonical_packed_ok_well_formed _ _ Hu) as Hwf.
  rewrite (pass1_maxNodeId lines Hwf) in Hdeg. injection Hdeg as <-.
  set (es := edge_records lines) in *. set (n := max_id es + 1) in *.
  assert (Hsmall : max_id (edge_records lines) + 1 <= 2 ^ 32) by (fold es; fold n; lia).
  assert (Hrank : forall x y,
            rank_lt (load (degrees_of n uniq)) x y
            = rank_lt (degree (map unpack uniq)) x y).
  { intros x y. unfold rank_lt.
    now rewrite !(degrees_exact lines uniq _ Hu Hn). }
  assert (Hin : forall x y, In y (nth (N.to_nat x) rows []) <->
            adjacent es x y = true
            /\ rank_lt (degree (map unpack uniq)) x y = true).
  { intros x y. rewrite Hnth, <- Hrank.
    apply (in_targets_graph lines uniq _ Hu Hsmall Hdl). }
  assert (Hnd : forall x, NoDup (nth (N.to_nat x) rows [])).
  { intros x. rewrite Hnth.
    apply (targets_NoDup lines uniq _ Hu Hsmall). }
  apply (in_canonical_edges lines uniq a b Hu
           (uniq_edges_small lines Hsmall)) in Hab.
  destruct Hab as [Hlt Hrec].
  assert (Hadj : adjacent es a b = true)
    by (apply adjacent_spec; split; [lia | assumption]).
  pose proof (rank_lt_total (degree (map unpack uniq)) a b ltac:(lia)) as Htot.
  cbn zeta. destruct (rank_lt (degree (map unpack uniq)) a b) eqn:Hr.
  - split; [assumption|]. split.
    + apply NoDup_count_occ'; [apply Hnd | apply Hin; auto].
    + rewrite Hin. intros [_ Hba]. rewrite Hba in Htot. discriminate.
  - assert (Hba : rank_lt (degree (map unpack uniq)) b a = true)
      by (destruct (rank_lt (degree (map unpack uniq)) b a); [reflexivity | discriminate]).
    split; [assumption|]. split.
    + apply NoDup_count_occ'; [apply Hnd | apply Hin].
      split; [now rewrite adjacent_sym | assumption].
    + rewrite Hin. intros [_ Hab']. congruence.
Qed.

(** C5. After preprocessing, the oriented adjacency rows hold as many
    entries in total as there are canonical edges; this is also the length
    of the flat adjacency array and the value of [offsets[N]]; the offsets
    do not decrease, and [offsets[i+1] - offsets[i]] is the oriented
    out-degree of node [i]. *)
Theorem edge_conservation lines g rows ce :
  processGraph lines = Ok g ->
  orientedAdj_stage lines = Ok rows ->
  canonical_edges lines = Ok ce ->
  let n := nodeCountForAllocation g in
  length (concat rows) = length ce
  /\ length (adj_data g) = length ce
  /\ N.of_nat (length (adj_offsets g)) = n + 1
  /\ load (adj_offsets g) n = N.of_nat (length ce)
  /\ forall i, i < n ->
       load (adj_offsets g) i <= load (adj_offsets g) (i + 1)
       /\ load (adj_offsets g) (i + 1) - load (adj_offsets g) i
          = N.of_nat (length (nth (N.to_nat i) rows [])).
Proof.
  intros Hrun Hrows Hce n.
  destruct (run_facts lines g Hrun)
    as (uniq & degrees & rows' & Hu & _ & Hrows' & _ & Hlen & Hcount & _
        & Hoffs & Hdata & _ & _ & Hok).
  rewrite Hrows in Hrows'. injection Hrows' as <-.
  destruct (orient_stage_facts lines rows Hrows)
    as (uniq' & _ & Hu' & _ & _ & _ & _ & _ & Htotal).
  rewrite Hu in Hu'. injection Hu' as <-.
  unfold canonical_edges in Hce. rewrite Hu in Hce. cbn [bind] in Hce.
  injection Hce as <-. rewrite length_map.
  subst n. rewrite Hcount.
  split; [assumption|].
  split; [now rewrite Hdata, concat_sorted_length|].
  split; [apply (csr_length _ _ _ Hok)|].
  split.
  - rewrite (csr_last _ _ _ Hok), Hdata, concat_sorted_length. now rewrite Htotal.
  - intros i Hi. rewrite Hoffs. unfold load.
    replace (N.to_nat (i + 1)) with (S (N.to_nat i)) by lia.
    rewrite prefix_sums_step by lia. split; lia.
Qed.

(** ** The merge of the specification *)

Lemma merge_count_cons x r1 y r2 :
  merge_count (x :: r1) (y :: r2)
  = if x =? y then 1 + merge_count r1 r2
    else if x <? y then merge_count r1 (y :: r2)
    else merge_count (x :: r1) r2.
Proof. reflexivity. Qed.

Lemma merge_count_nil_l l2 : merge_count [] l2 = 0.
Proof. destruct l2; reflexivity. Qed.

Lemma merge_count_nil_r l1 : merge_count l1 [] = 0.
Proof. destruct l1; reflexivity. Qed.

Lemma merge_count_inter_size l1 : forall l2,
  StronglySorted N.lt l1 -> StronglySorted N.lt l2 ->
  merge_count l1 l2 = inter_size l1 l2.
Proof.
  induction l1 as [|x r1 IH1]; intros l2 H1 H2; [destruct l2; reflexivity|].
  induction l2 as [|y r2 IH2].
  - now rewrite merge_count_nil_r, inter_size_nil_r.
  - rewrite merge_count_cons.
    destruct (N.eqb_spec x y) as [->|Hne].
    + rewrite inter_size_eq by assumption.
      rewrite IH1; [reflexivity | |]; eapply sorted_lt_tail; eassumption.
    + destruct (N.ltb_spec x y).
      * rewrite inter_size_lt by assumption.
        apply IH1; [eapply sorted_lt_tail; eassumption | assumption].
      * rewrite inter_size_gt; [| lia | assumption].
        apply IH2. eapply sorted_lt_tail; eassumption.
Qed.

(** The index loop of the shader is this merge on the two ranges. *)
Lemma ci_loop_merge adj u_end v_end :
  u_end <= N.of_nat (length adj) -> v_end <= N.of_nat (length adj) ->
  u_end < 2 ^ 32 -> v_end < 2 ^ 32 ->
  forall fuel i j count,
    (N.to_nat ((u_end - i) + (v_end - j)) <= fuel)%nat ->
    count + (u_end - i) < 2 ^ 32 ->
    ci_loop fuel adj u_end v_end i j count
    = Some (count + merge_count (slice adj i u_end) (slice adj j v_end)).
Proof.
  intros Hue Hve Hu32 Hv32.
  induction fuel as [|fuel IH]; intros i j count Hfuel Hcount.
  - cbn [ci_loop].
    destruct (N.ltb_spec i u_end), (N.ltb_spec j v_end); cbn [andb]; try lia.
    rewrite (slice_empty adj i), merge_count_nil_l by assumption. f_equal; lia.
  - cbn [ci_loop].
    destruct (N.ltb_spec i u_end) as [Hi|Hi]; cbn [andb].
    2:{ rewrite (slice_empty adj i), merge_count_nil_l by assumption. f_equal; lia. }
    destruct (N.ltb_spec j v_end) as [Hj|Hj].
    2:{ rewrite (slice_empty adj j) by assumption. rewrite merge_count_nil_r.
        f_equal; lia. }
    rewrite (slice_cons adj i), (slice_cons adj j) by assumption.
    rewrite merge_count_cons.
    unfold u32. rewrite ?(N.mod_small (i + 1)), ?(N.mod_small (j + 1)) by lia.
    destruct (N.eqb_spec (load adj i) (load adj j)) as [E|Hne].
    + rewrite (N.mod_small (count + 1)) by lia.
      rewrite IH by lia. f_equal; lia.
    + destruct (N.ltb_spec (load adj i) (load adj j)) as [Hlt|Hge].
      * rewrite IH by lia. now rewrite (slice_cons adj j) by assumption.
      * rewrite IH by lia. now rewrite (slice_cons adj i) by assumption.
Qed.

(** C2, as amended: for two strictly ascending ranges of the flat
    adjacency array, [count_intersection] returns the size of the
    intersection of their element sets; for any two ranges it returns what
    the two-pointer merge of the specification counts, and it ends when
    either pointer reaches the end of its range.  The ends of the ranges
    are [u32] values and lie within the array. *)
Theorem count_intersection_set_size adj u_start u_end v_start v_end :
  u_end <= N.of_nat (length adj) -> v_end <= N.of_nat (length adj) ->
  u_end < 2 ^ 32 -> v_end < 2 ^ 32 ->
  count_intersection adj u_start u_end v_start v_end
  = Some (merge_count (slice adj u_start u_end) (slice adj v_start v_end))
  /\ (StronglySorted N.lt (slice adj u_start u_end) ->
      StronglySorted N.lt (slice adj v_start v_end) ->
      count_intersection adj u_start u_end v_start v_end
      = Some (set_inter_size (slice adj u_start u_end)
                             (slice adj v_start v_end))).
Proof.
  intros Hue Hve Hu Hv.
  assert (E : count_intersection adj u_start u_end v_start v_end
              = Some (merge_count (slice adj u_start u_end)
                                  (slice adj v_start v_end))).
  { unfold count_intersection.
    rewrite (ci_loop_merge adj u_end v_end Hue Hve Hu Hv); auto; lia. }
  split; [assumption|]. intros Hsu Hsv.
  rewrite E, merge_count_inter_size by assumption.
  now rewrite set_inter_size_NoDup by (now apply sorted_lt_NoDup).
Qed.

Lemma count_intersection_set_size_witness :
  count_intersection [2; 3; 3] 0 2 2 3
  = Some (merge_count (slice [2; 3; 3] 0 2) (slice [2; 3; 3] 2 3))
  /\ (StronglySorted N.lt (slice [2; 3; 3] 0 2) ->
      StronglySorted N.lt (slice [2; 3; 3] 2 3) ->
      count_intersection [2; 3; 3] 0 2 2 3
      = Some (set_inter_size (slice [2; 3; 3] 0 2) (slice [2; 3; 3] 2 3))).
Proof.
  apply (count_intersection_set_size [2; 3; 3] 0 2 2 3);
    vm_compute; congruence.
Defined.

(** C2 as stated fails on ranges that ascend with repeated values: the
    merge counts two matches where the element sets share one value. *)
Lemma count_intersection_repeated_values :
  StronglySorted N.le (slice [1; 1; 1; 1] 0 2)
  /\ StronglySorted N.le (slice [1; 1; 1; 1] 2 4)
  /\ count_intersection [1; 1; 1; 1] 0 2 2 4 = Some 2
  /\ set_inter_size (slice [1; 1; 1; 1] 0 2) (slice [1; 1; 1; 1] 2 4) = 1.
Proof.
  repeat split; try reflexivity;
    cbn; repeat constructor; cbn; lia.
Qed.

(** C6, on scenario 1. *)
Lemma rows_strictly_ascending_witness :
  StronglySorted N.lt (row scenario1_graph 1).
Proof.
  apply (rows_strictly_ascending scenario1 scenario1_graph 1);
    vm_compute; reflexivity.
Defined.

(** C7, on the offsets of scenario 1: four nodes, invocation 4. *)
Lemma main_no_work_witness :
  main [0; 0; 2; 3; 3] [2; 3; 3] 4 7 = Some 7.
Proof.
  apply (main_no_work [0; 0; 2; 3; 3] [2; 3; 3] 4 7).
  vm_compute. congruence.
Defined.

(** C10, on scenario 1. *)
Lemma result_modulo_2_32_witness :
  dispatch scenario1_graph = Some (triangles (edge_records scenario1) mod 2 ^ 32)
  /\ (2 ^ 32 <= triangles (edge_records scenario1) ->
      dispatch scenario1_graph <> Some (triangles (edge_records scenario1))).
Proof.
  apply (result_modulo_2_32 scenario1 scenario1_graph).
  vm_compute. reflexivity.
Defined.

(** C4, on scenario 1 and its canonical edge (1, 2). *)
Lemma edge_recorded_once_witness :
  let ce := [(1, 2); (1, 3); (2, 3)] in
  let rows := [[]; [2; 3]; [3]; []] in
  let lower := if rank_lt (degree ce) 1 2 then 1 else 2 in
  let higher := if rank_lt (degree ce) 1 2 then 2 else 1 in
  rank_lt (degree ce) lower higher = true
  /\ count_occ N.eq_dec (nth (N.to_nat lower) rows []) higher = 1%nat
  /\ ~ In lower (nth (N.to_nat higher) rows []).
Proof.
  apply (edge_recorded_once scenario1 [[]; [2; 3]; [3]; []]
           [(1, 2); (1, 3); (2, 3)] 1 2);
    [vm_compute; reflexivity | vm_compute; reflexivity | simpl; auto].
Defined.

(** C5, on scenario 1. *)
Lemma edge_conservation_witness :
  let g := scenario1_graph in
  let rows := [[]; [2; 3]; [3]; []] in
  let ce := [(1, 2); (1, 3); (2, 3)] in
  let n := nodeCountForAllocation g in
  length (concat rows) = length ce
  /\ length (adj_data g) = length ce
  /\ N.of_nat (length (adj_offsets g)) = n + 1
  /\ load (adj_offsets g) n = N.of_nat (length ce)
  /\ forall i, i < n ->
       load (adj_offsets g) i <= load (adj_offsets g) (i + 1)
       /\ load (adj_offsets g) (i + 1) - load (adj_offsets g) i
          = N.of_nat (length (nth (N.to_nat i) rows [])).
Proof.
  apply (edge_conservation scenario1 scenario1_graph
           [[]; [2; 3]; [3]; []] [(1, 2); (1, 3); (2, 3)]);
    vm_compute; reflexivity.
Defined.

(** ** Ingestion *)

(** C3, as amended: when every identifier of the input is below 2^32, the
    canonical edge set holds no pair (a, a) and no unordered pair twice;
    it holds the ascending pair (a, b) exactly when (a, b) or (b, a) was
    read, so that (3, 5) and (5, 3) give the one edge (3, 5). *)
Theorem canonical_edges_simple lines ce :
  canonical_edges lines = Ok ce ->
  ids_below (2 ^ 32) (edge_records lines) ->
  NoDup ce
  /\ (forall a, ~ In (a, a) ce)
  /\ (forall a b, In (a, b) ce -> ~ In (b, a) ce)
  /\ (forall a b, In (a, b) ce <->
        a < b /\ (In (a, b) (edge_records lines)
                  \/ In (b, a) (edge_records lines))).
Proof.
  intros Hce Hids. unfold canonical_edges in Hce.
  destruct (canonical_packed lines) as [uniq|] eqn:Hu; [|discriminate].
  cbn [bind] in Hce. injection Hce as <-.
  pose proof (in_canonical_edges lines uniq) as Hin.
  split; [now apply (canonical_edges_NoDup lines)|].
  split; [intros a Ha; apply (Hin a a Hu Hids) in Ha; lia|].
  split; [|intros a b; now apply Hin].
  intros a b Hab Hba.
  apply (Hin a b Hu Hids) in Hab. apply (Hin b a Hu Hids) in Hba. lia.
Qed.

Lemma canonical_edges_simple_witness :
  let ce := [(1, 2); (1, 3); (2, 3)] in
  NoDup ce
  /\ (forall a, ~ In (a, a) ce)
  /\ (forall a b, In (a, b) ce -> ~ In (b, a) ce)
  /\ (forall a b, In (a, b) ce <->
        a < b /\ (In (a, b) (edge_records scenario3)
                  \/ In (b, a) (edge_records scenario3))).
Proof.
  apply (canonical_edges_simple scenario3 [(1, 2); (1, 3); (2, 3)]).
  - vm_compute. reflexivity.
  - change (edge_records scenario3)
      with [(1, 2); (5, 5); (2, 1); (2, 3); (1, 2); (1, 3)].
    repeat (constructor; [split; reflexivity|]). constructor.
Defined.

(** C3 as stated fails on identifiers of 2^32 and more: the high bits of
    the larger endpoint are merged into the other half of the packed
    edge, here into the pair (1, 1). *)
Lemma canonical_edges_self_loop :
  edge_records ["1 4294967297"%string] = [(1, 4294967297)]
  /\ canonical_edges ["1 4294967297"%string] = Ok [(1, 1)].
Proof. split; vm_compute; reflexivity. Qed.

(** C8, as amended: every line that begins with '#' and every empty line
    is ignored by both passes; the tallies, the maximum identifier, the
    packed edges and the whole preprocessing are those of the input
    without these lines. *)
Theorem skipped_lines_ignored lines :
  pass1 (kept_lines lines) = pass1 lines
  /\ pass2 (kept_lines lines) = pass2 lines
  /\ canonical_edges (kept_lines lines) = canonical_edges lines
  /\ processGraph (kept_lines lines) = processGraph lines.
Proof.
  split; [apply pass1_kept|].
  split; [apply pass2_kept|].
  split; [|apply processGraph_kept].
  unfold canonical_edges, canonical_packed. now rewrite pass2_kept.
Qed.

(** C8 as stated fails on a blank line that is not empty: a line holding
    one space is counted as a record by the first pass, and the second
    pass ends the run on it. *)
Lemma blank_line_not_ignored :
  is_blank " " = true
  /\ officialEdgeCount (pass1 ["1 2"; " "]%string) = 2
  /\ officialEdgeCount (pass1 ["1 2"]%string) = 1
  /\ pass2 ["1 2"; " "]%string = Throw RangeError
  /\ pass2 ["1 2"]%string = Ok [4294967298].
Proof. repeat split; vm_compute; reflexivity. Qed.

(** C9, as amended: nothing is checked when the packed array is built.
    On record lines of two decimal identifiers below 2^53, which [Number]
    reads exactly, every record is packed, whatever the size of its
    identifiers; the packed value gives back (min, max) when both are
    below 2^32.  A run with an identifier of 2^32 - 1 or more still ends
    with a RangeError, raised after the packing, when the arrays of
    [maxNodeId + 1] slots are allocated. *)
Theorem packing_unchecked lines :
  well_formed lines ->
  ids_below (2 ^ 53) (edge_records lines) ->
  pass2 lines = Ok (packed_records (edge_records lines))
  /\ (forall a b, a < 2 ^ 32 -> b < 2 ^ 32 ->
        unpack (pack (N.min a b) (N.max a b) mod 2 ^ 64)
        = (N.min a b, N.max a b))
  /\ (max_array_length <= max_id (edge_records lines) ->
      processGraph lines = Throw RangeError).
Proof.
  intros Hwf _. split; [now apply pass2_well_formed|].
  split; [intros a b Ha Hb; apply unpack_pack; lia|].
  intros Hbig. unfold processGraph, orientedAdj_stage.
  rewrite canonical_packed_well_formed by assumption. cbn [bind].
  unfold array_from. rewrite (pass1_maxNodeId lines Hwf).
  destruct (N.ltb_spec max_array_length (max_id (edge_records lines) + 1));
    [reflexivity | lia].
Qed.

Lemma packing_unchecked_witness :
  pass2 scenario3 = Ok (packed_records (edge_records scenario3))
  /\ (forall a b, a < 2 ^ 32 -> b < 2 ^ 32 ->
        unpack (pack (N.min a b) (N.max a b) mod 2 ^ 64)
        = (N.min a b, N.max a b))
  /\ (max_array_length <= max_id (edge_records scenario3) ->
      processGraph scenario3 = Throw RangeError).
Proof.
  apply (packing_unchecked scenario3).
  - repeat (constructor;
            [first [left; reflexivity
                   | right; eexists; eexists; vm_compute; reflexivity]|]).
    constructor.
  - change (edge_records scenario3)
      with [(1, 2); (5, 5); (2, 1); (2, 3); (1, 2); (1, 3)].
    repeat (constructor; [split; reflexivity|]). constructor.
Defined.

(** C9 as stated fails: the record (0, 2^32) is not rejected when the
    packed array is built, and its packed value reads back as (1, 0). *)
Lemma packing_truncates_large_id :
  canonical_packed ["0 4294967296"%string] = Ok [4294967296]
  /\ unpack 4294967296 = (1, 0).
Proof. split; vm_compute; reflexivity. Qed.

(** ** Exactness *)

(** C1, as amended.  For the graph that the preprocessing produces: a node
    [w] is found in the intersection taken for [u]'s oriented edge to [v]
    exactly when {u, v, w} is a triangle with rank(u) < rank(v) < rank(w),
    so each triangle is found once, at its two lowest-ranked members; the
    amounts that the invocations add sum to the number of triangles; and
    the value read back is that number whenever it is below 2^32. *)
Theorem kernel_counts_triangles lines g degrees :
  processGraph lines = Ok g ->
  degrees_stage lines = Ok degrees ->
  let es := edge_records lines in
  let n := nodeCountForAllocation g in
  (forall u v w, u < n -> v < n ->
     (In v (row g u) /\ In w (row g u) /\ In w (row g v)) <->
     (is_triangle es u v w = true
      /\ rank_lt (load degrees) u v = true
      /\ rank_lt (load degrees) v w = true))
  /\ sumN (contribution (adj_offsets g) (adj_data g)) (node_ids n)
     = triangles es
  /\ (triangles es < 2 ^ 32 -> dispatch g = Some (triangles es)).
Proof.
  intros Hrun Hdeg es n. split; [|split].
  - intros u v w Hu Hv.
    rewrite (row_membership lines g degrees u v Hrun Hdeg Hu).
    rewrite (row_membership lines g degrees u w Hrun Hdeg Hu).
    rewrite (row_membership lines g degrees v w Hrun Hdeg Hv).
    fold es. unfold is_triangle. rewrite !andb_true_iff.
    pose proof (rank_lt_trans (load degrees) u v w). tauto.
  - destruct (run_facts lines g Hrun)
      as (_ & _ & _ & _ & _ & _ & _ & _ & Hcount & _).
    subst n. rewrite Hcount. apply (kernel_sum_triangles lines g Hrun).
  - intros Hfit. rewrite (dispatch_spec lines g Hrun).
    rewrite N.mod_small by assumption. reflexivity.
Qed.

Lemma kernel_counts_triangles_witness :
  let es := edge_records scenario1 in
  let g := scenario1_graph in
  let degrees := [0; 2; 2; 2] in
  let n := nodeCountForAllocation g in
  (forall u v w, u < n -> v < n ->
     (In v (row g u) /\ In w (row g u) /\ In w (row g v)) <->
     (is_triangle es u v w = true
      /\ rank_lt (load degrees) u v = true
      /\ rank_lt (load degrees) v w = true))
  /\ sumN (contribution (adj_offsets g) (adj_data g)) (node_ids n)
     = triangles es
  /\ (triangles es < 2 ^ 32 -> dispatch g = Some (triangles es)).
Proof.
  apply (kernel_counts_triangles scenario1 scenario1_graph [0; 2; 2; 2]);
    vm_compute; reflexivity.
Defined.

(** The scenarios of the specification, run through the whole program. *)
Example scenario1_count : triangleCount scenario1 = Ok (Some 1).
Proof. vm_compute. reflexivity. Qed.

Example scenario2_count :
  triangleCount ["1 2"; "1 3"; "1 4"; "2 3"; "2 4"; "3 4"]%string = Ok (Some 4).
Proof. vm_compute. reflexivity. Qed.

Example scenario3_count : triangleCount scenario3 = Ok (Some 1).
Proof. vm_compute. reflexivity. Qed.

Example scenario4_count :
  triangleCount ["1 2"; "2 3"; "3 4"]%string = Ok (Some 0).
Proof. vm_compute. reflexivity. Qed.

Example scenario5_count :
  triangleCount ["1 2"; "2 3"; "1 3"; "10 10"]%string = Ok (Some 1).
Proof. vm_compute. reflexivity. Qed.

(* ================================================================== *)
(** * Part IV: a run on which the counter wraps                        *)
(* ================================================================== *)

(** ** Decimal text is read back *)

Lemma digit_code d : d < 10 -> N_of_ascii (ascii_of_N (48 + d)) = 48 + d.
Proof.
  intros H. apply N_ascii_embedding. lia.
Qed.

Lemma digit_is_digit d : d < 10 -> is_digit (ascii_of_N (48 + d)) = true.
Proof.
  intros H. unfold is_digit. rewrite digit_code by assumption.
  apply andb_true_iff. split; apply N.leb_le; lia.
Qed.

Lemma is_digit_not_ws c : is_digit c = true -> is_ws c = false.
Proof.
  unfold is_digit, is_ws. intros H. apply andb_true_iff in H.
  destruct H as [H1 H2]. apply N.leb_le in H1. apply N.leb_le in H2.
  destruct (N.eqb_spec (N_of_ascii c) 32); [lia|].
  destruct (N.leb_spec 9 (N_of_ascii c)), (N.leb_spec (N_of_ascii c) 13);
    simpl; try reflexivity; lia.
Qed.

Lemma decimal_digits_value fuel : forall n acc,
  n < 10 ^ N.of_nat fuel ->
  fold_left (fun a c => 10 * a + (N_of_ascii c - 48)) (decimal_digits fuel n acc) 0
  = fold_left (fun a c => 10 * a + (N_of_ascii c - 48)) acc n.
Proof.
  induction fuel as [|fuel IH]; intros n acc Hn.
  - cbn [decimal_digits]. replace n with 0 by (simpl in Hn; lia). reflexivity.
  - cbn [decimal_digits].
    pose proof (N.mod_lt n 10 ltac:(lia)) as Hm.
    pose proof (N.div_mod n 10 ltac:(lia)) as Hd.
    destruct (N.ltb_spec n 10) as [Hlt|Hge].
    + cbn [fold_left]. rewrite digit_code by assumption.
      rewrite N.mod_small by assumption. f_equal. clear. lia.
    + rewrite IH.
      * cbn [fold_left]. rewrite digit_code by assumption. f_equal.
        clear - Hd. revert Hd. generalize (n / 10) (n mod 10). intros q d Hd. lia.
      * rewrite Nat2N.inj_succ, N.pow_succ_r' in Hn.
        apply N.Div0.div_lt_upper_bound. assumption.
Qed.

Lemma decimal_digits_digits fuel : forall n acc,
  forallb is_digit acc = true ->
  forallb is_digit (decimal_digits fuel n acc) = true.
Proof.
  induction fuel as [|fuel IH]; intros n acc Hacc; cbn [decimal_digits];
    [assumption|].
  pose proof (N.mod_lt n 10 ltac:(lia)) as Hm.
  assert (forallb is_digit (ascii_of_N (48 + n mod 10) :: acc) = true)
    by (cbn [forallb]; rewrite digit_is_digit by assumption; assumption).
  destruct (n <? 10); [assumption | now apply IH].
Qed.

Lemma decimal_digits_nonempty fuel n acc :
  decimal_digits (S fuel) n acc <> [].
Proof.
  cbn [decimal_digits]. destruct (n <? 10); [discriminate|].
  generalize (n / 10) as k.
  generalize (ascii_of_N (48 + n mod 10)) as c. revert acc.
  induction fuel as [|fuel IH]; intros acc c k; cbn [decimal_digits];
    [discriminate|].
  destruct (k <? 10); [discriminate | apply IH].
Qed.

Lemma decimal_fuel n : n < 10 ^ N.of_nat (S (N.to_nat (N.log2 n))).
Proof.
  rewrite Nat2N.inj_succ, N2Nat.id.
  destruct (N.eq_dec n 0) as [->|Hn]; [reflexivity|].
  pose proof (N.log2_spec n ltac:(lia)) as [_ H].
  eapply N.lt_le_trans; [exact H|].
  apply N.pow_le_mono_l. lia.
Qed.

Lemma to_number_decimal n : to_number (decimal n) = JNum n.
Proof.
  unfold to_number, decimal.
  rewrite decimal_digits_digits by reflexivity.
  rewrite decimal_digits_value by apply decimal_fuel. reflexivity.
Qed.

Lemma decimal_digits_only n : forallb is_digit (decimal n) = true.
Proof. apply decimal_digits_digits. reflexivity. Qed.

Lemma decimal_nonempty n : decimal n <> [].
Proof. apply decimal_digits_nonempty. Qed.

(** ** The line of a record is parsed to the record *)

Lemma drop_ws_digits c s : is_ws c = false -> drop_ws (c :: s) = c :: s.
Proof. intros H. cbn [drop_ws]. now rewrite H. Qed.

Lemma split_go_token tok : forall s pre,
  forallb is_digit tok = true ->
  split_go (tok ++ s) pre false = split_go s (pre ++ tok) false.
Proof.
  induction tok as [|c tok IH]; intros s pre H.
  - now rewrite app_nil_r.
  - cbn [forallb] in H. apply andb_true_iff in H. destruct H as [Hc H].
    cbn [app split_go]. rewrite (is_digit_not_ws c Hc).
    rewrite IH by assumption. now rewrite <- app_assoc.
Qed.

Lemma split_go_token_any tok s pre flag :
  forallb is_digit tok = true -> tok <> [] ->
  split_go (tok ++ s) pre flag = split_go s (pre ++ tok) false.
Proof.
  intros H Hne. destruct tok as [|c tok]; [contradiction|].
  cbn [forallb] in H. apply andb_true_iff in H. destruct H as [Hc H].
  cbn [app split_go]. rewrite (is_digit_not_ws c Hc).
  rewrite split_go_token by assumption. now rewrite <- app_assoc.
Qed.

Lemma forallb_digit_last l :
  forallb is_digit l = true -> l <> [] ->
  exists c r, rev l = c :: r /\ is_ws c = false.
Proof.
  intros H Hne. destruct (rev l) as [|c r] eqn:E.
  - apply (f_equal (@rev ascii)) in E. rewrite rev_involutive in E. contradiction.
  - exists c, r. split; [reflexivity|]. apply is_digit_not_ws.
    rewrite forallb_forall in H. apply H. apply in_rev. rewrite E. now left.
Qed.

Lemma trim_id s :
  (exists c r, s = c :: r /\ is_ws c = false) ->
  (exists d t, rev s = d :: t /\ is_ws d = false) ->
  trim s = s.
Proof.
  intros (c & r & -> & Hc) (d & t & E & Hd). unfold trim.
  rewrite drop_ws_digits by assumption. rewrite E.
  rewrite drop_ws_digits by assumption. rewrite <- E. apply rev_involutive.
Qed.

Lemma parse_record_line a b : parse_line (record_line a b) = (JNum a, JNum b).
Proof.
  unfold parse_line, record_line.
  rewrite list_ascii_of_string_of_list_ascii.
  pose proof (decimal_digits_only a) as Ha.
  pose proof (decimal_digits_only b) as Hb.
  assert (Htrim : trim (decimal a ++ " "%char :: decimal b)
                  = decimal a ++ " "%char :: decimal b).
  { apply trim_id.
    - destruct (decimal a) as [|c r] eqn:Ea; [now apply decimal_nonempty in Ea|].
      exists c, (r ++ " "%char :: decimal b). split; [reflexivity|].
      apply is_digit_not_ws. cbn [forallb] in Ha.
      apply andb_true_iff in Ha. tauto.
    - destruct (forallb_digit_last (decimal b) Hb (decimal_nonempty b))
        as (d & rb & Eb & Hd).
      exists d, (rb ++ " "%char :: rev (decimal a)). split; [|assumption].
      rewrite rev_app_distr. cbn [rev]. rewrite Eb.
      rewrite <- !app_assoc. reflexivity. }
  rewrite Htrim. unfold split_ws.
  rewrite (split_go_token (decimal a) _ []) by assumption.
  cbn [app split_go is_ws N_of_ascii]. 
  change (is_ws " "%char) with true. cbn iota.
  rewrite <- (app_nil_r (decimal b)).
  rewrite (split_go_token_any (decimal b) [] [] true Hb (decimal_nonempty b)).
  cbn [split_go app map nth]. now rewrite !to_number_decimal.
Qed.

Lemma record_line_kept a b : skipped (record_line a b) = false.
Proof.
  unfold skipped, record_line.
  pose proof (decimal_digits_only a) as Ha.
  destruct (decimal a) as [|c r] eqn:Ea; [now apply decimal_nonempty in Ea|].
  cbn [app string_of_list_ascii is_empty_line starts_with_hash orb].
  cbn [forallb] in Ha. apply andb_true_iff in Ha. destruct Ha as [Hc _].
  destruct (Ascii.eqb_spec c "#"%char) as [->|]; [discriminate | reflexivity].
Qed.

(** ** Runs that complete *)

Lemma push_all_total row : forall flat,
  N.of_nat (length flat + length row) <= max_array_length ->
  push_all flat row = Ok (flat ++ row).
Proof.
  induction row as [|x r IH]; intros flat H; cbn [push_all].
  - now rewrite app_nil_r.
  - unfold js_push. cbn [length] in H.
    destruct (N.eqb_spec (N.of_nat (length flat)) max_array_length); [lia|].
    cbn [bind]. rewrite IH by (rewrite length_app; simpl; lia).
    now rewrite <- app_assoc.
Qed.

Lemma csr_loop_total rows : forall i offs flat cur,
  N.of_nat (length flat + length (concat rows)) <= max_array_length ->
  exists r, csr_loop rows i offs flat cur = Ok r.
Proof.
  induction rows as [|row rest IH]; intros i offs flat cur H; cbn [csr_loop].
  - eauto.
  - cbn [concat] in H. rewrite length_app in H.
    rewrite push_all_total by (rewrite sort_asc_length; lia).
    cbn [bind]. apply IH. rewrite length_app, sort_asc_length. lia.
Qed.

Lemma row_length_le_concat (rows : list (list N)) k row :
  nth_error rows k = Some row -> (length row <= length (concat rows))%nat.
Proof.
  revert k; induction rows as [|h t IH]; intros [|k] H; simpl in H;
    try discriminate; cbn [concat]; rewrite length_app.
  - injection H as ->. lia.
  - apply IH in H. lia.
Qed.

Lemma push_at_concat_length rows i y rows' :
  push_at rows i y = Ok rows' ->
  length (concat rows') = S (length (concat rows))
  /\ length rows' = length rows.
Proof.
  unfold push_at, js_push.
  destruct (nth_error rows (N.to_nat i)) as [r|] eqn:Hr; [|discriminate].
  destruct (N.of_nat (length r) =? max_array_length); [discriminate|].
  cbn [bind]. intros H. injection H as <-.
  split; [|apply list_set_length].
  revert Hr. generalize (N.to_nat i) as k. clear.
  induction rows as [|h t IH]; intros [|k] Hr; simpl in Hr; try discriminate.
  - injection Hr as ->. cbn [list_set concat].
    rewrite !length_app. cbn [length]. lia.
  - cbn [list_set concat]. rewrite !length_app. rewrite (IH k Hr). lia.
Qed.

Lemma push_at_total rows i y :
  (N.to_nat i < length rows)%nat ->
  N.of_nat (length (concat rows)) < max_array_length ->
  exists rows', push_at rows i y = Ok rows'.
Proof.
  intros Hi Hlen. unfold push_at, js_push.
  destruct (nth_error rows (N.to_nat i)) as [r|] eqn:Hr.
  - pose proof (row_length_le_concat rows _ r Hr).
    destruct (N.eqb_spec (N.of_nat (length r)) max_array_length); [lia|].
    cbn [bind]. eauto.
  - apply nth_error_None in Hr. lia.
Qed.

Lemma orient_loop_total degrees uniq : forall rows0,
  (forall p, In p uniq -> (N.to_nat (hi32 p) < length rows0)%nat
                          /\ (N.to_nat (lo32 p) < length rows0)%nat) ->
  N.of_nat (length (concat rows0) + length uniq) <= max_array_length ->
  exists rows, orient_loop degrees uniq rows0 = Ok rows.
Proof.
  induction uniq as [|p r IH]; intros rows0 Hidx Hlen; cbn [orient_loop].
  - eauto.
  - cbn [length] in Hlen.
    destruct (Hidx p (or_introl eq_refl)) as [Hh Hl].
    assert (Hpush : exists rows1,
              (if oriented_forward degrees (hi32 p) (lo32 p)
               then push_at rows0 (hi32 p) (lo32 p)
               else push_at rows0 (lo32 p) (hi32 p)) = Ok rows1
              /\ length (concat rows1) = S (length (concat rows0))
              /\ length rows1 = length rows0).
    { destruct (oriented_forward degrees (hi32 p) (lo32 p)).
      - destruct (push_at_total rows0 (hi32 p) (lo32 p) Hh ltac:(lia)) as [rows1 E].
        exists rows1. split; [assumption|]. eapply push_at_concat_length; eauto.
      - destruct (push_at_total rows0 (lo32 p) (hi32 p) Hl ltac:(lia)) as [rows1 E].
        exists rows1. split; [assumption|]. eapply push_at_concat_length; eauto. }
    destruct Hpush as (rows1 & -> & Hc & Hl1). cbn [bind].
    apply IH.
    + intros q Hq. rewrite Hl1. apply Hidx. now right.
    + lia.
Qed.

Lemma edge_records_length lines :
  (length (edge_records lines) <= length lines)%nat.
Proof.
  induction lines as [|l r IH]; [simpl; lia|].
  rewrite edge_records_cons, length_app. cbn [length].
  destruct (skipped l); [simpl; lia|].
  destruct (parse_line l) as [[a| |] [b| |]]; simpl; lia.
Qed.

Lemma packed_records_length es : (length (packed_records es) <= length es)%nat.
Proof.
  induction es as [|e r IH]; [simpl; lia|].
  unfold packed_records in *. cbn [flat_map]. rewrite length_app. cbn [length].
  destruct (fst e =? snd e); cbn [length Nat.add]; lia.
Qed.

Lemma dedup_from_length l : forall prev,
  (length (dedup_from prev l) <= length l)%nat.
Proof.
  induction l as [|x r IH]; intros prev; cbn [dedup_from]; [lia|].
  specialize (IH x). destruct (x =? prev); cbn [length]; lia.
Qed.

Lemma dedup_adjacent_length l : (length (dedup_adjacent l) <= length l)%nat.
Proof.
  destruct l as [|x r]; cbn [dedup_adjacent length]; [lia|].
  pose proof (dedup_from_length r x). lia.
Qed.

(** A run on records of two numbers completes when the identifiers and
    the number of lines are within the limits of a JavaScript array. *)
Lemma processGraph_completes lines :
  well_formed lines ->
  max_id (edge_records lines) + 1 <= max_array_length ->
  N.of_nat (length lines) <= max_array_length ->
  exists g, processGraph lines = Ok g.
Proof.
  intros Hwf Hn Hlen.
  set (es := edge_records lines) in *. set (n := max_id es + 1) in *.
  set (uniq := dedup_adjacent (sort_asc (packed_records es))).
  assert (Hu : canonical_packed lines = Ok uniq)
    by (now apply canonical_packed_well_formed).
  assert (Hul : N.of_nat (length uniq) <= max_array_length).
  { pose proof (dedup_adjacent_length (sort_asc (packed_records es))) as H1.
    rewrite sort_asc_length in H1.
    pose proof (packed_records_length es). 
    pose proof (edge_records_length lines). fold es in H0. fold uniq in H1. lia. }
  assert (Hsmall : max_id (edge_records lines) + 1 <= 2 ^ 32)
    by (fold es; fold n; unfold max_array_length in Hn; lia).
  destruct (orient_loop_total (degrees_of n uniq) uniq (repeat [] (N.to_nat n)))
    as [rows Hrows].
  { intros p Hp. rewrite repeat_length.
    destruct (uniq_edge lines uniq Hu Hsmall p Hp) as (H1 & H2 & _).
    fold es in H2. unfold n. lia. }
  { replace (length (concat (repeat (@nil N) (N.to_nat n)))) with O; [lia|].
    clear. induction (N.to_nat n); simpl; auto. }
  assert (Hstage : orientedAdj_stage lines = Ok rows).
  { unfold orientedAdj_stage. rewrite Hu. cbn [bind]. unfold array_from.
    rewrite (pass1_maxNodeId lines Hwf). fold es. fold n.
    destruct (N.ltb_spec max_array_length n); [lia|]. exact Hrows. }
  destruct (orient_stage_facts lines rows Hstage)
    as (uniq' & _ & Hu' & _ & _ & _ & _ & _ & Htotal).
  rewrite Hu in Hu'. injection Hu' as <-.
  unfold processGraph. rewrite Hstage. cbn [bind].
  destruct (csr_loop_total rows 0
              (new_typed_array (maxNodeId (pass1 lines) + 1 + 1)) [] 0)
    as [[[offs flat] cur] Hcsr].
  { cbn [length Nat.add]. rewrite Htotal. assumption. }
  rewrite Hcsr. cbn [bind]. eauto.
Qed.

(** ** The complete graph as an input *)

Lemma edge_records_app l1 l2 :
  edge_records (l1 ++ l2) = edge_records l1 ++ edge_records l2.
Proof. unfold edge_records. apply flat_map_app. Qed.

Lemma edge_records_record_lines a bs :
  edge_records (map (record_line a) bs) = map (fun b => (a, b)) bs.
Proof.
  induction bs as [|b bs IH]; [reflexivity|].
  cbn [map]. rewrite edge_records_cons, record_line_kept, parse_record_line.
  cbn [app]. now rewrite IH.
Qed.

Lemma edge_records_clique n : edge_records (clique_lines n) = all_pairs n.
Proof.
  unfold clique_lines, all_pairs.
  induction (node_ids n) as [|a r IH] at 2 4; [reflexivity|].
  cbn [flat_map]. now rewrite edge_records_app, edge_records_record_lines, IH.
Qed.

Lemma well_formed_clique n : well_formed (clique_lines n).
Proof.
  unfold well_formed, clique_lines. rewrite Forall_forall. intros l Hl.
  apply in_flat_map in Hl. destruct Hl as (a & _ & Hl).
  apply in_map_iff in Hl. destruct Hl as (b & <- & _).
  right. exists a, b. apply parse_record_line.
Qed.

Lemma node_ids_length n : length (node_ids n) = N.to_nat n.
Proof. unfold node_ids. now rewrite length_map, length_seq. Qed.

Lemma clique_lines_length n : N.of_nat (length (clique_lines n)) = n * n.
Proof.
  unfold clique_lines.
  assert (H : forall l : list N,
            length (flat_map (fun a => map (record_line a) (node_ids n)) l)
            = (length l * N.to_nat n)%nat).
  { induction l as [|a l IH]; [reflexivity|].
    cbn [flat_map]. rewrite length_app, length_map, node_ids_length, IH.
    cbn [length]. lia. }
  rewrite H, node_ids_length. lia.
Qed.

Lemma in_all_pairs n a b : In (a, b) (all_pairs n) <-> a < n /\ b < n.
Proof.
  unfold all_pairs. rewrite in_flat_map. split.
  - intros (x & Hx & H). apply in_map_iff in H. destruct H as (y & E & Hy).
    injection E as <- <-. now rewrite <- !node_ids_In.
  - intros [Ha Hb]. exists a. rewrite node_ids_In. split; [assumption|].
    apply in_map_iff. exists b. now rewrite node_ids_In.
Qed.

Lemma max_id_fold_upper es bound : forall m,
  m <= bound ->
  (forall e, In e es -> fst e <= bound /\ snd e <= bound) ->
  fold_left (fun m e => N.max m (N.max (fst e) (snd e))) es m <= bound.
Proof.
  induction es as [|e r IH]; intros m Hm H; cbn [fold_left]; [assumption|].
  apply IH.
  - destruct (H e (or_introl eq_refl)). lia.
  - intros e' He'. apply H. now right.
Qed.

Lemma max_id_all_pairs n : 0 < n -> max_id (all_pairs n) + 1 = n.
Proof.
  intros Hn.
  assert (max_id (all_pairs n) <= n - 1).
  { apply max_id_fold_upper; [lia|]. intros [a b] H.
    apply in_all_pairs in H. cbn [fst snd]. lia. }
  assert (In (n - 1, n - 1) (all_pairs n)) as Hin
    by (apply in_all_pairs; lia).
  apply max_id_bound in Hin. cbn [fst snd] in Hin. lia.
Qed.

Lemma adjacent_all_pairs n a b :
  a < n -> b < n -> a <> b -> adjacent (all_pairs n) a b = true.
Proof.
  intros Ha Hb Hne. apply adjacent_spec. split; [assumption|].
  left. now apply in_all_pairs.
Qed.

(** ** A lower bound on the triangles of the complete graph *)

Lemma sumN_ge_count {A : Type} (P : A -> bool) (f : A -> N) (k : N) l :
  (forall x, In x l -> P x = true -> k <= f x) ->
  N.of_nat (length (filter P l)) * k <= sumN f l.
Proof.
  induction l as [|x l IH]; intros H; [simpl; lia|].
  cbn [filter]. rewrite sumN_cons.
  assert (IH' : N.of_nat (length (filter P l)) * k <= sumN f l)
    by (apply IH; intros y Hy; apply H; now right).
  destruct (P x) eqn:Hx.
  - pose proof (H x (or_introl eq_refl) Hx). cbn [length]. lia.
  - lia.
Qed.

Lemma filter_none {A : Type} (P : A -> bool) l :
  (forall x, In x l -> P x = false) -> filter P l = [].
Proof.
  induction l as [|x l IH]; intros H; [reflexivity|].
  cbn [filter]. rewrite (H x (or_introl eq_refl)).
  apply IH. intros y Hy. apply H. now right.
Qed.

Lemma filter_all {A : Type} (P : A -> bool) l :
  (forall x, In x l -> P x = true) -> filter P l = l.
Proof.
  induction l as [|x l IH]; intros H; [reflexivity|].
  cbn [filter]. rewrite (H x (or_introl eq_refl)). f_equal.
  apply IH. intros y Hy. apply H. now right.
Qed.

Lemma count_in_range lo hi n :
  lo <= hi -> hi <= n ->
  N.of_nat (length (filter (fun x => (lo <=? x) && (x <? hi)) (node_ids n)))
  = hi - lo.
Proof.
  intros Hlo Hhi.
  rewrite (node_ids_split hi n Hhi), (node_ids_split lo hi Hlo).
  rewrite !filter_app.
  rewrite (filter_none _ (node_ids lo)).
  2:{ intros x Hx. apply node_ids_In in Hx.
      destruct (N.leb_spec lo x); [lia | reflexivity]. }
  rewrite (filter_all _ (map N.of_nat (seq (N.to_nat lo) (N.to_nat (hi - lo))))).
  2:{ intros x Hx. apply in_map_iff in Hx. destruct Hx as (k & <- & Hk).
      apply in_seq in Hk. apply andb_true_iff.
      split; [apply N.leb_le | apply N.ltb_lt]; lia. }
  rewrite (filter_none _ (map N.of_nat (seq (N.to_nat hi) (N.to_nat (n - hi))))).
  2:{ intros x Hx. apply in_map_iff in Hx. destruct Hx as (k & <- & Hk).
      apply in_seq in Hk.
      destruct (N.ltb_spec (N.of_nat k) hi); [lia | apply andb_false_r]. }
  cbn [app]. rewrite app_nil_r, length_map, length_seq. lia.
Qed.

(** The complete graph on [3 * m] nodes has at least [m * m * m]
    triangles: one for every choice of a node below [m], a node of
    [m, 2m) and a node of [2m, 3m). *)
Lemma triangles_all_pairs m :
  0 < m -> m * m * m <= triangles (all_pairs (3 * m)).
Proof.
  intros Hm. unfold triangles.
  rewrite max_id_all_pairs by lia.
  set (n := 3 * m). set (ns := node_ids n).
  set (PA := fun x => (0 <=? x) && (x <? m)).
  set (PB := fun x => (m <=? x) && (x <? 2 * m)).
  set (PC := fun x => (2 * m <=? x) && (x <? 3 * m)).
  assert (HA : N.of_nat (length (filter PA ns)) = m)
    by (unfold PA, ns, n; rewrite count_in_range; lia).
  assert (HB : N.of_nat (length (filter PB ns)) = m)
    by (unfold PB, ns, n; rewrite count_in_range; lia).
  assert (HC : N.of_nat (length (filter PC ns)) = m)
    by (unfold PC, ns, n; rewrite count_in_range; lia).
  etransitivity; [|apply (sumN_ge_count PA _ (m * m))].
  { rewrite HA. lia. }
  intros a _ Ha.
  etransitivity; [|apply (sumN_ge_count PB _ m)].
  { rewrite HB. lia. }
  intros b _ Hb.
  etransitivity; [|apply (sumN_ge_count PC _ 1)].
  { rewrite HC. lia. }
  intros c _ Hc.
  unfold PA, PB, PC in Ha, Hb, Hc.
  apply andb_true_iff in Ha, Hb, Hc.
  rewrite !N.leb_le, !N.ltb_lt in Ha, Hb, Hc.
  destruct (N.ltb_spec a b); [|lia]. destruct (N.ltb_spec b c); [|lia].
  unfold is_triangle. rewrite !adjacent_all_pairs by (unfold n; lia).
  cbn. lia.
Qed.

Lemma some_eq {A : Type} (a b : A) : Some a = Some b -> a = b.
Proof. congruence. Qed.

(** C1 as stated fails when the graph has 2^32 triangles or more: on the
    complete graph on 4878 nodes, which has more than 1626^3 of them, the
    run completes and the value read back is not the number of
    triangles. *)
Lemma result_wraps_on_clique :
  exists g,
    processGraph (clique_lines 4878) = Ok g
    /\ dispatch g <> Some (triangles (edge_records (clique_lines 4878))).
Proof.
  destruct (processGraph_completes (clique_lines 4878)) as [g Hg].
  - apply well_formed_clique.
  - rewrite edge_records_clique, max_id_all_pairs by reflexivity. discriminate.
  - rewrite clique_lines_length. discriminate.
  - exists g. split; [assumption|].
    rewrite (dispatch_spec _ g Hg), edge_records_clique.
    pose proof (triangles_all_pairs 1626 eq_refl) as Hbig.
    change (3 * 1626) with 4878 in Hbig.
    intros E. apply some_eq in E.
    pose proof (N.mod_lt (triangles (all_pairs 4878)) (2 ^ 32) ltac:(lia)) as Hlt.
    rewrite E in Hlt. revert Hbig Hlt.
    generalize (triangles (all_pairs 4878)). intros t Hbig Hlt. lia.
Qed.

(** ** The order of the invocations *)

(** X11. The invocations may run in any order: the additions commute, and
    what an invocation adds does not depend on the counter, so every
    ordering of the invocations leaves the value of the dispatch in the
    counter. *)
Lemma dispatch_order_irrelevant lines g ids :
  processGraph lines = Ok g ->
  Permutation ids (invocations (nodeCountForAllocation g)) ->
  run_invocations (adj_offsets g) (adj_data g) ids 0 = dispatch g.
Proof.
  intros Hrun Hperm. destruct (run_facts lines g Hrun)
    as (uniq & degrees & rows & _ & _ & _ & _ & _ & Hcount & _ & _ & _ & _ & _ & Hok).
  unfold dispatch. rewrite Hcount in *.
  rewrite !(run_invocations_spec _ _ _ Hok) by lia.
  now rewrite (sumN_perm _ _ _ Hperm).
Qed.

(* ================================================================== *)
(** * Part V: further properties of the code                           *)
(* ================================================================== *)

(** ** Lines with fewer than two tokens *)

Lemma parse_line_short line :
  (length (split_ws (trim (list_ascii_of_string line))) < 2)%nat ->
  exists node1, parse_line line = (node1, JUndefined) /\ node1 <> JUndefined.
Proof.
  intros Hlen. unfold parse_line.
  pose proof (split_go_nonempty (trim (list_ascii_of_string line)) [] false) as Hne.
  fold (split_ws (trim (list_ascii_of_string line))) in Hne.
  destruct (split_ws (trim (list_ascii_of_string line))) as [|tok [|tok' toks]];
    [contradiction | | cbn [length] in Hlen; lia].
  cbn [map nth]. exists (to_number tok). split; [reflexivity|].
  apply to_number_defined.
Qed.

Lemma pass2_loop_short line lines : 
  In line lines -> skipped line = false ->
  (length (split_ws (trim (list_ascii_of_string line))) < 2)%nat ->
  forall arr k, pass2_loop lines arr k = Throw RangeError.
Proof.
  intros Hin Hs Hlen.
  induction lines as [|line' rest IH]; [contradiction|]. intros arr k.
  destruct (skipped line') eqn:Hs'.
  - rewrite pass2_loop_skipped by assumption. apply IH.
    destruct Hin as [->|Hin]; [congruence | assumption].
  - rewrite pass2_loop_record by assumption.
    destruct Hin as [->|Hin].
    + destruct (parse_line_short line Hlen) as (node1 & -> & Hn1).
      destruct node1 as [a| |]; [reflexivity | reflexivity | contradiction].
    + destruct (parse_line line') as [[a| |] [b| |]];
        cbn [strict_eq math_min math_max to_bigint bind];
        try reflexivity; try (apply IH; assumption).
      destruct (a =? b); apply IH; assumption.
Qed.

(** X1. A record line with fewer than two tokens ends the run.  When a
    line of ASCII text that is not skipped holds only white space (the
    carriage return of an empty line of a CRLF file, say) or a single
    token, [node2] is [undefined], [Math.min] gives [NaN] and [BigInt]
    throws: the second pass ends with a RangeError, and so does the
    preprocessing, whatever the other lines hold. *)
Theorem short_line_ends_run lines line :
  In line lines -> skipped line = false -> ascii_line line = true ->
  (length (split_ws (trim (list_ascii_of_string line))) < 2)%nat ->
  pass2 lines = Throw RangeError /\ processGraph lines = Throw RangeError.
Proof.
  intros Hin Hs _ Hlen.
  assert (E : pass2 lines = Throw RangeError)
    by (apply (pass2_loop_short line); assumption).
  split; [assumption|].
  unfold processGraph, orientedAdj_stage, canonical_packed.
  rewrite E. reflexivity.
Qed.

Lemma short_line_ends_run_witness :
  pass2 ["1 2"; "   "; "2 3"]%string = Throw RangeError
  /\ processGraph ["1 2"; "   "; "2 3"]%string = Throw RangeError.
Proof.
  apply (short_line_ends_run ["1 2"; "   "; "2 3"]%string "   "%string).
  - right. left. reflexivity.
  - reflexivity.
  - reflexivity.
  - vm_compute. lia.
Defined.

(** ** The tallies of pass 1 *)

Lemma same_value_zero_eq x y : same_value_zero x y = true <-> x = y.
Proof.
  destruct x as [a| |], y as [b| |]; simpl; try (split; congruence).
  rewrite N.eqb_eq. split; congruence.
Qed.

Lemma set_add_In x s v : In v (set_add x s) <-> v = x \/ In v s.
Proof.
  unfold set_add. destruct (existsb (same_value_zero x) s) eqn:E.
  - split; [auto|]. intros [->|H]; [|assumption].
    apply existsb_exists in E. destruct E as (y & Hy & E).
    apply same_value_zero_eq in E. now subst.
  - rewrite in_app_iff. simpl. intuition.
Qed.

Lemma set_add_NoDup x s : NoDup s -> NoDup (set_add x s).
Proof.
  intros H. unfold set_add. destruct (existsb (same_value_zero x) s) eqn:E;
    [assumption|].
  apply NoDup_app; [assumption | repeat constructor; auto |].
  intros y Hy [E'|[]]. subst y.
  assert (existsb (same_value_zero x) s = true); [|congruence].
  apply existsb_exists. exists x. split; [assumption|].
  now apply same_value_zero_eq.
Qed.

Lemma pass1_officialEdgeCount_fold lines : forall st,
  officialEdgeCount (fold_left pass1_step lines st)
  = officialEdgeCount st + N.of_nat (length (kept_lines lines)).
Proof.
  induction lines as [|line rest IH]; intros st; [simpl; lia|].
  cbn [fold_left]. rewrite IH. unfold kept_lines. cbn [filter].
  destruct (skipped line) eqn:Hs; cbn [negb].
  - rewrite pass1_step_skipped by assumption. reflexivity.
  - unfold pass1_step. unfold skipped in Hs.
    destruct (is_empty_line line); [discriminate|]. simpl in Hs. rewrite Hs.
    destruct (parse_line line). cbn [officialEdgeCount length]. lia.
Qed.

Lemma pass1_ids_fold lines : 
  well_formed lines -> forall st,
  NoDup (uniqueNodeIds st) ->
  NoDup (uniqueNodeIds (fold_left pass1_step lines st))
  /\ forall v, In v (uniqueNodeIds (fold_left pass1_step lines st)) <->
       In v (uniqueNodeIds st)
       \/ exists x, v = JNum x /\ In x (record_ids (edge_records lines)).
Proof.
  induction 1 as [|line rest Hl _ IH]; intros st Hnd.
  - simpl. split; [assumption|]. intros v. split; [auto|].
    intros [H|(x & _ & [])]; assumption.
  - cbn [fold_left]. rewrite edge_records_cons.
    destruct (skipped line) eqn:Hs.
    + rewrite pass1_step_skipped by assumption. now apply IH.
    + destruct Hl as [Hl | (a & b & Hp)]; [congruence|].
      rewrite (pass1_step_record st line a b Hs Hp), Hp.
      match goal with |- context [fold_left pass1_step rest ?s] =>
        destruct (IH s) as [IH1 IH2] end.
      { cbn [uniqueNodeIds]. now apply set_add_NoDup, set_add_NoDup. }
      split; [assumption|]. intros v. rewrite IH2. cbn [uniqueNodeIds].
      rewrite !set_add_In. unfold record_ids. cbn [app flat_map fst snd In].
      fold (record_ids (edge_records rest)).
      split.
      * intros [[->|[->|H]]|(x & -> & H)]; eauto 8.
      * intros [H|(x & -> & [<-|[<-|H]])]; eauto 8.
Qed.

(** X2. The statistics that the run reports, on record lines of two
    decimal identifiers below 2^53 and fewer than 2^53 lines, where the
    Numbers are exact.  The official edge count is the number of lines
    read as records, repeated records and self-loops included; the
    official node count is the number of distinct identifiers on them; the
    maximum identifier and the number of records with two distinct
    endpoints are as their names say. *)
Theorem pass1_statistics lines :
  well_formed lines ->
  ids_below (2 ^ 53) (edge_records lines) ->
  N.of_nat (length lines) < 2 ^ 53 ->
  let st := pass1 lines in
  let es := edge_records lines in
  officialEdgeCount st = N.of_nat (length (kept_lines lines))
  /\ validEdgeCount st
     = N.of_nat (length (filter (fun e => negb (fst e =? snd e)) es))
  /\ maxNodeId st = max_id es
  /\ NoDup (uniqueNodeIds st)
  /\ forall v, In v (uniqueNodeIds st) <->
       exists x, v = JNum x /\ In x (record_ids es).
Proof.
  intros Hwf _ _ st es. subst st es.
  split; [apply (pass1_officialEdgeCount_fold lines pass1_init)|].
  split.
  { rewrite (pass1_validEdgeCount lines Hwf). f_equal.
    unfold packed_records. generalize (edge_records lines) as es.
    induction es as [|e r IH]; [reflexivity|].
    cbn [flat_map filter]. rewrite length_app, IH.
    destruct (fst e =? snd e); reflexivity. }
  split; [apply (pass1_maxNodeId lines Hwf)|].
  destruct (pass1_ids_fold lines Hwf pass1_init) as [H1 H2]; [constructor|].
  split; [assumption|]. intros v. unfold pass1. rewrite (H2 v).
  cbn [pass1_init uniqueNodeIds In]. tauto.
Qed.

Lemma pass1_statistics_witness :
  let st := pass1 scenario3 in
  let es := edge_records scenario3 in
  officialEdgeCount st = N.of_nat (length (kept_lines scenario3))
  /\ validEdgeCount st
     = N.of_nat (length (filter (fun e => negb (fst e =? snd e)) es))
  /\ maxNodeId st = max_id es
  /\ NoDup (uniqueNodeIds st)
  /\ forall v, In v (uniqueNodeIds st) <->
       exists x, v = JNum x /\ In x (record_ids es).
Proof.
  apply (pass1_statistics scenario3).
  - repeat (constructor;
            [first [left; reflexivity
                   | right; eexists; eexists; vm_compute; reflexivity]|]).
    constructor.
  - change (edge_records scenario3)
      with [(1, 2); (5, 5); (2, 1); (2, 3); (1, 2); (1, 3)].
    repeat (constructor; [split; reflexivity|]). constructor.
  - reflexivity.
Defined.

(** ** The deduplication loops *)

(** X3. On an ascending array of 64-bit values, the counting loop and the
    filling loop agree: the unique array has exactly [uniqueEdgeCount]
    slots, all filled, it is strictly ascending, and it holds the same
    values as the input. *)
Theorem unique_of_sorted allPackedEdges :
  Forall (fun x => x < 2 ^ 64) allPackedEdges ->
  StronglySorted N.le allPackedEdges ->
  N.of_nat (length (uniquePackedEdges allPackedEdges))
  = uniqueEdgeCount allPackedEdges
  /\ StronglySorted N.lt (uniquePackedEdges allPackedEdges)
  /\ forall x, In x (uniquePackedEdges allPackedEdges) <-> In x allPackedEdges.
Proof.
  intros Hfit Hs. rewrite uniquePackedEdges_dedup by assumption.
  split; [symmetry; apply uniqueEdgeCount_length|].
  now apply dedup_adjacent_sorted.
Qed.

Lemma unique_of_sorted_witness :
  N.of_nat (length (uniquePackedEdges [3; 3; 5; 8; 8; 8]))
  = uniqueEdgeCount [3; 3; 5; 8; 8; 8]
  /\ StronglySorted N.lt (uniquePackedEdges [3; 3; 5; 8; 8; 8])
  /\ forall x, In x (uniquePackedEdges [3; 3; 5; 8; 8; 8])
               <-> In x [3; 3; 5; 8; 8; 8].
Proof.
  apply (unique_of_sorted [3; 3; 5; 8; 8; 8]).
  - repeat (constructor; [reflexivity|]). constructor.
  - repeat (constructor; [|repeat (constructor; [discriminate|]); constructor]).
    constructor.
Defined.

(** ** Order of the packed edges *)

(** X4. For identifiers below 2^32 the packed values are ordered as the
    pairs are, first by the smaller endpoint and then by the larger one,
    so the numeric sort of the packed array sorts the edges
    lexicographically and brings equal edges together. *)
Theorem pack_lexicographic u v u' v' :
  u < 2 ^ 32 -> v < 2 ^ 32 -> u' < 2 ^ 32 -> v' < 2 ^ 32 ->
  (pack u v mod 2 ^ 64 < pack u' v' mod 2 ^ 64
   <-> u < u' \/ (u = u' /\ v < v'))
  /\ (pack u v mod 2 ^ 64 = pack u' v' mod 2 ^ 64 <-> u = u' /\ v = v').
Proof.
  intros Hu Hv Hu' Hv'.
  rewrite !pack_fits, !pack_value by assumption.
  change (2 ^ 32) with 4294967296 in *. split; lia.
Qed.

Lemma pack_lexicographic_witness :
  (pack 1 7 mod 2 ^ 64 < pack 2 3 mod 2 ^ 64 <-> 1 < 2 \/ (1 = 2 /\ 7 < 3))
  /\ (pack 1 7 mod 2 ^ 64 = pack 2 3 mod 2 ^ 64 <-> 1 = 2 /\ 7 = 3).
Proof.
  apply (pack_lexicographic 1 7 2 3); reflexivity.
Defined.

(** ** White space around the tokens *)

Lemma drop_ws_spaces w s : forallb is_ws w = true -> drop_ws (w ++ s) = drop_ws s.
Proof.
  induction w as [|c w IH]; intros H; [reflexivity|].
  cbn [forallb] in H. apply andb_true_iff in H. destruct H as [Hc H].
  cbn [app drop_ws]. rewrite Hc. now apply IH.
Qed.

Lemma drop_ws_token c s : is_ws c = false -> drop_ws (c :: s) = c :: s.
Proof. intros H. cbn [drop_ws]. now rewrite H. Qed.

Lemma forallb_rev {A : Type} (P : A -> bool) l :
  forallb P (rev l) = forallb P l.
Proof.
  apply eq_true_iff_eq. rewrite !forallb_forall.
  split; intros H x Hx; apply H; [now apply in_rev in Hx | now apply in_rev].
Qed.

Lemma trim_spaces w1 s w3 :
  forallb is_ws w1 = true -> forallb is_ws w3 = true ->
  (exists c r, s = c :: r /\ is_ws c = false) ->
  (exists d t, rev s = d :: t /\ is_ws d = false) ->
  trim (w1 ++ s ++ w3) = s.
Proof.
  intros H1 H3 (c & r & -> & Hc) (d & t & E & Hd). unfold trim.
  rewrite drop_ws_spaces by assumption.
  cbn [app]. rewrite drop_ws_token by assumption.
  change (c :: r ++ w3) with ((c :: r) ++ w3).
  rewrite rev_app_distr, drop_ws_spaces by (now rewrite forallb_rev).
  rewrite E, drop_ws_token by assumption. rewrite <- E. apply rev_involutive.
Qed.

Lemma split_go_spaces w : forall s tok,
  forallb is_ws w = true ->
  split_go (w ++ s) tok true = split_go s tok true.
Proof.
  induction w as [|c w IH]; intros s tok H; [reflexivity|].
  cbn [forallb] in H. apply andb_true_iff in H. destruct H as [Hc H].
  cbn [app split_go]. rewrite Hc. now apply IH.
Qed.

Lemma split_go_separator w s tok :
  forallb is_ws w = true -> w <> [] ->
  split_go (w ++ s) tok false = tok :: split_go s [] true.
Proof.
  intros H Hne. destruct w as [|c w]; [contradiction|].
  cbn [forallb] in H. apply andb_true_iff in H. destruct H as [Hc H].
  cbn [app split_go]. rewrite Hc. f_equal. now apply split_go_spaces.
Qed.

Lemma split_go_last_token tok flag :
  forallb is_digit tok = true -> tok <> [] -> split_go tok [] flag = [tok].
Proof.
  intros H Hne. rewrite <- (app_nil_r tok) at 1.
  now rewrite (split_go_token_any tok [] [] flag H Hne).
Qed.

Lemma digits_ends tok :
  forallb is_digit tok = true -> tok <> [] ->
  (exists c r, tok = c :: r /\ is_ws c = false)
  /\ (exists d t, rev tok = d :: t /\ is_ws d = false).
Proof.
  intros H Hne. split; [|now apply forallb_digit_last].
  destruct tok as [|c r]; [contradiction|]. exists c, r.
  split; [reflexivity|]. apply is_digit_not_ws.
  cbn [forallb] in H. apply andb_true_iff in H. tauto.
Qed.

(** X5. A record line may carry white space before, between and after its
    two numbers: spaces, tabs and a carriage return before the line feed
    are all dropped, and the line is read as the two numbers written in
    decimal digits, for numbers below 2^53, which [Number] reads
    exactly. *)
Theorem parse_line_white_space w1 ta w2 tb w3 :
  forallb is_ws w1 = true -> forallb is_ws w2 = true -> w2 <> [] ->
  forallb is_ws w3 = true ->
  forallb is_digit ta = true -> ta <> [] ->
  forallb is_digit tb = true -> tb <> [] ->
  digits_value ta < 2 ^ 53 -> digits_value tb < 2 ^ 53 ->
  parse_line (string_of_list_ascii (w1 ++ ta ++ w2 ++ tb ++ w3))
  = (JNum (digits_value ta), JNum (digits_value tb)).
Proof.
  intros H1 H2 Hne2 H3 Ha Hnea Hb Hneb _ _.
  unfold parse_line. rewrite list_ascii_of_string_of_list_ascii.
  destruct (digits_ends ta Ha Hnea) as [Hfa _].
  destruct (digits_ends tb Hb Hneb) as [_ Hlb].
  replace (w1 ++ ta ++ w2 ++ tb ++ w3) with (w1 ++ (ta ++ w2 ++ tb) ++ w3)
    by (now rewrite <- !app_assoc).
  rewrite trim_spaces; try assumption.
  - unfold split_ws.
    rewrite (split_go_token ta _ []) by assumption. cbn [app].
    rewrite split_go_separator by assumption.
    rewrite (split_go_last_token tb true Hb Hneb).
    cbn [map nth]. unfold to_number. rewrite Ha, Hb. reflexivity.
  - destruct Hfa as (c & r & -> & Hc). exists c, (r ++ w2 ++ tb).
    split; [reflexivity | assumption].
  - destruct Hlb as (d & t & E & Hd).
    exists d, (t ++ rev w2 ++ rev ta). split; [|assumption].
    rewrite !rev_app_distr, E. now rewrite <- !app_assoc.
Qed.

Lemma parse_line_white_space_witness :
  parse_line (string_of_list_ascii
                ([" "%char] ++ ["1"%char; "2"%char] ++ ["009"%char; " "%char]
                 ++ ["7"%char] ++ ["013"%char]))
  = (JNum (digits_value ["1"%char; "2"%char]), JNum (digits_value ["7"%char])).
Proof.
  apply (parse_line_white_space [" "%char] ["1"%char; "2"%char]
           ["009"%char; " "%char] ["7"%char] ["013"%char]);
    first [reflexivity | discriminate].
Defined.

(** ** The degree array *)

Lemma length_filter_sum {A : Type} (P : A -> bool) l :
  N.of_nat (length (filter P l)) = sumN (fun x => b2n (P x)) l.
Proof.
  induction l as [|x l IH]; [reflexivity|].
  cbn [filter]. rewrite sumN_cons, <- IH.
  destruct (P x); cbn [length b2n]; lia.
Qed.

Lemma sumN_const {A : Type} (k : N) (l : list A) :
  sumN (fun _ => k) l = N.of_nat (length l) * k.
Proof.
  induction l as [|x l IH]; [reflexivity|].
  rewrite sumN_cons, IH. cbn [length]. lia.
Qed.

Lemma degree_sum ce n :
  (forall a b, In (a, b) ce -> a < b /\ b < n) ->
  sumN (degree ce) (node_ids n) = 2 * N.of_nat (length ce).
Proof.
  intros Hce. unfold degree.
  rewrite (sumN_ext _ (fun x => sumN
             (fun e => b2n ((fst e =? x) || (snd e =? x))) ce))
    by (intros x _; apply length_filter_sum).
  rewrite sumN_exchange.
  rewrite (sumN_ext _ (fun _ => 2)); [rewrite sumN_const; lia|].
  intros [a b] He. apply Hce in He. cbn [fst snd].
  rewrite (sumN_ext _ (fun x => b2n (x =? a) * 1 + b2n (x =? b) * 1)).
  - rewrite sumN_add.
    rewrite (sumN_single (fun _ => 1) a), (sumN_single (fun _ => 1) b);
      try apply node_ids_NoDup; try (apply node_ids_In; lia). reflexivity.
  - intros x _. rewrite (N.eqb_sym a x), (N.eqb_sym b x).
    destruct (N.eqb_spec x a), (N.eqb_spec x b); cbn [orb b2n]; lia.
Qed.

(** X6. The degree array holds the degrees: for identifiers that fit the
    row array, slot [x] is the number of canonical edges at [x], without
    any wrap of its 32-bit counters, and the slots add up to twice the
    number of canonical edges. *)
Theorem degrees_are_degrees lines degrees ce :
  degrees_stage lines = Ok degrees ->
  canonical_edges lines = Ok ce ->
  max_id (edge_records lines) + 1 < 2 ^ 32 ->
  let n := max_id (edge_records lines) + 1 in
  length degrees = N.to_nat n
  /\ (forall x, load degrees x = degree ce x)
  /\ sumN (load degrees) (node_ids n) = 2 * N.of_nat (length ce).
Proof.
  intros Hdeg Hce Hn n.
  unfold degrees_stage, canonical_edges in *.
  destruct (canonical_packed lines) as [uniq|] eqn:Hu; [|discriminate].
  cbn [bind] in *. injection Hce as <-.
  pose proof (canonical_packed_ok_well_formed _ _ Hu) as Hwf.
  rewrite (pass1_maxNodeId lines Hwf) in Hdeg. injection Hdeg as <-. fold n.
  split; [apply degrees_of_length|].
  split; [intros x; now apply degrees_exact|].
  rewrite (sumN_ext _ (degree (map unpack uniq)))
    by (intros x _; now apply degrees_exact).
  apply degree_sum. intros a b Hab.
  apply in_map_iff in Hab. destruct Hab as (p & Hp & Hin).
  injection Hp as <- <-.
  assert (Hsmall : max_id (edge_records lines) + 1 <= 2 ^ 32) by (fold n; lia).
  destruct (uniq_edge lines uniq Hu Hsmall p Hin) as (H1 & H2 & _).
  unfold n. lia.
Qed.

Lemma degrees_are_degrees_witness :
  let n := max_id (edge_records scenario3) + 1 in
  let degrees := [0; 2; 2; 2; 0; 0] in
  let ce := [(1, 2); (1, 3); (2, 3)] in
  length degrees = N.to_nat n
  /\ (forall x, load degrees x = degree ce x)
  /\ sumN (load degrees) (node_ids n) = 2 * N.of_nat (length ce).
Proof.
  apply (degrees_are_degrees scenario3 [0; 2; 2; 2; 0; 0]
           [(1, 2); (1, 3); (2, 3)]);
    vm_compute; reflexivity.
Defined.

(** ** What the kernel reads stays inside the buffers *)

(** X7. On record lines of two decimal identifiers below 2^32 - 1, the
    preprocessing gives a representation that the kernel reads within
    bounds: the offsets array has [N + 1] entries with [N >= 1], every
    offset is at most the length of the flat array, and every entry of the
    flat array is a node identifier below [N] that fits 32 bits, so the
    reads [adj_data[i]], [adj_offsets[v]] and [adj_offsets[v + 1]] are all
    inside the buffers. *)
Theorem kernel_reads_in_bounds lines :
  well_formed lines ->
  max_id (edge_records lines) + 1 <= max_array_length ->
  N.of_nat (length lines) <= max_array_length ->
  exists g,
    processGraph lines = Ok g
    /\ let n := nodeCountForAllocation g in
       1 <= n /\ n < 2 ^ 32
       /\ N.of_nat (length (adj_offsets g)) = n + 1
       /\ N.of_nat (length (adj_data g)) < 2 ^ 32
       /\ (forall i, i <= n ->
             load (adj_offsets g) i <= N.of_nat (length (adj_data g)))
       /\ Forall (fun v => v < n) (adj_data g).
Proof.
  intros Hwf Hmax Hlen.
  destruct (processGraph_completes lines Hwf Hmax Hlen) as [g Hrun].
  exists g. split; [assumption|]. intros n.
  destruct (run_facts lines g Hrun)
    as (uniq & degrees & rows & _ & _ & _ & _ & _ & Hcount & Hn & _ & _ & _ & _ & Hok).
  subst n. rewrite Hcount. clear Hmax Hlen.
  split; [lia|]. split; [assumption|].
  split; [apply (csr_length _ _ _ Hok)|].
  split; [apply (csr_fits _ _ _ Hok)|].
  split; [intros i Hi; now apply (csr_offset_le_last _ _ _ Hok)|].
  apply (csr_ids _ _ _ Hok).
Qed.

Lemma kernel_reads_in_bounds_witness :
  exists g,
    processGraph scenario1 = Ok g
    /\ let n := nodeCountForAllocation g in
       1 <= n /\ n < 2 ^ 32
       /\ N.of_nat (length (adj_offsets g)) = n + 1
       /\ N.of_nat (length (adj_data g)) < 2 ^ 32
       /\ (forall i, i <= n ->
             load (adj_offsets g) i <= N.of_nat (length (adj_data g)))
       /\ Forall (fun v => v < n) (adj_data g).
Proof.
  apply (kernel_reads_in_bounds scenario1).
  - repeat (constructor;
            [right; eexists; eexists; vm_compute; reflexivity|]).
    constructor.
  - vm_compute. discriminate.
  - vm_compute. discriminate.
Defined.

(** ** Rows as sets of neighbours *)

(** X8. Row [x] of the compact representation holds exactly the
    neighbours of [x] in the input graph that rank above [x] by the degree
    array, each once; in particular a row never holds its own node. *)
Theorem row_is_higher_neighbours lines g degrees x :
  processGraph lines = Ok g ->
  degrees_stage lines = Ok degrees ->
  x < nodeCountForAllocation g ->
  NoDup (row g x)
  /\ ~ In x (row g x)
  /\ forall y, In y (row g x) <->
       adjacent (edge_records lines) x y = true
       /\ rank_lt (load degrees) x y = true.
Proof.
  intros Hrun Hdeg Hx.
  pose proof (row_membership lines g degrees x) as Hmem.
  split.
  - destruct (run_facts lines g Hrun)
      as (_ & _ & _ & _ & _ & _ & _ & _ & Hcount & _ & _ & _ & _ & _ & Hok).
    rewrite Hcount in Hx. apply sorted_lt_NoDup.
    exact (csr_sorted _ _ _ Hok x Hx).
  - split.
    + intros Hin. apply (Hmem x Hrun Hdeg Hx) in Hin.
      destruct Hin as [Hadj _]. rewrite adjacent_irrefl in Hadj. discriminate.
    + intros y. now apply Hmem.
Qed.

Lemma row_is_higher_neighbours_witness :
  let g := scenario1_graph in
  let degrees := [0; 2; 2; 2] in
  NoDup (row g 1)
  /\ ~ In 1 (row g 1)
  /\ forall y, In y (row g 1) <->
       adjacent (edge_records scenario1) 1 y = true
       /\ rank_lt (load degrees) 1 y = true.
Proof.
  apply (row_is_higher_neighbours scenario1 scenario1_graph [0; 2; 2; 2] 1);
    vm_compute; reflexivity.
Defined.

(** ** A run within the default limits of the device *)

Lemma adj_data_length lines g uniq :
  processGraph lines = Ok g ->
  canonical_packed lines = Ok uniq ->
  length (adj_data g) = length uniq.
Proof.
  intros Hrun Hu.
  destruct (run_facts lines g Hrun)
    as (uniq' & degrees & rows & Hu' & _ & Hrows & _ & _ & _ & _ & _ & Hdata & _).
  rewrite Hu in Hu'. injection Hu' as <-.
  destruct (orient_stage_facts lines rows Hrows)
    as (uniq' & _ & Hu' & _ & _ & _ & _ & _ & Htotal).
  rewrite Hu in Hu'. injection Hu' as <-.
  now rewrite Hdata, concat_sorted_length.
Qed.

Lemma canonical_packed_length lines uniq :
  canonical_packed lines = Ok uniq ->
  (length uniq <= length lines)%nat.
Proof.
  intros Hu. pose proof (canonical_packed_ok_well_formed _ _ Hu) as Hwf.
  rewrite (canonical_packed_well_formed lines Hwf) in Hu. injection Hu as <-.
  pose proof (dedup_adjacent_length (sort_asc (packed_records (edge_records lines)))).
  rewrite sort_asc_length in H.
  pose proof (packed_records_length (edge_records lines)).
  pose proof (edge_records_length lines). lia.
Qed.

(** X9. A run within the default limits of the device.  On record lines
    of two decimal identifiers, with at most 16,776,960 allocated nodes
    (65535 workgroups of 256), at most 33,554,432 lines (a flat array of
    128 MiB) and at least one edge between two distinct nodes, the
    preprocessing completes, the two storage buffers and the dispatch of
    [ceil(N / 256)] workgroups are within the default limits, and the
    kernel dispatched on them leaves the number of triangles of the input
    graph, modulo 2^32, in the counter. *)
Theorem run_within_default_limits lines :
  well_formed lines ->
  max_id (edge_records lines) + 1 <= 256 * maxComputeWorkgroupsPerDimension ->
  4 * N.of_nat (length lines) <= maxStorageBufferBindingSize ->
  (exists e, In e (edge_records lines) /\ fst e <> snd e) ->
  exists g,
    processGraph lines = Ok g
    /\ within_default_limits g = true
    /\ dispatch g = Some (triangles (edge_records lines) mod 2 ^ 32).
Proof.
  unfold maxComputeWorkgroupsPerDimension, maxStorageBufferBindingSize.
  intros Hwf Hnodes Hlines (e & He & Hne).
  destruct (processGraph_completes lines Hwf) as [g Hrun];
    [unfold max_array_length; lia | unfold max_array_length; lia |].
  exists g. split; [assumption|].
  split; [|apply (dispatch_spec lines g Hrun)].
  destruct (run_facts lines g Hrun)
    as (uniq & degrees & rows & Hu & _ & _ & _ & _ & Hcount & _ & _ & _ & _ & _ & Hok).
  pose proof (adj_data_length lines g uniq Hrun Hu) as Hadj.
  pose proof (canonical_packed_length lines uniq Hu) as Hle.
  assert (Hpos : (0 < length uniq)%nat).
  { destruct (canonical_packed_spec _ _ Hu) as [_ Hin].
    destruct e as [a b]. cbn [fst snd] in Hne.
    assert (H : In (pack (N.min a b) (N.max a b) mod 2 ^ 64) uniq)
      by (apply Hin, in_packed_records; exists a, b; auto).
    destruct uniq; [destruct H | cbn [length]; lia]. }
  pose proof (csr_length _ _ _ Hok) as Hoffs.
  unfold within_default_limits, byteLength,
    maxComputeWorkgroupsPerDimension, maxStorageBufferBindingSize.
  rewrite Hcount, Hoffs, Hadj.
  assert (Hwg : workgroupCount (max_id (edge_records lines) + 1) <= 65535).
  { unfold workgroupCount. apply N.lt_succ_r.
    apply N.Div0.div_lt_upper_bound. lia. }
  clear Hok Hu.
  repeat (apply andb_true_intro; split);
    first [apply N.leb_le | apply N.ltb_lt]; lia.
Qed.

Lemma run_within_default_limits_witness :
  exists g,
    processGraph scenario3 = Ok g
    /\ within_default_limits g = true
    /\ dispatch g = Some (triangles (edge_records scenario3) mod 2 ^ 32).
Proof.
  apply (run_within_default_limits scenario3).
  - repeat (constructor;
            [first [left; reflexivity
                   | right; eexists; eexists; vm_compute; reflexivity]|]).
    constructor.
  - vm_compute. discriminate.
  - vm_compute. discriminate.
  - exists (1, 2). split; [|discriminate].
    change (edge_records scenario3)
      with [(1, 2); (5, 5); (2, 1); (2, 3); (1, 2); (1, 3)].
    left. reflexivity.
Defined.

(** ** The order of the invocations, on scenario 1 *)

Lemma dispatch_order_irrelevant_witness :
  run_invocations (adj_offsets scenario1_graph) (adj_data scenario1_graph)
    (rev (invocations (nodeCountForAllocation scenario1_graph))) 0
  = dispatch scenario1_graph.
Proof.
  apply (dispatch_order_irrelevant scenario1 scenario1_graph).
  - vm_compute. reflexivity.
  - symmetry. apply Permutation_rev.
Defined.

(** ** The representation depends on the graph only *)

Lemma sorted_lt_unique l1 : forall l2,
  StronglySorted N.lt l1 -> StronglySorted N.lt l2 ->
  (forall x, In x l1 <-> In x l2) -> l1 = l2.
Proof.
  induction l1 as [|x r1 IH]; intros l2 H1 H2 Hin.
  - destruct l2 as [|y r2]; [reflexivity|].
    exfalso. apply (proj2 (Hin y)). now left.
  - destruct l2 as [|y r2].
    + exfalso. apply (proj1 (Hin x)). now left.
    + assert (x = y).
      { destruct (proj1 (Hin x) (or_introl eq_refl)) as [E|Hx]; [now symmetry|].
        destruct (proj2 (Hin y) (or_introl eq_refl)) as [E|Hy]; [assumption|].
        pose proof (sorted_lt_head _ _ _ H1 Hy).
        pose proof (sorted_lt_head _ _ _ H2 Hx). lia. }
      subst y. f_equal. apply IH.
      * eapply sorted_lt_tail; eassumption.
      * eapply sorted_lt_tail; eassumption.
      * intros z. split; intros Hz.
        -- destruct (proj1 (Hin z) (or_intror Hz)) as [E|H]; [|assumption].
           subst z. pose proof (sorted_lt_head _ _ _ H1 Hz). lia.
        -- destruct (proj2 (Hin z) (or_intror Hz)) as [E|H]; [|assumption].
           subst z. pose proof (sorted_lt_head _ _ _ H2 Hz). lia.
Qed.

Lemma packed_records_same_graph es1 es2 p :
  (forall a b, adjacent es1 a b = adjacent es2 a b) ->
  In p (packed_records es1) -> In p (packed_records es2).
Proof.
  intros Hadj Hp. apply in_packed_records in Hp.
  destruct Hp as (a & b & Hin & Hne & ->).
  assert (adjacent es2 a b = true) as H2.
  { rewrite <- Hadj. apply adjacent_spec. auto. }
  apply adjacent_spec in H2. destruct H2 as [_ [H2|H2]];
    apply in_packed_records.
  - exists a, b. auto.
  - exists b, a. rewrite N.min_comm, N.max_comm. auto.
Qed.

(** X12. The compact representation depends only on the undirected graph
    and on the largest identifier: a second input with the same adjacency
    and the same largest identifier, whatever the order, the orientation,
    the repetitions and the self-loops of its records, gives the same
    offsets and the same flat adjacency array. *)
Theorem representation_of_graph lines1 lines2 g1 :
  processGraph lines1 = Ok g1 ->
  well_formed lines2 ->
  max_id (edge_records lines2) = max_id (edge_records lines1) ->
  (forall a b, adjacent (edge_records lines1) a b
               = adjacent (edge_records lines2) a b) ->
  exists g2,
    processGraph lines2 = Ok g2
    /\ adj_offsets g2 = adj_offsets g1
    /\ adj_data g2 = adj_data g1
    /\ nodeCountForAllocation g2 = nodeCountForAllocation g1.
Proof.
  intros Hrun Hwf2 Hmax Hadj.
  apply processGraph_stages in Hrun.
  destruct Hrun as (uniq & rows & offs & flat & cur & Hu & Hn & Hstage & Hor & Hcsr & ->).
  pose proof (canonical_packed_ok_well_formed _ _ Hu) as Hwf1.
  assert (Hu2 : canonical_packed lines2 = Ok uniq).
  { rewrite canonical_packed_well_formed by assumption. f_equal.
    destruct (canonical_packed_spec _ _ Hu) as [Hs1 Hin1].
    destruct (canonical_packed_spec lines2 _
                (canonical_packed_well_formed lines2 Hwf2)) as [Hs2 Hin2].
    apply sorted_lt_unique; try assumption.
    intros p. rewrite Hin1, Hin2. split.
    - apply packed_records_same_graph. intros a b. symmetry. apply Hadj.
    - now apply packed_records_same_graph. }
  assert (Hm : maxNodeId (pass1 lines2) = maxNodeId (pass1 lines1))
    by (rewrite !pass1_maxNodeId by assumption; exact Hmax).
  eexists. split.
  - unfold processGraph, orientedAdj_stage. rewrite Hu2. cbn [bind].
    rewrite Hm. unfold array_from.
    destruct (N.ltb_spec max_array_length (maxNodeId (pass1 lines1) + 1)); [lia|].
    cbn [bind]. rewrite Hor. cbn [bind]. rewrite Hcsr. cbn [bind]. reflexivity.
  - cbn [adj_offsets adj_data nodeCountForAllocation]. auto.
Qed.

Lemma representation_of_graph_witness :
  exists g2,
    processGraph scenario3 = Ok g2
    /\ adj_offsets g2 = adj_offsets
         {| adj_offsets := [0; 0; 2; 3; 3; 3; 3]; adj_data := [2; 3; 3];
            nodeCountForAllocation := 6; officialNodeCount := 4;
            g_officialEdgeCount := 4 |}
    /\ adj_data g2 = [2; 3; 3]
    /\ nodeCountForAllocation g2 = 6.
Proof.
  apply (representation_of_graph
           ["3 1"; "2 3"; "5 5"; "2 1"]%string scenario3
           {| adj_offsets := [0; 0; 2; 3; 3; 3; 3]; adj_data := [2; 3; 3];
              nodeCountForAllocation := 6; officialNodeCount := 4;
              g_officialEdgeCount := 4 |}).
  - vm_compute. reflexivity.
  - repeat (constructor;
            [first [left; reflexivity
                   | right; eexists; eexists; vm_compute; reflexivity]|]).
    constructor.
  - vm_compute. reflexivity.
  - intros a b. apply eq_true_iff_eq. rewrite !adjacent_spec.
    change (edge_records ["3 1"; "2 3"; "5 5"; "2 1"]%string)
      with [(3, 1); (2, 3); (5, 5); (2, 1)].
    change (edge_records scenario3)
      with [(1, 2); (5, 5); (2, 1); (2, 3); (1, 2); (1, 3)].
    cbn [In]. intuition congruence.
Defined.

(** ** Inputs without edges *)

Lemma concat_all_nil {A : Type} (rows : list (list A)) :
  (forall r, In r rows -> r = []) -> concat rows = [].
Proof.
  induction rows as [|r rows IH]; intros H; [reflexivity|].
  cbn [concat]. rewrite (H r (or_introl eq_refl)). apply IH.
  intros r' Hr'. apply H. now right.
Qed.

(** X13. An input of record lines with no edge between two distinct nodes
    (an empty file, comments only, or self-loops only, with identifiers
    below 2^32 - 1) is preprocessed to the end: the flat adjacency array
    is empty, every offset is 0, and the kernel run over these arrays
    leaves 0 in the counter. *)
Theorem no_edges_no_triangles lines :
  well_formed lines ->
  (forall e, In e (edge_records lines) -> fst e = snd e) ->
  max_id (edge_records lines) + 1 <= max_array_length ->
  N.of_nat (length lines) <= max_array_length ->
  exists g,
    processGraph lines = Ok g
    /\ adj_data g = []
    /\ (forall i, load (adj_offsets g) i = 0)
    /\ dispatch g = Some 0.
Proof.
  intros Hwf Hloops Hmax Hlines.
  destruct (processGraph_completes lines Hwf Hmax Hlines) as [g Hrun].
  exists g. split; [assumption|]. clear Hmax Hlines.
  destruct (run_facts lines g Hrun)
    as (uniq & degrees & rows & Hu & _ & _ & _ & Hlen & Hcount & Hn & Hoffs
        & Hdata & Hrows & _ & Hok).
  assert (Hnil : uniq = []).
  { destruct (canonical_packed_spec _ _ Hu) as [_ Hin].
    destruct uniq as [|p r]; [reflexivity|]. exfalso.
    pose proof (proj1 (Hin p) (in_eq p r)) as H.
    apply in_packed_records in H.
    destruct H as (a & b & Hab & Hne & _).
    apply Hloops in Hab. cbn [fst snd] in Hab. contradiction. }
  subst uniq.
  assert (Hadj : adj_data g = []).
  { rewrite Hdata. apply concat_all_nil. intros r Hr.
    apply in_map_iff in Hr. destruct Hr as (r0 & <- & Hr0).
    destruct (In_nth _ _ [] Hr0) as (k & Hk & Hnth).
    specialize (Hrows (N.of_nat k)). rewrite Nat2N.id, Hnth in Hrows.
    now rewrite Hrows. }
  split; [assumption|]. split.
  - intros i. destruct (N.le_gt_cases i (max_id (edge_records lines) + 1)) as [Hi|Hi].
    + pose proof (csr_offset_le_last _ _ _ Hok i Hi) as H.
      rewrite Hadj in H. simpl in H. lia.
    + unfold load. apply nth_overflow.
      pose proof (csr_length _ _ _ Hok). lia.
  - rewrite (dispatch_spec lines g Hrun).
    replace (triangles (edge_records lines)) with 0; [reflexivity|].
    symmetry. unfold triangles.
    apply sumN_zero. intros a _. apply sumN_zero. intros b _.
    apply sumN_zero. intros c _.
    replace (is_triangle (edge_records lines) a b c) with false;
      [now rewrite !andb_false_r|].
    symmetry. unfold is_triangle.
    destruct (adjacent (edge_records lines) a b) eqn:E; [|reflexivity].
    apply adjacent_spec in E. destruct E as [Hne [H|H]];
      apply Hloops in H; cbn [fst snd] in H; congruence.
Qed.

Lemma no_edges_no_triangles_witness :
  exists g,
    processGraph ["# nothing"; ""; "5 5"]%string = Ok g
    /\ adj_data g = []
    /\ (forall i, load (adj_offsets g) i = 0)
    /\ dispatch g = Some 0.
Proof.
  apply (no_edges_no_triangles ["# nothing"; ""; "5 5"]%string).
  - constructor; [left; reflexivity|].
    constructor; [left; reflexivity|].
    constructor; [right; eexists; eexists; vm_compute; reflexivity|].
    constructor.
  - change (edge_records ["# nothing"; ""; "5 5"]%string) with [(5, 5)].
    intros e [<-|[]]. reflexivity.
  - vm_compute. discriminate.
  - vm_compute. discriminate.
Defined.

(** ** [count_intersection] on any two ranges *)

Lemma merge_count_sym l1 : forall l2, merge_count l1 l2 = merge_count l2 l1.
Proof.
  induction l1 as [|x r1 IH1]; intros l2.
  - now rewrite merge_count_nil_l, merge_count_nil_r.
  - induction l2 as [|y r2 IH2].
    + now rewrite merge_count_nil_l, merge_count_nil_r.
    + rewrite !merge_count_cons, (N.eqb_sym y x).
      destruct (N.eqb_spec x y) as [->|Hne]; [now rewrite IH1|].
      destruct (N.ltb_spec x y), (N.ltb_spec y x);
        first [apply IH1 | apply IH2 | lia].
Qed.

Lemma merge_count_bound l1 : forall l2,
  merge_count l1 l2 <= N.of_nat (length l1)
  /\ merge_count l1 l2 <= N.of_nat (length l2).
Proof.
  induction l1 as [|x r1 IH1]; intros l2.
  - rewrite merge_count_nil_l. lia.
  - induction l2 as [|y r2 IH2].
    + rewrite merge_count_nil_r. lia.
    + rewrite merge_count_cons. cbn [length].
      destruct (x =? y); [|destruct (x <? y)].
      * destruct (IH1 r2). lia.
      * destruct (IH1 (y :: r2)) as [H1 H2]. cbn [length] in H2. lia.
      * cbn [length] in IH2. destruct IH2. lia.
Qed.

(** X14. For any two ranges inside the flat array, sorted or not,
    [count_intersection] returns a count that is at most the length of the
    shorter range, and the same count when the two ranges are
    exchanged. *)
Theorem count_intersection_bounded_symmetric adj u_start u_end v_start v_end :
  u_end <= N.of_nat (length adj) -> v_end <= N.of_nat (length adj) ->
  u_end < 2 ^ 32 -> v_end < 2 ^ 32 ->
  exists count,
    count_intersection adj u_start u_end v_start v_end = Some count
    /\ count_intersection adj v_start v_end u_start u_end = Some count
    /\ count <= u_end - u_start
    /\ count <= v_end - v_start.
Proof.
  intros Hue Hve Hu Hv. unfold count_intersection.
  rewrite (ci_loop_merge adj u_end v_end Hue Hve Hu Hv) by lia.
  rewrite (ci_loop_merge adj v_end u_end Hve Hue Hv Hu) by lia.
  eexists. split; [reflexivity|].
  split; [now rewrite merge_count_sym|].
  rewrite N.add_0_l.
  destruct (merge_count_bound (slice adj u_start u_end) (slice adj v_start v_end))
    as [H1 H2].
  rewrite slice_length in H1, H2 by assumption. auto.
Qed.

Lemma count_intersection_bounded_symmetric_witness :
  exists count,
    count_intersection [5; 1; 4; 4; 1] 0 3 2 5 = Some count
    /\ count_intersection [5; 1; 4; 4; 1] 2 5 0 3 = Some count
    /\ count <= 3 - 0
    /\ count <= 5 - 2.
Proof.
  apply (count_intersection_bounded_symmetric [5; 1; 4; 4; 1] 0 3 2 5);
    vm_compute; congruence.
Defined.

(** ** The kernel ends on any buffers *)

Lemma ci_loop_total adj u_end v_end :
  u_end < 2 ^ 32 -> v_end < 2 ^ 32 ->
  forall fuel i j count,
    (N.to_nat ((u_end - i) + (v_end - j)) <= fuel)%nat ->
    exists r, ci_loop fuel adj u_end v_end i j count = Some r.
Proof.
  intros Hu Hv. induction fuel as [|fuel IH]; intros i j count Hfuel;
    cbn [ci_loop];
    destruct (N.ltb_spec i u_end) as [Hi|Hi],
             (N.ltb_spec j v_end) as [Hj|Hj]; cbn [andb]; eauto; try lia.
  unfold u32. rewrite ?(N.mod_small (i + 1)), ?(N.mod_small (j + 1)) by lia.
  destruct (load adj i =? load adj j); [apply IH; lia|].
  destruct (load adj i <? load adj j); apply IH; lia.
Qed.

Lemma main_loop_total offsets adj u_adj_start u_adj_end :
  Forall (fun x => x < 2 ^ 32) offsets -> u_adj_end < 2 ^ 32 ->
  forall fuel i triangle_count,
    (N.to_nat (u_adj_end - i) <= fuel)%nat ->
    exists r, main_loop fuel offsets adj u_adj_start u_adj_end i triangle_count
              = Some r.
Proof.
  intros Hoffs Hue. induction fuel as [|fuel IH]; intros i tc Hfuel;
    cbn [main_loop];
    destruct (N.ltb_spec i u_adj_end) as [Hi|Hi]; eauto; try lia.
  destruct (ci_loop_total adj u_adj_end
              (load offsets (u32 (load adj i + 1))) Hue
              (load_small _ _ Hoffs)
              (N.to_nat (u_adj_end - u_adj_start
                         + (load offsets (u32 (load adj i + 1))
                            - load offsets (load adj i))))
              u_adj_start (load offsets (load adj i)) 0 (le_n _)) as [c Hc].
  unfold count_intersection. rewrite Hc. cbn [obind].
  unfold u32 at 1. rewrite (N.mod_small (i + 1)) by lia.
  apply IH. lia.
Qed.

(** X15. On any offsets buffer of 32-bit values and any adjacency buffer,
    produced by the preprocessing or not, every invocation ends, and so
    does a whole sequence of invocations: the two loops of the shader
    cannot run forever. *)
Theorem kernel_terminates offsets adj ids triangle_count :
  Forall (fun x => x < 2 ^ 32) offsets ->
  exists r, run_invocations offsets adj ids triangle_count = Some r.
Proof.
  intros Hoffs. unfold run_invocations.
  revert triangle_count. induction ids as [|u ids IH]; intros tc;
    cbn [fold_left obind]; [eauto|].
  assert (Hmain : exists r, main offsets adj u tc = Some r).
  { unfold main. destruct (node_count offsets <=? u); [eauto|].
    apply main_loop_total; [assumption | now apply load_small | lia]. }
  destruct Hmain as [r ->]. apply IH.
Qed.

Lemma kernel_terminates_witness :
  exists r, run_invocations [3; 1; 7; 2] [9; 0; 2; 2] [0; 1; 2; 3; 4] 5 = Some r.
Proof.
  apply (kernel_terminates [3; 1; 7; 2] [9; 0; 2; 2] [0; 1; 2; 3; 4] 5).
  repeat (constructor; [reflexivity|]). constructor.
Defined.

(** ** The out-degree bound of the orientation *)

Lemma sumN_le {A : Type} (f g : A -> N) l :
  (forall x, In x l -> f x <= g x) -> sumN f l <= sumN g l.
Proof.
  induction l as [|x l IH]; intros H; [reflexivity|].
  rewrite !sumN_cons.
  pose proof (H x (or_introl eq_refl)).
  assert (sumN f l <= sumN g l) by (apply IH; intros y Hy; apply H; now right).
  lia.
Qed.

Lemma sumN_sublist (f : N -> N) l ns :
  NoDup ns -> NoDup l -> incl l ns -> sumN f l <= sumN f ns.
Proof.
  intros Hns Hl Hincl. rewrite (sumN_indicator f l ns Hns Hl Hincl).
  apply sumN_le. intros x _. destruct (mem x l); cbn [b2n]; lia.
Qed.

(** X16. The orientation keeps the rows short: the square of the
    out-degree of any node is at most twice the number of canonical edges,
    because every neighbour kept in a row has at least the degree of the
    row's node. *)
Theorem out_degree_bound lines g ce x :
  processGraph lines = Ok g ->
  canonical_edges lines = Ok ce ->
  x < nodeCountForAllocation g ->
  N.of_nat (length (row g x)) * N.of_nat (length (row g x))
  <= 2 * N.of_nat (length ce).
Proof.
  intros Hrun Hce Hx.
  destruct (run_facts lines g Hrun)
    as (uniq & degrees & rows & Hu & Hdeg & _ & Hdl & _ & Hcount & Hn & _ & _
        & _ & Hrow & Hok).
  unfold canonical_edges in Hce. rewrite Hu in Hce. cbn [bind] in Hce.
  injection Hce as <-.
  set (es := edge_records lines) in *. set (n := max_id es + 1) in *.
  set (ce := map unpack uniq).
  assert (Hsmall : max_id (edge_records lines) + 1 <= 2 ^ 32) by (fold es; fold n; lia).
  assert (Hdegs : degrees = degrees_of n uniq).
  { unfold degrees_stage in Hdeg. rewrite Hu in Hdeg. cbn [bind] in Hdeg.
    rewrite (pass1_maxNodeId lines (canonical_packed_ok_well_formed _ _ Hu)) in Hdeg.
    now injection Hdeg. }
  assert (Hload : forall y, load degrees y = degree ce y)
    by (intros y; rewrite Hdegs; now apply degrees_exact).
  assert (Hmem : forall y, In y (row g x) <->
            adjacent es x y = true /\ rank_lt (degree ce) x y = true).
  { intros y. rewrite (row_membership lines g degrees x y Hrun Hdeg Hx).
    unfold rank_lt. now rewrite !Hload. }
  assert (Hnd : NoDup (row g x)).
  { rewrite Hcount in Hx. apply sorted_lt_NoDup. exact (csr_sorted _ _ _ Hok x Hx). }
  assert (Hedges : forall a b, In (a, b) ce -> a < b /\ b < n).
  { intros a b Hab. apply in_map_iff in Hab. destruct Hab as (p & Hp & Hin).
    injection Hp as <- <-.
    destruct (uniq_edge lines uniq Hu Hsmall p Hin) as (H1 & H2 & _).
    unfold n. fold es in H2. lia. }
  (* the out-degree is at most the degree *)
  assert (H1 : N.of_nat (length (row g x)) <= degree ce x).
  { unfold degree.
    set (f := fun y => (N.min x y, N.max x y)).
    assert ((length (map f (row g x))
             <= length (filter (fun e : N * N =>
                                  (fst e =? x)%N || (snd e =? x)%N) ce))%nat).
    { apply NoDup_incl_length.
      - apply NoDup_map_NoDup_ForallPairs; [|assumption].
        intros y y' _ _ E. unfold f in E. injection E as E1 E2. lia.
      - intros e He. apply in_map_iff in He. destruct He as (y & <- & Hy).
        apply Hmem in Hy. destruct Hy as [Hadj _].
        apply adjacent_spec in Hadj. destruct Hadj as [Hne Hin].
        apply filter_In. split.
        + apply (in_canonical_edges lines uniq _ _ Hu (uniq_edges_small lines Hsmall)).
          split; [lia|]. fold es.
          destruct (N.le_ge_cases x y);
            [rewrite N.min_l, N.max_r by assumption
            | rewrite N.min_r, N.max_l by assumption]; tauto.
        + unfold f. cbn [fst snd]. apply orb_true_iff. rewrite !N.eqb_eq. lia. }
    rewrite length_map in H. lia. }
  (* every kept neighbour has at least that degree *)
  assert (H2 : sumN (fun _ => degree ce x) (row g x) <= sumN (degree ce) (row g x)).
  { apply sumN_le. intros y Hy. apply Hmem in Hy. destruct Hy as [_ Hr].
    unfold rank_lt in Hr. apply orb_true_iff in Hr.
    rewrite andb_true_iff, N.ltb_lt, N.eqb_eq in Hr. lia. }
  assert (H3 : sumN (degree ce) (row g x) <= sumN (degree ce) (node_ids n)).
  { apply sumN_sublist; [apply node_ids_NoDup | assumption|].
    intros y Hy. apply Hmem in Hy. destruct Hy as [Hadj _].
    apply adjacent_bound in Hadj. apply node_ids_In. unfold n. lia. }
  rewrite sumN_const in H2. rewrite (degree_sum ce n Hedges) in H3.
  unfold ce in *. rewrite length_map in H3. rewrite length_map.
  revert H1 H2 H3. generalize (degree (map unpack uniq) x) as dx.
  generalize (N.of_nat (length (row g x))) as d.
  generalize (sumN (degree (map unpack uniq)) (row g x)) as s.
  generalize (N.of_nat (length uniq)) as m. clear. intros m s d dx H1 H2 H3. nia.
Qed.

Lemma out_degree_bound_witness :
  N.of_nat (length (row scenario1_graph 1)) * N.of_nat (length (row scenario1_graph 1))
  <= 2 * N.of_nat (length [(1, 2); (1, 3); (2, 3)]).
Proof.
  apply (out_degree_bound scenario1 scenario1_graph [(1, 2); (1, 3); (2, 3)] 1);
    vm_compute; reflexivity.
Defined.

(** ** Rows of the flat array and oriented lists *)

(** X17. The CSR loop copies the oriented adjacency lists without loss:
    row [i] of the compact representation is the oriented list of node
    [i] sorted in ascending order, with the same entries as often, and no
    entry or offset is cut to 32 bits. *)
Theorem csr_rows_are_oriented_lists lines g rows i :
  processGraph lines = Ok g ->
  orientedAdj_stage lines = Ok rows ->
  i < nodeCountForAllocation g ->
  row g i = sort_asc (nth (N.to_nat i) rows [])
  /\ Permutation (row g i) (nth (N.to_nat i) rows [])
  /\ adj_data g = concat (map sort_asc rows).
Proof.
  intros Hrun Hrows Hi. destruct (run_facts lines g Hrun)
    as (uniq & degrees & rows' & _ & _ & Hrows' & _ & _ & Hcount & _ & _
        & Hdata & Hnth & Hrow & _).
  rewrite Hrows in Hrows'. injection Hrows' as <-. rewrite Hcount in Hi.
  change (row g i) with (row_of (adj_offsets g) (adj_data g) i).
  rewrite Hrow, Hnth by assumption.
  split; [reflexivity|]. split; [apply sort_asc_perm | assumption].
Qed.

Lemma csr_rows_are_oriented_lists_witness :
  let g := {| adj_offsets := [0; 0; 3; 5; 6; 6];
              adj_data := [2; 3; 4; 3; 4; 4];
              nodeCountForAllocation := 5; officialNodeCount := 4;
              g_officialEdgeCount := 6 |} in
  let rows := [[]; [2; 3; 4]; [3; 4]; [4]; []] in
  row g 1 = sort_asc (nth (N.to_nat 1) rows [])
  /\ Permutation (row g 1) (nth (N.to_nat 1) rows [])
  /\ adj_data g = concat (map sort_asc rows).
Proof.
  apply (csr_rows_are_oriented_lists
           ["1 3"; "1 2"; "1 4"; "2 4"; "2 3"; "3 4"]%string);
    vm_compute; reflexivity.
Defined.

(** ** Where the preprocessing stops *)

(** X18. The largest identifier that the preprocessing accepts is
    2^32 - 2.  On record lines of two decimal identifiers below 2^53, at
    most 2^32 - 1 of them, the preprocessing completes exactly when
    [maxNodeId + 1] is at most 2^32 - 1, the largest length of an array;
    with a larger identifier, 2^32 - 1 included although it fits 32 bits,
    it ends with a RangeError. *)
Theorem processGraph_outcome lines :
  well_formed lines ->
  ids_below (2 ^ 53) (edge_records lines) ->
  N.of_nat (length lines) <= max_array_length ->
  ((exists g, processGraph lines = Ok g)
   <-> max_id (edge_records lines) + 1 <= max_array_length)
  /\ (max_array_length < max_id (edge_records lines) + 1 ->
      processGraph lines = Throw RangeError).
Proof.
  intros Hwf _ Hlines.
  assert (Hbig : max_array_length < max_id (edge_records lines) + 1 ->
                 processGraph lines = Throw RangeError).
  { intros Hbig. unfold processGraph, orientedAdj_stage.
    rewrite canonical_packed_well_formed by assumption. cbn [bind].
    unfold array_from. rewrite (pass1_maxNodeId lines Hwf).
    destruct (N.ltb_spec max_array_length (max_id (edge_records lines) + 1));
      [reflexivity | lia]. }
  split; [|exact Hbig]. split.
  - intros [g Hg].
    destruct (N.le_gt_cases (max_id (edge_records lines) + 1) max_array_length)
      as [H|H]; [exact H|].
    rewrite (Hbig H) in Hg. discriminate Hg.
  - intros H. apply processGraph_completes; assumption.
Qed.

Lemma processGraph_outcome_witness :
  ((exists g, processGraph scenario1 = Ok g)
   <-> max_id (edge_records scenario1) + 1 <= max_array_length)
  /\ (max_array_length < max_id (edge_records scenario1) + 1 ->
      processGraph scenario1 = Throw RangeError).
Proof.
  apply (processGraph_outcome scenario1).
  - repeat (constructor;
            [right; eexists; eexists; vm_compute; reflexivity|]).
    constructor.
  - change (edge_records scenario1) with [(1, 2); (2, 3); (1, 3)].
    repeat (constructor; [split; reflexivity|]). constructor.
  - vm_compute. discriminate.
Defined.
